(** * Push-to-talk transcription pipeline: a shallow embedding

    The development follows the three TypeScript sources of the app:

    - [deepgram.ts]: the sample encoder [float32ToLinear16] and the
      [DeepgramClient] class (connect / sendAudioChunk / finalizeAndClose
      and the four WebSocket handlers);
    - [audio.ts]: the [AudioCapture] class (start / stop / isActive);
    - the entry script: the push-to-talk closures [startPushToTalk] and
      [stopPushToTalk] over the [isHolding] flag, the [UiController]
      class, and the [DOMContentLoaded] listener with the listeners it
      installs on the three buttons.

    JavaScript numbers are IEEE binary64 values, modelled with the
    Standard Library's [spec_float]; objects that are shared between the
    program and the browser (WebSockets, audio graphs) live in a store
    and are referred to by index; a method body is a state transformer
    that may complete normally or throw. *)

From Stdlib Require Import ZArith QArith Qabs Lia List String Ascii.
From Stdlib Require Import DecimalString.
From Stdlib Require Import Floats.SpecFloat.
From stdpp Require Import base list.
Import ListNotations.

Local Open Scope Z_scope.

(** ** Completions: a call either returns or throws *)

Inductive Exn : Type :=
| TypeError
| RangeError
| SyntaxError
| InvalidStateError.

Inductive Completion (A : Type) : Type :=
| Normal (a : A)
| Throw (e : Exn).

Arguments Normal {A} a.
Arguments Throw {A} e.

(** ** IEEE binary64 numbers and the typed-array views *)

Module Number.

Definition prec : Z := 53.
Definition emax : Z := 1024.

Definition of_Z (z : Z) : spec_float := binary_normalize prec emax z 0 false.

Definition zero : spec_float := S754_zero false.
Definition one : spec_float := Eval cbv in of_Z 1.
Definition minus_one : spec_float := Eval cbv in of_Z (-1).
Definition x8000 : spec_float := Eval cbv in of_Z 32768.
Definition x7fff : spec_float := Eval cbv in of_Z 32767.

Definition mul : spec_float -> spec_float -> spec_float := SFmul prec emax.

(** [a < b] on numbers; false as soon as one side is NaN. *)
Definition lt : spec_float -> spec_float -> bool := SFltb.

(** [Math.min(a, b)] and [Math.max(a, b)]: NaN if either argument is NaN,
    and -0 is smaller than +0. *)
Definition Math_min (a b : spec_float) : spec_float :=
  match SFcompare a b with
  | None => S754_nan
  | Some Lt => a
  | Some Gt => b
  | Some Eq => match a with S754_zero true => a | _ => b end
  end.

Definition Math_max (a b : spec_float) : spec_float :=
  match SFcompare a b with
  | None => S754_nan
  | Some Lt => b
  | Some Gt => a
  | Some Eq => match a with S754_zero false => a | _ => b end
  end.

(** Reading an element of a [Float32Array] yields the binary64 number with
    the same value: the binary32 significand is re-normalised to 53 bits. *)
Definition of_float32 (x : spec_float) : spec_float :=
  match x with
  | S754_finite s m e => binary_round prec emax s m e
  | _ => x
  end.

(** The integral part of a number, rounding towards zero; NaN, the zeros
    and the infinities give 0, as in ECMAScript's integer conversions. *)
Definition truncate (x : spec_float) : Z :=
  match x with
  | S754_finite s m e => cond_Zopp s (Z.shiftl (Zpos m) e)
  | _ => 0
  end.

(** ECMAScript [ToInt16]: truncate, reduce modulo 2^16, read as signed. *)
Definition ToInt16 (x : spec_float) : Z :=
  let int16bit := truncate x mod 65536 in
  if 32768 <=? int16bit then int16bit - 65536 else int16bit.

End Number.

Module DataView.

(** A view over an [ArrayBuffer]: the buffer is its list of bytes. *)
Abbreviation buffer := (list Z).

Definition ArrayBuffer (byteLength : nat) : buffer := repeat 0 byteLength.

(** [view.setInt16(byteOffset, value, true)]: two's complement,
    low byte first; a write past the end throws [RangeError]. *)
Definition setInt16_le (view : buffer) (byteOffset : nat) (value : spec_float)
  : Completion buffer :=
  if (byteOffset + 2 <=? length view)%nat then
    let raw := Number.ToInt16 value mod 65536 in
    Normal (<[S byteOffset := raw / 256]> (<[byteOffset := raw mod 256]> view))
  else Throw RangeError.

(** [view.getInt16(byteOffset, true)], used to read a wire block back. *)
Definition getInt16_le (view : buffer) (byteOffset : nat) : Z :=
  let raw := (view !!! byteOffset) + 256 * (view !!! S byteOffset) in
  if 32768 <=? raw then raw - 65536 else raw.

End DataView.

(** ** deepgram.ts: [float32ToLinear16] *)

Module Linear16.

(** The body of the [for] loop, for the sample [x = chunk[i]]. *)
Definition scaled_sample (x : spec_float) : spec_float :=
  let s := Number.of_float32 x in
  let s := Number.Math_max Number.minus_one (Number.Math_min Number.one s) in
  if Number.lt s Number.zero then Number.mul s Number.x8000
  else Number.mul s Number.x7fff.

(** The loop from index [i] on, over the samples not yet visited. *)
Fixpoint encode_from (rest : list spec_float) (i : nat) (view : DataView.buffer)
  : Completion DataView.buffer :=
  match rest with
  | [] => Normal view
  | x :: rest' =>
      match DataView.setInt16_le view (i * 2) (scaled_sample x) with
      | Normal view' => encode_from rest' (S i) view'
      | Throw e => Throw e
      end
  end.

Definition float32ToLinear16 (chunk : list spec_float)
  : Completion DataView.buffer :=
  encode_from chunk 0 (DataView.ArrayBuffer (length chunk * 2)).

End Linear16.

(** ** JavaScript strings and parsed JSON values *)

Module JS.

(** A string is its sequence of UTF-16 code units. *)
Abbreviation str := (list N).

Definition lit (s : string) : str :=
  map N_of_ascii (list_ascii_of_string s).

(** WhiteSpace and LineTerminator code points, as stripped by [trim]. *)
Definition is_white_space (c : N) : bool :=
  match c with
  | 9 | 10 | 11 | 12 | 13 | 32 | 160
  | 5760 | 8232 | 8233 | 8239 | 8287 | 12288 | 65279 => true
  | _ => ((8192 <=? c) && (c <=? 8202))%N
  end%N.

Fixpoint trimStart (s : str) : str :=
  match s with
  | c :: rest => if is_white_space c then trimStart rest else s
  | [] => []
  end.

Definition trimEnd (s : str) : str := rev (trimStart (rev s)).
Definition trim (s : str) : str := trimEnd (trimStart s).

#[local] Set Warnings "-register-all".

(** The value [JSON.parse] returns.  An object is the list of its own
    properties, each key once. *)
Inductive value : Type :=
| Null
| Bool (b : bool)
| Num (n : spec_float)
| Str (s : str)
| Arr (items : list value)
| Obj (props : list (str * value)).

(** [undefined] is the absence of a value. *)
Definition maybe : Type := option value.

Definition truthy (v : maybe) : bool :=
  match v with
  | None | Some Null => false
  | Some (Bool b) => b
  | Some (Num (S754_zero _)) | Some (Num S754_nan) => false
  | Some (Num _) => true
  | Some (Str s) => negb (bool_decide (s = []))
  | Some (Arr _) | Some (Obj _) => true
  end.

Fixpoint assoc (key : str) (props : list (str * value)) : maybe :=
  match props with
  | [] => None
  | (k, v) :: rest => if bool_decide (k = key) then Some v else assoc key rest
  end.

(** [v.key] for a key that is neither an index nor a built-in member of
    the primitive wrappers ([type], [channel], [alternatives],
    [transcript]): it throws on [null], and only an object can have it. *)
Definition get (v : value) (key : str) : Completion maybe :=
  match v with
  | Null => Throw TypeError
  | Obj props => Normal (assoc key props)
  | _ => Normal None
  end.

(** [v?.key] *)
Definition get_opt (v : maybe) (key : str) : maybe :=
  match v with
  | None | Some Null => None
  | Some (Obj props) => assoc key props
  | Some _ => None
  end.

(** [v?.[0]]: the first element of an array, the first code unit of a
    string, the property named 0 of an object. *)
Definition first_opt (v : maybe) : maybe :=
  match v with
  | None | Some Null => None
  | Some (Arr items) => head items
  | Some (Str s) => match s with [] => None | c :: _ => Some (Str [c]) end
  | Some (Obj props) => assoc (lit "0") props
  | Some _ => None
  end.

Section ToString.

(** [Number.prototype.toString] is left to the host. *)
Variable Number_toString : spec_float -> str.

Definition join_with (sep : str) (parts : list str) : str :=
  match parts with
  | [] => []
  | p :: rest => p ++ flat_map (fun q => sep ++ q) rest
  end.

(** [v.toString()] for a value that is not [null].  An array joins the
    strings of its elements, where [null] prints as the empty string.  A
    parsed object prints as [[object Object]], unless it has a property
    of its own named [toString]: that property is not a function, and
    the conversion throws. *)
Fixpoint toString (v : value) : Completion str :=
  match v with
  | Null => Normal []
  | Bool true => Normal (lit "true")
  | Bool false => Normal (lit "false")
  | Num n => Normal (Number_toString n)
  | Str s => Normal s
  | Arr items =>
      let fix each (vs : list value) : Completion (list str) :=
        match vs with
        | [] => Normal []
        | x :: rest =>
            match toString x, each rest with
            | Normal p, Normal ps => Normal (p :: ps)
            | Throw e, _ => Throw e
            | _, Throw e => Throw e
            end
        end in
      match each items with
      | Normal parts => Normal (join_with (lit ",") parts)
      | Throw e => Throw e
      end
  | Obj props =>
      match assoc (lit "toString") props with
      | Some _ => Throw TypeError
      | None => Normal (lit "[object Object]")
      end
  end.

End ToString.

End JS.

(** ** Browser objects: WebSockets and audio graphs *)

Module WS.

Inductive ReadyState : Type := CONNECTING | OPEN | CLOSING | CLOSED.

Inductive Frame : Type :=
| Binary (payload : DataView.buffer)
| Text (payload : JS.str).

(** What a socket has put on the wire, oldest first: the frames it
    transmitted and the start of its closing handshake. *)
Inductive WireEvent : Type :=
| Sent (f : Frame)
| CloseStarted.

Inductive PromiseState : Type := Pending | Fulfilled | Rejected.

(** A [WebSocket] object together with the promise that [connect] built
    around it (its [resolve] and [reject] are captured by the handlers). *)
Record WebSocket : Type := mk {
  url : JS.str;
  protocols : list JS.str;
  binaryType : JS.str;
  readyState : ReadyState;
  wire : list WireEvent;
  connectPromise : PromiseState
}.

Definition set_readyState (r : ReadyState) (ws : WebSocket) : WebSocket :=
  mk (url ws) (protocols ws) (binaryType ws) r (wire ws) (connectPromise ws).

Definition push_wire (e : WireEvent) (ws : WebSocket) : WebSocket :=
  mk (url ws) (protocols ws) (binaryType ws) (readyState ws) (wire ws ++ [e])
     (connectPromise ws).

Definition set_connectPromise (p : PromiseState) (ws : WebSocket) : WebSocket :=
  mk (url ws) (protocols ws) (binaryType ws) (readyState ws) (wire ws) p.

Definition is_open (r : ReadyState) : bool :=
  match r with OPEN => true | _ => false end.

(** [ws.send(data)]: throws while connecting, transmits when open, and
    discards the data silently once the socket is closing or closed. *)
Definition send (ws : WebSocket) (f : Frame) : Completion WebSocket :=
  match readyState ws with
  | CONNECTING => Throw InvalidStateError
  | OPEN => Normal (push_wire (Sent f) ws)
  | CLOSING | CLOSED => Normal ws
  end.

(** [ws.close()]: starts the closing handshake unless already under way. *)
Definition close (ws : WebSocket) : WebSocket :=
  match readyState ws with
  | CONNECTING | OPEN => set_readyState CLOSING (push_wire CloseStarted ws)
  | CLOSING | CLOSED => ws
  end.

(** What an index that names no socket reads as. *)
Definition gone : WebSocket := mk [] [] [] CLOSED [] Rejected.

(** The subprotocols the constructor accepts: each a token of HTTP (a
    non-empty string of printable ASCII characters other than the
    separators), none named twice.  For any other list
    [new WebSocket(url, protocols)] throws a [SyntaxError]. *)
Definition is_separator (c : N) : bool :=
  match c with
  | 9 | 32 | 34 | 40 | 41 | 44 | 47 | 58 | 59 | 60 | 61 | 62 | 63 | 64
  | 91 | 92 | 93 | 123 | 125 => true
  | _ => false
  end%N.

Definition is_token_char (c : N) : bool :=
  ((33 <=? c) && (c <=? 126))%N && negb (is_separator c).

Definition is_token (s : JS.str) : bool :=
  negb (bool_decide (s = [])) && forallb is_token_char s.

Definition acceptable (protocols : list JS.str) : bool :=
  forallb is_token protocols && bool_decide (NoDup protocols).

End WS.

#[export] Instance WebSocket_inhabited : Inhabited WS.WebSocket :=
  populate WS.gone.

Module Media.

(** One microphone acquisition: the [MediaStream] that [getUserMedia]
    delivered and the [AudioContext], source node and script processor
    built on it.  [sampleRate] is the rate the context actually runs at. *)
Record Graph : Type := mk {
  sampleRate : N;
  tracksLive : bool;
  contextClosed : bool;
  sourceConnected : bool;
  processorConnected : bool;
  onaudioprocess : bool
}.

Definition fresh (rate : N) : Graph := mk rate true false false false false.

Definition stop_tracks (g : Graph) : Graph :=
  mk (sampleRate g) false (contextClosed g) (sourceConnected g)
     (processorConnected g) (onaudioprocess g).

Definition close_context (g : Graph) : Graph :=
  mk (sampleRate g) (tracksLive g) true (sourceConnected g)
     (processorConnected g) (onaudioprocess g).

Definition set_sourceConnected (b : bool) (g : Graph) : Graph :=
  mk (sampleRate g) (tracksLive g) (contextClosed g) b
     (processorConnected g) (onaudioprocess g).

Definition set_processorConnected (b : bool) (g : Graph) : Graph :=
  mk (sampleRate g) (tracksLive g) (contextClosed g) (sourceConnected g)
     b (onaudioprocess g).

Definition set_onaudioprocess (b : bool) (g : Graph) : Graph :=
  mk (sampleRate g) (tracksLive g) (contextClosed g) (sourceConnected g)
     (processorConnected g) b.

(** The processor delivers blocks (of silence, if its input is gone)
    while its handler is installed, it is connected to the destination
    and its context runs. *)
Definition emitting (g : Graph) : bool :=
  onaudioprocess g && processorConnected g && negb (contextClosed g).

Definition gone : Graph := mk 0 false true false false false.

End Media.

#[export] Instance Graph_inhabited : Inhabited Media.Graph :=
  populate Media.gone.

(** ** The [URL] object of [connect] *)

Module URL.

Record t : Type := mk { href : JS.str; searchParams : list (JS.str * JS.str) }.

Definition new (href : JS.str) : t := mk href [].

(** [url.searchParams.set(name, value)]: overwrite the first pair of that
    name and drop the others, or append. *)
Fixpoint set_pairs (name value : JS.str) (ps : list (JS.str * JS.str))
  : list (JS.str * JS.str) :=
  match ps with
  | [] => [(name, value)]
  | (k, v) :: rest =>
      if bool_decide (k = name)
      then (name, value) :: filter (fun p => fst p <> name) rest
      else (k, v) :: set_pairs name value rest
  end.

Definition set (name value : JS.str) (u : t) : t :=
  mk (href u) (set_pairs name value (searchParams u)).

Definition pair_toString (p : JS.str * JS.str) : JS.str :=
  fst p ++ JS.lit "=" ++ snd p.

(** [url.toString()], for names and values that need no escaping. *)
Definition toString (u : t) : JS.str :=
  match searchParams u with
  | [] => href u
  | ps => href u ++ JS.lit "?" ++ JS.join_with (JS.lit "&") (map pair_toString ps)
  end.

End URL.

(** ** The program state and its method bodies *)

Module App.

Inductive StatusKind : Type := idle | listening | error.

(** Calls that leave the pipeline: the UI controller, the console, the
    microphone permission request, and exceptions nobody caught. *)
Inductive Effect : Type :=
| UiSetStatus (kind : StatusKind) (message : string)
| UiSetError (message : string)
| UiClearError
| UiAppendText (text : JS.str)
| ConsoleLog (what : string)
| ConsoleError (what : string)
| GetUserMedia
| Uncaught (e : Exn).

(** A call by which the program transmits or shuts something down:
    [send] and [close] on a socket; on the parts of an audio graph,
    [disconnect] on the processor and on the source, [stop] on the
    tracks of the stream and [close] on the context. *)
Inductive Call : Type :=
| Send (ws : nat) (f : WS.Frame)
| Close (ws : nat)
| DisconnectProcessor (g : nat)
| DisconnectSource (g : nat)
| StopTracks (g : nat)
| CloseContext (g : nat).

Record World : Type := mkWorld {
  (* the browser's objects *)
  sockets : list WS.WebSocket;
  graphs : list Media.Graph;
  micRequests : nat;
  (* DeepgramClient *)
  socket : option nat;
  (* AudioCapture *)
  mediaStream : option nat;
  audioContext : option nat;
  sourceNode : option nat;
  processorNode : option nat;
  (* the entry script's closure *)
  isHolding : bool;
  (* everything observed so far, oldest first *)
  trace : list Effect;
  (* the calls made so far, oldest first *)
  calls : list Call
}.

Definition set_sockets (x : list WS.WebSocket) (w : World) : World :=
  mkWorld x (graphs w) (micRequests w) (socket w) (mediaStream w)
    (audioContext w) (sourceNode w) (processorNode w) (isHolding w) (trace w) (calls w).

Definition set_graphs (x : list Media.Graph) (w : World) : World :=
  mkWorld (sockets w) x (micRequests w) (socket w) (mediaStream w)
    (audioContext w) (sourceNode w) (processorNode w) (isHolding w) (trace w) (calls w).

Definition set_micRequests (x : nat) (w : World) : World :=
  mkWorld (sockets w) (graphs w) x (socket w) (mediaStream w)
    (audioContext w) (sourceNode w) (processorNode w) (isHolding w) (trace w) (calls w).

Definition set_socket (x : option nat) (w : World) : World :=
  mkWorld (sockets w) (graphs w) (micRequests w) x (mediaStream w)
    (audioContext w) (sourceNode w) (processorNode w) (isHolding w) (trace w) (calls w).

Definition set_mediaStream (x : option nat) (w : World) : World :=
  mkWorld (sockets w) (graphs w) (micRequests w) (socket w) x
    (audioContext w) (sourceNode w) (processorNode w) (isHolding w) (trace w) (calls w).

Definition set_audioContext (x : option nat) (w : World) : World :=
  mkWorld (sockets w) (graphs w) (micRequests w) (socket w) (mediaStream w)
    x (sourceNode w) (processorNode w) (isHolding w) (trace w) (calls w).

Definition set_sourceNode (x : option nat) (w : World) : World :=
  mkWorld (sockets w) (graphs w) (micRequests w) (socket w) (mediaStream w)
    (audioContext w) x (processorNode w) (isHolding w) (trace w) (calls w).

Definition set_processorNode (x : option nat) (w : World) : World :=
  mkWorld (sockets w) (graphs w) (micRequests w) (socket w) (mediaStream w)
    (audioContext w) (sourceNode w) x (isHolding w) (trace w) (calls w).

Definition set_isHolding (x : bool) (w : World) : World :=
  mkWorld (sockets w) (graphs w) (micRequests w) (socket w) (mediaStream w)
    (audioContext w) (sourceNode w) (processorNode w) x (trace w) (calls w).

Definition set_trace (x : list Effect) (w : World) : World :=
  mkWorld (sockets w) (graphs w) (micRequests w) (socket w) (mediaStream w)
    (audioContext w) (sourceNode w) (processorNode w) (isHolding w) x (calls w).

Definition set_calls (x : list Call) (w : World) : World :=
  mkWorld (sockets w) (graphs w) (micRequests w) (socket w) (mediaStream w)
    (audioContext w) (sourceNode w) (processorNode w) (isHolding w) (trace w) x.

(** The state when [DOMContentLoaded] has run: nothing allocated, every
    handle null, not holding. *)
Definition initial : World :=
  mkWorld [] [] 0 None None None None None false [UiSetStatus idle "Idle"] [].

(** *** Method bodies *)

Definition M (A : Type) : Type := World -> Completion A * World.

Definition ret {A} (a : A) : M A := fun w => (Normal a, w).

Definition bind {A B} (m : M A) (k : A -> M B) : M B :=
  fun w =>
    match m w with
    | (Normal a, w') => k a w'
    | (Throw e, w') => (Throw e, w')
    end.

Definition throw {A} (e : Exn) : M A := fun w => (Throw e, w).

(** [try { body } catch (err) { handler }] *)
Definition try_catch {A} (body : M A) (handler : Exn -> M A) : M A :=
  fun w =>
    match body w with
    | (Throw e, w') => handler e w'
    | done => done
    end.

Definition gets {A} (f : World -> A) : M A := fun w => (Normal (f w), w).

Definition modify (f : World -> World) : M unit := fun w => (Normal tt, f w).

Definition lift {A} (c : Completion A) : M A := fun w => (c, w).

Declare Scope js_scope.
Delimit Scope js_scope with js.
Bind Scope js_scope with M.

Notation "x <- m ;; k" := (bind m (fun x => k))
  (at level 100, m at next level, right associativity) : js_scope.
Notation "m ;; k" := (bind m (fun _ => k))
  (at level 100, right associativity) : js_scope.

Local Open Scope js_scope.

(** Using a handle: a member access through [null] throws. *)
Definition deref {A} (h : option A) : M A :=
  match h with
  | Some x => ret x
  | None => throw TypeError
  end.

(** [if (h)] and [!h] on a handle. *)
Definition non_null {A} (h : option A) : bool :=
  match h with Some _ => true | None => false end.

Definition emit (e : Effect) : M unit :=
  modify (fun w => set_trace (trace w ++ [e]) w).

Definition call (c : Call) : M unit :=
  modify (fun w => set_calls (calls w ++ [c]) w).

(** *** Operations on the stored browser objects *)

Definition the_socket (w : World) (id : nat) : WS.WebSocket := sockets w !!! id.

Definition update_socket (id : nat) (f : WS.WebSocket -> WS.WebSocket) : M unit :=
  modify (fun w => set_sockets (<[id := f (the_socket w id)]> (sockets w)) w).

Definition ws_readyState (id : nat) : M WS.ReadyState :=
  gets (fun w => WS.readyState (the_socket w id)).

Definition ws_send (id : nat) (f : WS.Frame) : M unit :=
  call (Send id f) ;;
  ws <- gets (fun w => the_socket w id) ;;
  ws' <- lift (WS.send ws f) ;;
  update_socket id (fun _ => ws').

Definition ws_close (id : nat) : M unit :=
  call (Close id) ;;
  update_socket id WS.close.

(** [new WebSocket(url, protocols)] followed by the [binaryType]
    assignment: the constructor throws for a list of subprotocols it
    does not accept (the URL of [connect] is a well-formed [wss] URL);
    otherwise the new object is stored at the next free index. *)
Definition new_WebSocket (url : JS.str) (protocols : list JS.str) : M nat :=
  if WS.acceptable protocols then
    id <- gets (fun w => length (sockets w)) ;;
    modify (fun w =>
      set_sockets (sockets w ++
        [WS.mk url protocols (JS.lit "arraybuffer") WS.CONNECTING [] WS.Pending]) w) ;;
    ret id
  else throw SyntaxError.

(** Settling the promise of [connect]; the result tells whether this call
    settled it, so that the awaiting continuation runs exactly once. *)
Definition settle (id : nat) (outcome : WS.PromiseState) : M bool :=
  p <- gets (fun w => WS.connectPromise (the_socket w id)) ;;
  match p with
  | WS.Pending => update_socket id (WS.set_connectPromise outcome) ;; ret true
  | _ => ret false
  end.

Definition the_graph (w : World) (g : nat) : Media.Graph := graphs w !!! g.

Definition update_graph (g : nat) (f : Media.Graph -> Media.Graph) : M unit :=
  modify (fun w => set_graphs (<[g := f (the_graph w g)]> (graphs w)) w).

Definition new_graph (rate : N) : M nat :=
  g <- gets (fun w => length (graphs w)) ;;
  modify (fun w => set_graphs (graphs w ++ [Media.fresh rate]) w) ;;
  ret g.

(** *** The UI controller, seen from the pipeline *)

Definition ui_setStatus (kind : StatusKind) (message : string) : M unit :=
  emit (UiSetStatus kind message).
Definition ui_setError (message : string) : M unit := emit (UiSetError message).
Definition ui_clearError : M unit := emit UiClearError.
Definition ui_appendText (text : JS.str) : M unit := emit (UiAppendText text).
Definition console_log (what : string) : M unit := emit (ConsoleLog what).
Definition console_error (what : string) : M unit := emit (ConsoleError what).

(** The two callbacks the entry script hands to [DeepgramClient]. *)
Definition onTranscript (text : JS.str) : M unit := ui_appendText text.

Definition onError (message : string) : M unit :=
  ui_setError message ;;
  ui_setStatus error "Deepgram error".

(** *** deepgram.ts: [DeepgramClient] *)

Section Host.

(** What the host supplies: the credential read at start-up, and the
    built-ins [JSON.parse] ([None] when it throws a [SyntaxError]),
    [String.prototype.toLowerCase] and [Number.prototype.toString]. *)
Variable apiKey : JS.str.
Variable JSON_parse : JS.str -> option JS.value.
Variable toLowerCase : JS.str -> JS.str.
Variable Number_toString : spec_float -> JS.str.

(** [get isConnected()] *)
Definition isConnected : M bool :=
  s <- gets socket ;;
  match s with
  | None => ret false
  | Some id => r <- ws_readyState id ;; ret (WS.is_open r)
  end.

(** The URL built at the top of [connect]. *)
Definition listen_url : URL.t :=
  let url := URL.new (JS.lit "wss://api.deepgram.com/v1/listen") in
  let url := URL.set (JS.lit "encoding") (JS.lit "linear16") url in
  let url := URL.set (JS.lit "sample_rate") (JS.lit "16000") url in
  let url := URL.set (JS.lit "channels") (JS.lit "1") url in
  let url := URL.set (JS.lit "language") (JS.lit "en-US") url in
  let url := URL.set (JS.lit "punctuate") (JS.lit "true") url in
  let url := URL.set (JS.lit "interim_results") (JS.lit "true") url in
  url.

(** [connect()] up to the point where its promise is returned: either
    already fulfilled (the early return), or pending on a new socket,
    or already rejected, when the constructor threw inside the executor
    of the promise: the call then throws here. *)
Inductive Connecting : Type :=
| AlreadyConnected
| Opening (ws : nat).

Definition connect : M Connecting :=
  c <- isConnected ;;
  if c then ret AlreadyConnected
  else
    let url := listen_url in
    console_log "[Deepgram] Connecting to:" ;;
    ws <- new_WebSocket (URL.toString url) [JS.lit "token"; apiKey] ;;
    ret (Opening ws).

(** [ws.onopen]; the result is that of [resolve()]. *)
Definition ws_onopen (ws : nat) : M bool :=
  console_log "[Deepgram] WebSocket open" ;;
  modify (set_socket (Some ws)) ;;
  settle ws WS.Fulfilled.

(** [ws.onerror]; the result is that of [reject(...)]. *)
Definition ws_onerror (ws : nat) : M bool :=
  console_error "[Deepgram] WebSocket error" ;;
  onError "Deepgram WebSocket error." ;;
  settle ws WS.Rejected.

(** [ws.onclose] *)
Definition ws_onclose (ws : nat) : M unit :=
  console_log "[Deepgram] WebSocket closed" ;;
  modify (set_socket None).

(** [event.data]: text for a text frame, an [ArrayBuffer] for a binary
    one; [JSON.parse] first converts its argument to a string. *)
Inductive MessageData : Type :=
| TextData (s : JS.str)
| BinaryData (b : DataView.buffer).

Definition data_toString (d : MessageData) : JS.str :=
  match d with
  | TextData s => s
  | BinaryData _ => JS.lit "[object ArrayBuffer]"
  end.

(** [(data.type || "").toString()] *)
Definition message_type (data : JS.value) : Completion JS.str :=
  match JS.get data (JS.lit "type") with
  | Throw e => Throw e
  | Normal t =>
      if JS.truthy t
      then match t with
           | Some v => JS.toString Number_toString v
           | None => Normal []
           end
      else Normal []
  end.

(** [data.channel?.alternatives?.[0]] followed by [alt?.transcript] *)
Definition first_transcript (data : JS.value) : Completion JS.maybe :=
  match JS.get data (JS.lit "channel") with
  | Throw e => Throw e
  | Normal channel =>
      let alt := JS.first_opt (JS.get_opt channel (JS.lit "alternatives")) in
      Normal (JS.get_opt alt (JS.lit "transcript"))
  end.

(** [transcript.trim()]: only a string has the method. *)
Definition call_trim (transcript : JS.maybe) : M JS.str :=
  match transcript with
  | Some (JS.Str s) => ret (JS.trim s)
  | _ => throw TypeError
  end.

(** [ws.onmessage] *)
Definition ws_onmessage (event_data : MessageData) : M unit :=
  try_catch
    (let raw := data_toString event_data in
     data <- match JSON_parse raw with
             | Some v => ret v
             | None => throw SyntaxError
             end ;;
     console_log "[Deepgram] message:" ;;
     type <- lift (message_type data) ;;
     if bool_decide (toLowerCase type = JS.lit "results") then
       transcript <- lift (first_transcript data) ;;
       console_log "[Deepgram] alt:" ;;
       console_log "[Deepgram] transcript field:" ;;
       if JS.truthy transcript then
         trimmed <- call_trim transcript ;;
         if (0 <? length trimmed)%nat then
           (* [trim] was callable, so [transcript] is a string *)
           match transcript with
           | Some (JS.Str text) => onTranscript text
           | _ => ret tt
           end
         else ret tt
       else ret tt
     else ret tt)
    (fun err => console_error "Failed to parse Deepgram message").

(** [sendAudioChunk(chunk)] *)
Definition sendAudioChunk (chunk : list spec_float) : M unit :=
  c <- isConnected ;;
  s <- gets socket ;;
  if negb c || negb (non_null s) then ret tt
  else
    buffer <- lift (Linear16.float32ToLinear16 chunk) ;;
    ws <- deref s ;;
    ws_send ws (WS.Binary buffer).

(** [JSON.stringify({ type: "Finalize" })] *)
Definition Finalize_message : JS.str :=
  JS.lit "{" ++ [34%N] ++ JS.lit "type" ++ [34%N] ++ JS.lit ":"
  ++ [34%N] ++ JS.lit "Finalize" ++ [34%N] ++ JS.lit "}".

(** [finalizeAndClose()]; it contains no [await], so it runs to its end
    within the call. *)
Definition finalizeAndClose : M unit :=
  s <- gets socket ;;
  if negb (non_null s) then ret tt
  else
    try_catch
      (ws <- deref s ;;
       ws_send ws (WS.Text Finalize_message))
      (fun err => console_error "Error sending Finalize message") ;;
    s <- gets socket ;;
    ws <- deref s ;;
    ws_close ws ;;
    modify (set_socket None).

End Host.

(** *** audio.ts: [AudioCapture] *)

(** [get isActive()] *)
Definition isActive : M bool :=
  ctx <- gets audioContext ;;
  ret (non_null ctx).

(** [start()] up to its [await]: either the early return, or a pending
    [getUserMedia] request. *)
Inductive Starting : Type :=
| AlreadyActive
| AwaitingMicrophone.

Definition start : M Starting :=
  active <- isActive ;;
  if active then ret AlreadyActive
  else
    emit GetUserMedia ;;
    modify (fun w => set_micRequests (S (micRequests w)) w) ;;
    ret AwaitingMicrophone.

(** The rest of [start()], run when [getUserMedia] has delivered a
    stream.  [rate] is the sample rate the new [AudioContext] runs at;
    16000 is only what the constructor is asked for. *)
Definition start_resumed (rate : N) : M unit :=
  stream <- new_graph rate ;;
  modify (set_mediaStream (Some stream)) ;;
  modify (set_audioContext (Some stream)) ;;
  h <- gets audioContext ;;
  ctx <- deref h ;;
  modify (set_sourceNode (Some ctx)) ;;
  h <- gets audioContext ;;
  ctx <- deref h ;;
  modify (set_processorNode (Some ctx)) ;;
  h <- gets processorNode ;;
  node <- deref h ;;
  update_graph node (Media.set_onaudioprocess true) ;;
  h <- gets sourceNode ;;
  node <- deref h ;;
  update_graph node (Media.set_sourceConnected true) ;;
  h <- gets processorNode ;;
  node <- deref h ;;
  update_graph node (Media.set_processorConnected true).

(** [audioContext.close().catch(...)]: closing a context that is already
    closed rejects, and the rejection is logged. *)
Definition context_close (ctx : nat) : M unit :=
  call (CloseContext ctx) ;;
  closed <- gets (fun w => Media.contextClosed (the_graph w ctx)) ;;
  if closed then console_error "Error closing audio context"
  else update_graph ctx Media.close_context.

(** [stop()] *)
Definition stop : M unit :=
  h <- gets processorNode ;;
  (if non_null h then
     node <- deref h ;;
     call (DisconnectProcessor node) ;;
     update_graph node (Media.set_processorConnected false) ;;
     node <- deref h ;;
     update_graph node (Media.set_onaudioprocess false)
   else ret tt) ;;
  h <- gets sourceNode ;;
  (if non_null h then
     node <- deref h ;;
     call (DisconnectSource node) ;;
     update_graph node (Media.set_sourceConnected false)
   else ret tt) ;;
  h <- gets mediaStream ;;
  (if non_null h then
     stream <- deref h ;;
     call (StopTracks stream) ;;
     update_graph stream Media.stop_tracks
   else ret tt) ;;
  h <- gets audioContext ;;
  (if non_null h then
     ctx <- deref h ;;
     context_close ctx
   else ret tt) ;;
  modify (set_mediaStream None) ;;
  modify (set_audioContext None) ;;
  modify (set_sourceNode None) ;;
  modify (set_processorNode None).

(** *** The entry script: push-to-talk *)

(** The chunk handler given to [AudioCapture], and the processor's
    [onaudioprocess], which copies the block and passes it on. *)
Definition onChunk (chunk : list spec_float) : M unit := sendAudioChunk chunk.

Definition onaudioprocess (channelData : list spec_float) : M unit :=
  let chunk := channelData in
  onChunk chunk.

(** A call that is not awaited ([void f()]): a failure inside it is an
    unhandled rejection and does not reach the caller. *)
Definition detached (m : M unit) : M unit :=
  try_catch m (fun e => emit (Uncaught e)).

Section Main.

Variable apiKey : JS.str.
Variable JSON_parse : JS.str -> option JS.value.
Variable toLowerCase : JS.str -> JS.str.
Variable Number_toString : spec_float -> JS.str.

(** [startPushToTalk] is cut at its two [await]s.  The last piece: *)
Definition startPushToTalk_listening : M unit :=
  ui_setStatus listening "Listening – streaming audio to Deepgram.".

(** The [catch] of the second [try]: the microphone was refused. *)
Definition startPushToTalk_microphone_failed : M unit :=
  console_error "Microphone error" ;;
  modify (set_isHolding false) ;;
  finalizeAndClose ;;
  ui_setError
    "Failed to access microphone. Check permissions and that a recording device is available." ;;
  ui_setStatus error "Microphone error".

(** After [await deepgram.connect()] has returned: the second [try]. *)
Definition startPushToTalk_connected : M unit :=
  r <- start ;;
  match r with
  | AlreadyActive => startPushToTalk_listening
  | AwaitingMicrophone => ret tt
  end.

(** The [catch] of the first [try]: the connection was refused. *)
Definition startPushToTalk_connect_failed : M unit :=
  console_error "Deepgram connection error" ;;
  modify (set_isHolding false) ;;
  ui_setError "Failed to connect to Deepgram. Check API key and internet." ;;
  ui_setStatus error "Deepgram connection error".

(** The first [try] holds [await deepgram.connect()] alone: when the
    promise is already rejected its [catch] runs within the task, and
    the function returns. *)
Definition startPushToTalk : M unit :=
  holding <- gets isHolding ;;
  if holding then ret tt
  else
    modify (set_isHolding true) ;;
    ui_clearError ;;
    ui_setStatus listening "Connecting to Deepgram and microphone..." ;;
    r <- try_catch (c <- connect apiKey ;; ret (Some c))
           (fun err => startPushToTalk_connect_failed ;; ret None) ;;
    match r with
    | Some AlreadyConnected => startPushToTalk_connected
    | Some (Opening _) => ret tt
    | None => ret tt
    end.

Definition stopPushToTalk : M unit :=
  holding <- gets isHolding ;;
  if negb holding then ret tt
  else
    modify (set_isHolding false) ;;
    stop ;;
    detached finalizeAndClose ;;
    ui_setStatus idle "Idle".

(** *** The event loop *)

(** One task of the event loop.  [Activate] is a [mousedown] or a
    [keydown] of Space or Enter on the button; [Deactivate] is a
    [mouseup], [mouseleave] or the matching [keyup].  The others come
    from the network, the permission prompt and the audio device. *)
Inductive Event : Type :=
| Activate
| Deactivate
| WsOpened (ws : nat)
| WsClosing (ws : nat)
| WsClosed (ws : nat) (failed : bool)
| WsMessage (ws : nat) (data : MessageData)
| MicGranted (rate : N)
| MicDenied
| AudioProcess (g : nat) (channelData : list spec_float).

Definition exists_socket (w : World) (ws : nat) : bool :=
  (ws <? length (sockets w))%nat.

(** When the browser can deliver the event. *)
Definition enabled (ev : Event) (w : World) : bool :=
  match ev with
  | Activate | Deactivate => true
  | WsOpened ws =>
      exists_socket w ws &&
      match WS.readyState (the_socket w ws) with WS.CONNECTING => true | _ => false end
  | WsClosing ws =>
      exists_socket w ws &&
      match WS.readyState (the_socket w ws) with WS.OPEN => true | _ => false end
  | WsClosed ws _ =>
      exists_socket w ws &&
      match WS.readyState (the_socket w ws) with WS.CLOSED => false | _ => true end
  | WsMessage ws _ =>
      exists_socket w ws &&
      match WS.readyState (the_socket w ws) with
      | WS.OPEN | WS.CLOSING => true
      | _ => false
      end
  | MicGranted _ | MicDenied => (0 <? micRequests w)%nat
  | AudioProcess g _ =>
      (g <? length (graphs w))%nat && Media.emitting (the_graph w g)
  end.

(** What runs in the task, continuations of settled promises included:
    a closed connection fires [error] (if it failed) and then [close]. *)
Definition react (ev : Event) : M unit :=
  match ev with
  | Activate => startPushToTalk
  | Deactivate => stopPushToTalk
  | WsOpened ws =>
      update_socket ws (WS.set_readyState WS.OPEN) ;;
      fulfilled <- ws_onopen ws ;;
      if fulfilled then startPushToTalk_connected else ret tt
  | WsClosing ws => update_socket ws (WS.set_readyState WS.CLOSING)
  | WsClosed ws failed =>
      update_socket ws (WS.set_readyState WS.CLOSED) ;;
      (if failed then
         rejected <- ws_onerror ws ;;
         if rejected then startPushToTalk_connect_failed else ret tt
       else ret tt) ;;
      ws_onclose ws
  | WsMessage ws data => ws_onmessage JSON_parse toLowerCase Number_toString data
  | MicGranted rate =>
      modify (fun w => set_micRequests (pred (micRequests w)) w) ;;
      start_resumed rate ;;
      startPushToTalk_listening
  | MicDenied =>
      modify (fun w => set_micRequests (pred (micRequests w)) w) ;;
      startPushToTalk_microphone_failed
  | AudioProcess g channelData => onaudioprocess channelData
  end.

(** A task that ends by throwing leaves an uncaught exception behind. *)
Definition run_task (m : M unit) (w : World) : World :=
  match m w with
  | (Normal _, w') => w'
  | (Throw e, w') => set_trace (trace w' ++ [Uncaught e]) w'
  end.

Definition step (ev : Event) (w : World) : option World :=
  if enabled ev w then Some (run_task (react ev) w) else None.

Fixpoint run (evs : list Event) (w : World) : option World :=
  match evs with
  | [] => Some w
  | ev :: rest =>
      match step ev w with
      | Some w' => run rest w'
      | None => None
      end
  end.

Inductive reachable : World -> Prop :=
| reachable_initial : reachable initial
| reachable_step (w w' : World) (ev : Event) :
    reachable w -> step ev w = Some w' -> reachable w'.

End Main.

End App.

(** * The encoder as the specification words it, on exact rationals *)

Module PCM.

(** A sample stored in a [Float32Array] is a binary32 value. *)
Definition float32 (x : spec_float) : Prop := valid_binary 24 128 x = true.

(** It has a value when it is a zero or a finite number. *)
Definition finite (x : spec_float) : Prop :=
  match x with
  | S754_zero _ | S754_finite _ _ _ => True
  | _ => False
  end.

(** The rational a sample denotes: [(-1)^s * m * 2^e]. *)
Definition value (x : spec_float) : Q :=
  match x with
  | S754_finite s m e =>
      match e with
      | Zneg p => cond_Zopp s (Zpos m) # 2 ^ p
      | _ => inject_Z (cond_Zopp s (Zpos m) * 2 ^ e)
      end
  | _ => 0
  end.

(** Clamp to [-1, 1]. *)
Definition clamp (v : Q) : Q :=
  if Qlt_le_dec v (-1) then -1 else if Qlt_le_dec 1 v then 1 else v.

(** The clamped sample; an infinity clamps to the bound on its side. *)
Definition clamped (x : spec_float) : Q :=
  match x with
  | S754_infinity s => if s then -1 else 1
  | _ => clamp (value x)
  end.

(** Asymmetric scaling: by 32768 below zero, by 32767 from zero up. *)
Definition scaled (c : Q) : Q :=
  if Qlt_le_dec c 0 then c * 32768 else c * 32767.

(** The integer part of a rational, towards zero. *)
Definition Qtruncate (q : Q) : Z := Z.quot (Qnum q) (Zpos (Qden q)).

Definition quantized (x : spec_float) : Z := Qtruncate (scaled (clamped x)).

(** The inverse of the scaling: from a 16-bit integer back to a sample. *)
Definition decode (k : Z) : Q := if k <? 0 then k # 32768 else k # 32767.

Definition is_byte (b : Z) : Prop := 0 <= b < 256.

(** A normal binary64 number [m * 2^e] of magnitude at most one:
    below [2^52 * 2^-52], or equal to it. *)
Definition in_unit (m : positive) (e : Z) : bool :=
  (e <? -52) || ((e =? -52) && (Zpos m =? 2 ^ 52)).

End PCM.

(** * Session states and observations used in the statements *)

Module Session.

Import App.

(** The session is Streaming when the client holds a socket and that
    socket is open: the test [isConnected] makes. *)
Definition streaming (w : World) : bool :=
  match socket w with
  | Some ws => WS.is_open (WS.readyState (the_socket w ws))
  | None => false
  end.

(** A handshake is pending on socket [ws]: [connect] created it and its
    promise is not settled. *)
Definition connecting (w : World) (ws : nat) : bool :=
  match sockets w !! ws with
  | Some s =>
      match WS.readyState s, WS.connectPromise s with
      | WS.CONNECTING, WS.Pending => true
      | _, _ => false
      end
  | None => false
  end.

(** The world with [new] appended to the calls made. *)
Definition called (new : list Call) (w : World) : World :=
  set_calls (calls w ++ new) w.

(** The world in which socket [ws] was given one more frame and has
    transmitted it. *)
Definition transmitted (ws : nat) (f : WS.Frame) (w : World) : World :=
  set_sockets (<[ws := WS.push_wire (WS.Sent f) (the_socket w ws)]> (sockets w))
    (called [Send ws f] w).

(** The close of socket [ws] has been asked for, or has happened. *)
Definition closing_or_closed (w : World) (ws : nat) : Prop :=
  WS.readyState (the_socket w ws) = WS.CLOSING \/
  WS.readyState (the_socket w ws) = WS.CLOSED.

(** A session is live from the creation of its socket until the
    transport reaches Closed. *)
Definition live (s : WS.WebSocket) : Prop := WS.readyState s <> WS.CLOSED.

Definition at_most_one_session (w : World) : Prop :=
  forall i j si sj,
    sockets w !! i = Some si -> sockets w !! j = Some sj ->
    live si -> live sj -> i = j.

Definition is_audio (e : WS.WireEvent) : Prop :=
  exists payload, e = WS.Sent (WS.Binary payload).

Definition Finalize : WS.WireEvent := WS.Sent (WS.Text Finalize_message).

(** What a socket may have put on the wire: audio frames only, or audio
    frames, then Finalize, then the close, and nothing after. *)
Definition wire_in_order (l : list WS.WireEvent) : Prop :=
  exists audio,
    Forall is_audio audio /\
    (l = audio \/ l = audio ++ [Finalize; WS.CloseStarted]).

(** The texts handed to the transcript sink, oldest first. *)
Fixpoint sink_calls (tr : list Effect) : list JS.str :=
  match tr with
  | [] => []
  | UiAppendText text :: rest => text :: sink_calls rest
  | _ :: rest => sink_calls rest
  end.

(** The four handles of [AudioCapture] are null. *)
Definition released (w : World) : Prop :=
  mediaStream w = None /\ audioContext w = None /\
  sourceNode w = None /\ processorNode w = None.

(** Decimal notation of a sample rate, as it would appear in a URL. *)
Definition decimal (n : N) : JS.str :=
  JS.lit (NilEmpty.string_of_uint (N.to_uint n)).

(** The handshake URL that carries [rate] as its [sample_rate]. *)
Definition url_with_rate (rate : N) : JS.str :=
  URL.toString (URL.set (JS.lit "sample_rate") (decimal rate) listen_url).

(** The world with [new] appended to what has been observed. *)
Definition observed (new : list Effect) (w : World) : World :=
  set_trace (trace w ++ new) w.

(** The world after [finalizeAndClose], written out. *)
Definition finalized (w : World) : World :=
  match socket w with
  | None => w
  | Some ws =>
      let w0 := called [Send ws (WS.Text Finalize_message); Close ws] w in
      match WS.readyState (the_socket w ws) with
      | WS.CONNECTING =>
          set_socket None
            (set_sockets (<[ws := WS.close (the_socket w ws)]> (sockets w))
               (observed [ConsoleError "Error sending Finalize message"] w0))
      | WS.OPEN =>
          set_socket None
            (set_sockets
               (<[ws := WS.close (WS.push_wire Finalize (the_socket w ws))]>
                  (sockets w)) w0)
      | WS.CLOSING | WS.CLOSED => set_socket None w0
      end
  end.

(** The world after a [connect] that opened a new socket. *)
Definition opened (apiKey : JS.str) (w : World) : World :=
  set_sockets
    (sockets w ++
       [WS.mk (URL.toString listen_url) [JS.lit "token"; apiKey]
          (JS.lit "arraybuffer") WS.CONNECTING [] WS.Pending])
    (observed [ConsoleLog "[Deepgram] Connecting to:"] w).

(** What holds of the sockets and of the client's handle in every
    reachable state. *)
Record net_inv (ss : list WS.WebSocket) (so : option nat) : Prop := {
  held_is_opened : forall ws, so = Some ws ->
    exists s, ss !! ws = Some s /\ WS.readyState s <> WS.CONNECTING /\
              Forall is_audio (WS.wire s);
  wires_in_order : forall ws s, ss !! ws = Some s -> wire_in_order (WS.wire s);
  connecting_is_silent : forall ws s, ss !! ws = Some s ->
    WS.readyState s = WS.CONNECTING -> WS.wire s = [];
  handshake_fixed : forall ws s, ss !! ws = Some s ->
    WS.url s = URL.toString listen_url
}.

Definition inv (w : World) : Prop := net_inv (sockets w) (socket w).

(** [m] returns normally and changes neither the sockets, nor the
    client's handle, nor the holding flag. *)
Definition quiet {A} (m : M A) : Prop :=
  forall w, exists a w',
    m w = (Normal a, w') /\
    sockets w' = sockets w /\ socket w' = socket w /\ isHolding w' = isHolding w.

(** [m] returns normally and keeps the invariant. *)
Definition steady {A} (m : M A) : Prop :=
  forall w, inv w -> exists a w', m w = (Normal a, w') /\ inv w'.

End Session.

(** * The page: the UI controller and the listeners of the entry script *)

#[export] Instance string_eq_dec : EqDecision string := string_dec.

Module Ui.

Import App.

(** The three elements [UiController] holds, as far as the script reads
    or writes them, and the lines written to the console.  The
    transcript is a string of code units; the status and error texts
    are literals of the source. *)
Record View : Type := mkView {
  transcript_textContent : JS.str;
  transcript_scrollTop : N;
  status_textContent : string;
  status_classList : list string;
  error_textContent : string;
  console : list string
}.

Definition set_transcript (text : JS.str) (top : N) (v : View) : View :=
  mkView text top (status_textContent v) (status_classList v)
    (error_textContent v) (console v).

Definition set_status (text : string) (classes : list string) (v : View) : View :=
  mkView (transcript_textContent v) (transcript_scrollTop v) text classes
    (error_textContent v) (console v).

Definition set_error (text : string) (v : View) : View :=
  mkView (transcript_textContent v) (transcript_scrollTop v)
    (status_textContent v) (status_classList v) text (console v).

Definition log (line : string) (v : View) : View :=
  mkView (transcript_textContent v) (transcript_scrollTop v)
    (status_textContent v) (status_classList v) (error_textContent v)
    (console v ++ [line]).

(** [classList.remove(...tokens)] and [classList.add(token)] *)
Definition classList_remove (tokens classes : list string) : list string :=
  filter (fun c => c ∉ tokens) classes.

Definition classList_add (token : string) (classes : list string) : list string :=
  if bool_decide (token ∈ classes) then classes else classes ++ [token].

(** A [StatusKind] is the string that names it. *)
Definition class_of (kind : StatusKind) : string :=
  match kind with
  | idle => "idle"
  | listening => "listening"
  | error => "error"
  end.

(** [current.endsWith("\n")] *)
Definition endsWith_newline (s : JS.str) : bool :=
  match last s with
  | Some c => (c =? 10)%N
  | None => false
  end.

Section Layout.

(** The height of the transcript box for a given content is the
    browser's business. *)
Variable scrollHeight : JS.str -> N.

(** [setStatus(kind, message)] *)
Definition setStatus (kind : StatusKind) (message : string) (v : View) : View :=
  set_status message
    (classList_add (class_of kind)
       (classList_remove ["idle"; "listening"; "error"]%string (status_classList v)))
    v.

(** [appendText(text)] *)
Definition appendText (text : JS.str) (v : View) : View :=
  if bool_decide (text = []) then v
  else
    let v := log "[UI] appending text:" v in
    let current := transcript_textContent v in
    let separator :=
      if endsWith_newline current || (length current =? 0)%nat then []
      else JS.lit " " in
    let v := set_transcript (current ++ separator ++ text) (transcript_scrollTop v) v in
    set_transcript (transcript_textContent v)
      (scrollHeight (transcript_textContent v)) v.

(** [clearTranscript()]: an empty box has nothing to scroll. *)
Definition clearTranscript (v : View) : View := set_transcript [] 0 v.

(** [setError(message)] and [clearError()] *)
Definition setError (message : string) (v : View) : View := set_error message v.

Definition clearError (v : View) : View := set_error "" v.

(** [getTranscript()] *)
Definition getTranscript (v : View) : JS.str := transcript_textContent v.

(** What a call recorded by the pipeline does to the page. *)
Definition perform (e : Effect) (v : View) : View :=
  match e with
  | UiSetStatus kind message => setStatus kind message v
  | UiSetError message => setError message v
  | UiClearError => clearError v
  | UiAppendText text => appendText text v
  | ConsoleLog what | ConsoleError what => log what v
  | GetUserMedia | Uncaught _ => v
  end.

Definition render (calls : list Effect) (v : View) : View :=
  fold_left (fun v e => perform e v) calls v.

End Layout.

(** The document the script finds: the elements it looks up by id, each
    present or not. *)
Record Document : Type := mkDocument {
  transcript : option (JS.str * N);
  status_text : option (string * list string);
  error_text : option string;
  ptt_button : bool;
  copy_button : bool;
  clear_button : bool
}.

(** [new UiController()]: throws when one of its elements is missing. *)
Definition UiController (doc : Document) : option View :=
  match transcript doc, status_text doc, error_text doc with
  | Some (text, top), Some (status, classes), Some err =>
      Some (mkView text top status classes err [])
  | _, _, _ => None
  end.

(** What the transcript box reads after [appendText(text)], given what
    it read before. *)
Definition appended (current text : JS.str) : JS.str :=
  if bool_decide (text = []) then current
  else current ++
       (if endsWith_newline current || (length current =? 0)%nat then []
        else JS.lit " ") ++ text.

(** A string of white space only, the empty string included. *)
Definition blank (s : JS.str) : Prop :=
  Forall (fun c => JS.is_white_space c = true) s.

(** The status element carries the class of [kind] and of no other kind. *)
Definition shows (kind : StatusKind) (v : View) : Prop :=
  forall k, class_of k ∈ status_classList v <-> k = kind.

End Ui.

Module Page.

Import App.

(** What the [DOMContentLoaded] listener leaves behind when it has
    installed its listeners: the client and the capture with the
    holding flag, the page, the two optional buttons, and the clipboard
    with the [writeText] calls that have not settled yet. *)
Record t : Type := mk {
  apiKey : JS.str;
  world : World;
  view : Ui.View;
  copyButton : bool;
  clearButton : bool;
  clipboardWrites : list JS.str;
  clipboard : option JS.str
}.

Definition set_world (w : World) (p : t) : t :=
  mk (apiKey p) w (view p) (copyButton p) (clearButton p)
    (clipboardWrites p) (clipboard p).

Definition set_view (v : Ui.View) (p : t) : t :=
  mk (apiKey p) (world p) v (copyButton p) (clearButton p)
    (clipboardWrites p) (clipboard p).

Definition set_clipboardWrites (l : list JS.str) (p : t) : t :=
  mk (apiKey p) (world p) (view p) (copyButton p) (clearButton p) l (clipboard p).

Definition set_clipboard (c : option JS.str) (p : t) : t :=
  mk (apiKey p) (world p) (view p) (copyButton p) (clearButton p)
    (clipboardWrites p) c.

(** How the listener ends. *)
Inductive Boot : Type :=
| Threw
| Stopped (v : Ui.View)
| Started (p : t).

Section Script.

Variable scrollHeight : JS.str -> N.
Variable JSON_parse : JS.str -> option JS.value.
Variable toLowerCase : JS.str -> JS.str.
Variable Number_toString : spec_float -> JS.str.

(** The body of the [DOMContentLoaded] listener.  [key] is
    [VITE_DEEPGRAM_API_KEY], absent or a string. *)
Definition DOMContentLoaded (doc : Ui.Document) (key : option JS.str) : Boot :=
  match Ui.UiController doc with
  | None => Threw
  | Some ui =>
      match key with
      | None | Some [] =>
          let ui := Ui.setStatus error "Deepgram key not configured" ui in
          let ui :=
            Ui.setError "Set VITE_DEEPGRAM_API_KEY in a .env file at the project root." ui in
          Stopped ui
      | Some apiKey =>
          if negb (Ui.ptt_button doc) then
            Stopped (Ui.setError "Push-to-talk button not found." ui)
          else
            let ui := Ui.setStatus idle "Idle" ui in
            Started (mk apiKey initial ui (Ui.copy_button doc) (Ui.clear_button doc)
                       [] None)
      end
  end.

(** A task of the pipeline, run on the page: what it calls on the UI
    controller and the console lands on the page in the order of the
    calls. *)
Definition task (m : M unit) (p : t) : t :=
  let w := run_task m (world p) in
  set_world w
    (set_view
       (Ui.render scrollHeight (drop (length (trace (world p))) (trace w)) (view p))
       p).

(** The [mouseleave] listener. *)
Definition on_mouseleave : M unit :=
  holding <- gets isHolding ;;
  if holding then stopPushToTalk else ret tt.

(** [event.code === "Space" || event.code === "Enter"] *)
Definition is_talk_key (code : string) : bool :=
  (code =? "Space")%string || (code =? "Enter")%string.

(** The [click] listener of the copy button, up to its [await]. *)
Definition on_copy_click (p : t) : t :=
  let ui := Ui.clearError (view p) in
  let text := Ui.getTranscript ui in
  if bool_decide (JS.trim text = []) then
    set_view (Ui.setError "Nothing to copy – transcript is empty." ui) p
  else
    set_clipboardWrites (clipboardWrites p ++ [text]) (set_view ui p).

(** The rest of it, when the oldest [writeText] has settled; a call
    that fails at once is a write that settles as refused.  The last
    line of the [catch] logs the reason alone. *)
Definition on_copy_settled (written : bool) (p : t) : t :=
  match clipboardWrites p with
  | [] => p
  | text :: rest =>
      let p := set_clipboardWrites rest p in
      if written then
        let p := set_clipboard (Some text) p in
        set_view (Ui.setStatus idle "Transcript copied to clipboard." (view p)) p
      else
        let ui := Ui.setError "Failed to copy to clipboard." (view p) in
        let ui := Ui.setStatus error "Copy failed" ui in
        set_view (Ui.log "err" ui) p
  end.

(** The [click] listener of the clear button. *)
Definition on_clear_click (p : t) : t :=
  let ui := Ui.clearTranscript (view p) in
  let ui := Ui.clearError ui in
  set_view (Ui.setStatus idle "Transcript cleared." ui) p.

(** What the page can receive: the events of the three buttons, the
    settling of a clipboard write, and everything the browser delivers
    to the pipeline. *)
Inductive Input : Type :=
| mousedown
| mouseup
| mouseleave
| keydown (code : string)
| keyup (code : string)
| copy_click
| clear_click
| copy_settled (written : bool)
| browser (ev : Event).

Definition enabled (i : Input) (p : t) : bool :=
  match i with
  | mousedown | mouseup | mouseleave | keydown _ | keyup _ => true
  | copy_click => copyButton p
  | clear_click => clearButton p
  | copy_settled _ => negb (bool_decide (clipboardWrites p = []))
  | browser Activate | browser Deactivate => false
  | browser ev => App.enabled ev (world p)
  end.

(** The listener that runs, and whether it called [preventDefault]. *)
Definition react (i : Input) (p : t) : t * bool :=
  match i with
  | mousedown => (task (startPushToTalk (apiKey p)) p, false)
  | mouseup => (task stopPushToTalk p, false)
  | mouseleave => (task on_mouseleave p, false)
  | keydown code =>
      if is_talk_key code then (task (startPushToTalk (apiKey p)) p, true)
      else (p, false)
  | keyup code =>
      if is_talk_key code then (task stopPushToTalk p, true) else (p, false)
  | copy_click => (on_copy_click p, false)
  | clear_click => (on_clear_click p, false)
  | copy_settled written => (on_copy_settled written p, false)
  | browser ev =>
      (task (App.react (apiKey p) JSON_parse toLowerCase Number_toString ev) p, false)
  end.

Definition step (i : Input) (p : t) : option t :=
  if enabled i p then Some (fst (react i p)) else None.

Fixpoint run (inputs : list Input) (p : t) : option t :=
  match inputs with
  | [] => Some p
  | i :: rest =>
      match step i p with
      | Some p' => run rest p'
      | None => None
      end
  end.

(** The pages a document and a key can lead to. *)
Inductive reachable (doc : Ui.Document) (key : option JS.str) : t -> Prop :=
| reachable_started (p : t) :
    DOMContentLoaded doc key = Started p -> reachable doc key p
| reachable_step (p p' : t) (i : Input) :
    reachable doc key p -> step i p = Some p' -> reachable doc key p'.

End Script.

End Page.

(** * Further notions used in the statements *)

Module Capture.

Import App.

(** A graph in full operation: the tracks live, the context open, both
    connections made and the handler installed. *)
Definition running (g : Media.Graph) : bool :=
  Media.tracksLive g && negb (Media.contextClosed g) &&
  Media.sourceConnected g && Media.processorConnected g &&
  Media.onaudioprocess g.

(** The same graph with everything [stop] undoes undone. *)
Definition shut (g : Media.Graph) : Media.Graph :=
  Media.mk (Media.sampleRate g) false true false false false.

(** The four handles name the same graph or are all null, and a graph
    they name exists and is in full operation. *)
Record inv (w : World) : Prop := {
  handles_agree :
    mediaStream w = audioContext w /\ sourceNode w = audioContext w /\
    processorNode w = audioContext w;
  held_is_running : forall g, audioContext w = Some g ->
    (g < length (graphs w))%nat /\ running (the_graph w g) = true
}.

(** Graph [g] is in full operation and no handle names it. *)
Definition orphaned (g : nat) (w : World) : Prop :=
  inv w /\ (g < length (graphs w))%nat /\
  running (the_graph w g) = true /\ audioContext w <> Some g.

End Capture.

Module Invariant.

Import App.

(** [m] keeps [Q], whether it returns or throws. *)
Definition preserves {A} (Q : World -> Prop) (m : M A) : Prop :=
  forall w, Q w -> Q (snd (m w)).

(** The credential travels as the second subprotocol, and frames are
    delivered as array buffers. *)
Definition authenticated (apiKey : JS.str) (s : WS.WebSocket) : Prop :=
  WS.protocols s = [JS.lit "token"; apiKey] /\
  WS.binaryType s = JS.lit "arraybuffer".

Definition all_authenticated (apiKey : JS.str) (w : World) : Prop :=
  Forall (authenticated apiKey) (sockets w).

(** A socket exists only when the constructor accepts the credential
    as a subprotocol. *)
Definition key_accepted (apiKey : JS.str) (w : World) : Prop :=
  sockets w = [] \/ WS.acceptable [JS.lit "token"; apiKey] = true.

(** A console line or a text for the transcript. *)
Definition log_or_text (e : Effect) : Prop :=
  match e with
  | ConsoleLog _ | ConsoleError _ | UiAppendText _ => True
  | _ => False
  end.

(** Since [w0], only such calls were made. *)
Definition logged_since (w0 w : World) : Prop :=
  exists new, trace w = trace w0 ++ new /\ Forall log_or_text new.

(** Nothing has been thrown past a listener. *)
Definition no_uncaught (w : World) : Prop :=
  forall e, ~ In (Uncaught e) (trace w).

End Invariant.

Module Wire.

(** The two bytes [setInt16] writes for a sample, low byte first. *)
Definition sample_bytes (x : spec_float) : list Z :=
  let raw := Number.ToInt16 (Linear16.scaled_sample x) mod 65536 in
  [raw mod 256; raw / 256].

(** A binary frame on the wire is the encoding of a block of samples. *)
Definition encoded (e : WS.WireEvent) : Prop :=
  match e with
  | WS.Sent (WS.Binary payload) =>
      exists chunk, Linear16.float32ToLinear16 chunk = Normal payload
  | _ => True
  end.

Definition all_encoded (w : App.World) : Prop :=
  forall ws s, App.sockets w !! ws = Some s -> Forall encoded (WS.wire s).

End Wire.

(** * A concrete host, to run the program on *)

Module Demo.

Import App.

Definition apiKey : JS.str := JS.lit "secret".

Definition quoted (s : string) : JS.str := [34%N] ++ JS.lit s ++ [34%N].

(** Two frames as the service sends them, and one that is not JSON. *)
Definition results_text : JS.str :=
  JS.lit "{" ++ quoted "type" ++ JS.lit ":" ++ quoted "Results" ++ JS.lit ","
  ++ quoted "channel" ++ JS.lit ":{" ++ quoted "alternatives" ++ JS.lit ":[{"
  ++ quoted "transcript" ++ JS.lit ":" ++ quoted " hello world " ++ JS.lit "}]}}".

Definition metadata_text : JS.str :=
  JS.lit "{" ++ quoted "type" ++ JS.lit ":" ++ quoted "Metadata" ++ JS.lit "}".

Definition garbage_text : JS.str := JS.lit "{not json".

Definition results_value : JS.value :=
  JS.Obj
    [(JS.lit "type", JS.Str (JS.lit "Results"));
     (JS.lit "channel",
      JS.Obj
        [(JS.lit "alternatives",
          JS.Arr [JS.Obj [(JS.lit "transcript", JS.Str (JS.lit " hello world "))]])])].

Definition metadata_value : JS.value :=
  JS.Obj [(JS.lit "type", JS.Str (JS.lit "Metadata"))].

(** A [JSON.parse] that knows these two frames and rejects the rest. *)
Definition JSON_parse (raw : JS.str) : option JS.value :=
  if bool_decide (raw = results_text) then Some results_value
  else if bool_decide (raw = metadata_text) then Some metadata_value
  else None.

(** Lower-casing of the ASCII letters. *)
Definition toLowerCase (s : JS.str) : JS.str :=
  map (fun c => if ((65 <=? c) && (c <=? 90))%N then (c + 32)%N else c) s.

Definition Number_toString (n : spec_float) : JS.str := JS.lit "0".

Definition run_from_start (evs : list Event) : option World :=
  run apiKey JSON_parse toLowerCase Number_toString evs initial.

Definition world_after (evs : list Event) : World :=
  match run_from_start evs with
  | Some w => w
  | None => initial
  end.

(** Binary32 samples: 0.5, -1 and 2. *)
Definition half : spec_float := S754_finite false 8388608 (-24).
Definition minus_one : spec_float := S754_finite true 8388608 (-23).
Definition two : spec_float := S754_finite false 8388608 (-22).

(** Press, handshake done, microphone granted at 48 kHz, one block. *)
Definition streaming_trace : list Event :=
  [Activate; WsOpened 0; MicGranted 48000; AudioProcess 0 [half; minus_one]].

(** ... then release, and press again. *)
Definition repress_trace : list Event :=
  streaming_trace ++ [Deactivate; Activate].

(** A first press only: the handshake is pending. *)
Definition connecting_trace : list Event := [Activate].

(** A press whose microphone request is still pending when the button
    is released, then a second press: both requests are granted while
    the button is held, and graph 0 loses its handles to graph 1. *)
Definition orphan_trace : list Event :=
  [Activate; WsOpened 0; Deactivate; Activate; WsOpened 1;
   MicGranted 48000; MicGranted 44100].

(** ... then a release, a third press and its handshake, and a block
    from graph 0. *)
Definition orphan_heard_trace : list Event :=
  orphan_trace ++ [Deactivate; Activate; WsOpened 2; AudioProcess 0 [half]].

End Demo.

(** * A concrete page *)

Module DemoPage.

(** A layout in which each code unit takes one unit of height. *)
Definition scrollHeight (text : JS.str) : N := N.of_nat (length text).

(** The page as shipped: every element present, nothing shown, the
    status element carrying a class of the style sheet. *)
Definition document : Ui.Document :=
  Ui.mkDocument (Some ([], 0%N)) (Some ("Idle", ["status"; "error"])%string)
    (Some ""%string) true true true.

Definition boot : Page.Boot :=
  Page.DOMContentLoaded document (Some Demo.apiKey).

Definition run_from_boot (inputs : list Page.Input) : option Page.t :=
  match boot with
  | Page.Started p =>
      Page.run scrollHeight Demo.JSON_parse Demo.toLowerCase Demo.Number_toString
        inputs p
  | _ => None
  end.

Definition page_after (inputs : list Page.Input) : Page.t :=
  match run_from_boot inputs with
  | Some p => p
  | None => Page.mk [] App.initial (Ui.mkView [] 0 "" [] "" []) false false [] None
  end.

(** Press, handshake done, microphone granted, one transcript received. *)
Definition heard : list Page.Input :=
  [Page.mousedown; Page.browser (App.WsOpened 0);
   Page.browser (App.MicGranted 48000);
   Page.browser (App.WsMessage 0 (App.TextData Demo.results_text))].

End DemoPage.

(** * The sample encoder *)

Local Open Scope Z_scope.
Import PCM.

(** ** Significands and their number of digits *)

Lemma digits2_pos_bounds (m : positive) :
  2 ^ (Zpos (digits2_pos m) - 1) <= Zpos m < 2 ^ Zpos (digits2_pos m).
Proof.
  induction m as [m IH|m IH|]; cbn [digits2_pos].
  - rewrite Pos2Z.inj_succ.
    replace (Z.succ (Zpos (digits2_pos m)) - 1) with (Zpos (digits2_pos m) - 1 + 1) by lia.
    rewrite Z.pow_succ_r by lia. rewrite Z.pow_add_r by lia.
    change (2 ^ 1) with 2. lia.
  - rewrite Pos2Z.inj_succ.
    replace (Z.succ (Zpos (digits2_pos m)) - 1) with (Zpos (digits2_pos m) - 1 + 1) by lia.
    rewrite Z.pow_succ_r by lia. rewrite Z.pow_add_r by lia.
    change (2 ^ 1) with 2. lia.
  - simpl. lia.
Qed.

(** The number of digits is determined by the enclosing powers of two. *)
Lemma digits2_pos_unique (m : positive) (d : Z) :
  2 ^ (d - 1) <= Zpos m < 2 ^ d -> Zpos (digits2_pos m) = d.
Proof.
  intros [Hlo Hhi]. pose proof (digits2_pos_bounds m) as [Hlo' Hhi'].
  assert (0 < d).
  { destruct (Z.lt_trichotomy d 0) as [Hd|[->|Hd]]; [|simpl in Hhi; lia|lia].
    rewrite Z.pow_neg_r in Hhi by lia. lia. }
  destruct (Z.lt_trichotomy (Zpos (digits2_pos m)) d) as [Hlt|[Heq|Hgt]]; [|exact Heq|].
  - assert (2 ^ Zpos (digits2_pos m) <= 2 ^ (d - 1)) by (apply Z.pow_le_mono_r; lia).
    lia.
  - assert (2 ^ d <= 2 ^ (Zpos (digits2_pos m) - 1)) by (apply Z.pow_le_mono_r; lia).
    lia.
Qed.

Lemma iter_xO (m d : positive) : Zpos (Pos.iter xO m d) = Zpos m * 2 ^ Zpos d.
Proof.
  induction d as [|d IH] using Pos.peano_ind.
  - simpl. lia.
  - rewrite Pos.iter_succ, Pos2Z.inj_xO, IH, Pos2Z.inj_succ, Z.pow_succ_r by lia.
    lia.
Qed.

Lemma digits2_pos_shifted (m : positive) (k : Z) (M : positive) :
  0 <= k -> Zpos M = Zpos m * 2 ^ k ->
  Zpos (digits2_pos M) = Zpos (digits2_pos m) + k.
Proof.
  intros Hk HM. apply digits2_pos_unique.
  pose proof (digits2_pos_bounds m) as [Hlo Hhi].
  rewrite HM.
  replace (Zpos (digits2_pos m) + k - 1) with (Zpos (digits2_pos m) - 1 + k) by lia.
  rewrite !Z.pow_add_r by lia.
  assert (0 < 2 ^ k) by (apply Z.pow_pos_nonneg; lia).
  split; nia.
Qed.

(** ** Shifting a significand right *)

Lemma iter_pos_nat {A} (f : A -> A) (p : positive) (x : A) :
  SpecFloat.iter_pos f p x = Nat.iter (Pos.to_nat p) f x.
Proof.
  revert x. induction p as [p IH|p IH|]; intros x; cbn [SpecFloat.iter_pos].
  - rewrite !IH, Pos2Nat.inj_xI.
    replace (S (2 * Pos.to_nat p))%nat with (Pos.to_nat p + (Pos.to_nat p + 1))%nat by lia.
    now rewrite !Nat.iter_add.
  - rewrite !IH, Pos2Nat.inj_xO.
    replace (2 * Pos.to_nat p)%nat with (Pos.to_nat p + Pos.to_nat p)%nat by lia.
    now rewrite Nat.iter_add.
  - reflexivity.
Qed.

Lemma shr_1_even (a : Z) :
  0 < a ->
  shr_1 (Build_shr_record (2 * a) false false) = Build_shr_record a false false.
Proof. destruct a; try lia. reflexivity. Qed.

Lemma shr_even (n : nat) : forall a : Z,
  0 < a ->
  Nat.iter n shr_1 (Build_shr_record (a * 2 ^ Z.of_nat n) false false) =
  Build_shr_record a false false.
Proof.
  induction n as [|n IH]; intros a Ha.
  - simpl. f_equal. lia.
  - rewrite Nat.iter_succ_r, Nat2Z.inj_succ, Z.pow_succ_r by lia.
    replace (a * (2 * 2 ^ Z.of_nat n)) with (2 * (a * 2 ^ Z.of_nat n)) by lia.
    rewrite shr_1_even; [now apply IH|].
    assert (0 < 2 ^ Z.of_nat n) by (apply Z.pow_pos_nonneg; lia). nia.
Qed.

(** Rounding a product that needs no rounding: if the digits to be
    dropped are zero, the result is the exact quotient. *)
Lemma binary_round_aux_exact (s : bool) (a : positive) (n e : Z) :
  0 <= n ->
  fexp Number.prec Number.emax (Zpos (digits2_pos a) + n + e) = e + n ->
  e + n <= Number.emax - Number.prec ->
  binary_round_aux Number.prec Number.emax s (Zpos a * 2 ^ n) e loc_Exact =
  S754_finite s a (e + n).
Proof.
  intros Hn Hfexp Hmax.
  assert (Hpos : 0 < 2 ^ n) by (apply Z.pow_pos_nonneg; lia).
  destruct (Zpos a * 2 ^ n) as [|P|P] eqn:HP; try lia.
  assert (Hdig : Zpos (digits2_pos P) = Zpos (digits2_pos a) + n).
  { apply (digits2_pos_shifted a n P Hn). lia. }
  unfold binary_round_aux, shr_fexp. cbn [Zdigits2 shr_record_of_loc].
  rewrite Hdig, Hfexp.
  replace (e + n - e) with n by lia.
  destruct n as [|p|p]; try lia.
  - cbn [shr loc_of_shr_record shr_m round_nearest_even Zdigits2].
    rewrite Z.mul_1_r in HP. injection HP as ->.
    replace (Zpos (digits2_pos P) + e) with (Zpos (digits2_pos P) + 0 + e) by lia.
    rewrite Hfexp. replace (e + 0 - e) with 0 by lia.
    cbn [shr shr_m shr_record_of_loc].
    rewrite Z.add_0_r in Hmax. rewrite Z.add_0_r.
    now rewrite (proj2 (Z.leb_le _ _) Hmax).
  - cbn [shr]. rewrite iter_pos_nat.
    replace (Zpos P) with (Zpos a * 2 ^ Z.of_nat (Pos.to_nat p))
      by (rewrite positive_nat_Z; lia).
    rewrite shr_even by lia.
    cbn [loc_of_shr_record shr_m round_nearest_even Zdigits2 shr_record_of_loc].
    replace (Zpos (digits2_pos a) + (e + Zpos p)) with (Zpos (digits2_pos a) + Zpos p + e) by lia.
    rewrite Hfexp, Z.sub_diag. cbn [shr shr_m].
    now rewrite (proj2 (Z.leb_le _ _) Hmax).
Qed.

(** ** Binary32 samples as numbers *)

Lemma float32_finite s m e :
  PCM.float32 (S754_finite s m e) ->
  (Zpos (digits2_pos m) = 24 /\ -149 <= e <= 104) \/
  (Zpos (digits2_pos m) <= 24 /\ e = -149).
Proof.
  unfold PCM.float32, valid_binary, bounded, canonical_mantissa, fexp, emin.
  intros H. apply andb_true_iff in H as [Hc He].
  apply Z.eqb_eq in Hc. apply Z.leb_le in He. lia.
Qed.

Lemma of_float32_finite s m e :
  PCM.float32 (S754_finite s m e) ->
  exists M : positive,
    Zpos M = Zpos m * 2 ^ (53 - Zpos (digits2_pos m)) /\
    Zpos (digits2_pos M) = 53 /\
    Number.of_float32 (S754_finite s m e) =
      S754_finite s M (e - (53 - Zpos (digits2_pos m))).
Proof.
  intros Hv. apply float32_finite in Hv.
  pose proof (Pos2Z.is_pos (digits2_pos m)) as HD.
  set (D := Zpos (digits2_pos m)) in *.
  unfold Number.of_float32, binary_round, shl_align.
  fold D.
  assert (Hfexp : fexp Number.prec Number.emax (D + e) = e - (53 - D)).
  { unfold fexp, emin, Number.prec, Number.emax. lia. }
  rewrite Hfexp.
  destruct (e - (53 - D) - e) as [|d|d] eqn:Hd; try lia.
  exists (Pos.iter xO m d).
  assert (HM : Zpos (Pos.iter xO m d) = Zpos m * 2 ^ (53 - D)).
  { rewrite iter_xO. f_equal. f_equal. lia. }
  assert (Hdig : Zpos (digits2_pos (Pos.iter xO m d)) = 53).
  { rewrite (digits2_pos_shifted m (53 - D) _); [fold D; lia|lia|exact HM]. }
  split; [exact HM|]. split; [exact Hdig|].
  pose proof (binary_round_aux_exact s (Pos.iter xO m d) 0 (e - (53 - D))) as Hexact.
  rewrite Z.pow_0_r, Z.mul_1_r, !Z.add_0_r in Hexact.
  apply Hexact; [lia| |unfold Number.emax, Number.prec; lia].
  rewrite Hdig. unfold fexp, emin, Number.prec, Number.emax. lia.
Qed.


(** ** Clamping *)

Lemma in_unit_below M e' : e' < -52 -> in_unit M e' = true.
Proof.
  intros H. unfold in_unit. now rewrite (proj2 (Z.ltb_lt e' (-52))) by lia.
Qed.

Lemma in_unit_above M e' : -52 < e' -> in_unit M e' = false.
Proof.
  intros H. unfold in_unit.
  rewrite (proj2 (Z.ltb_ge e' (-52))) by lia.
  now rewrite (proj2 (Z.eqb_neq e' (-52))) by lia.
Qed.

Lemma in_unit_at M : in_unit M (-52) = (Zpos M =? 4503599627370496).
Proof. reflexivity. Qed.

(** The comparisons behind [Math.min(1, x)] and [Math.max(-1, x)] for a
    normal binary64 number [x]: [x] is kept when it lies in [-1, 1]. *)
Lemma compare_one (M : positive) (e' : Z) :
  4503599627370496 <= Zpos M ->
  SFcompare Number.one (S754_finite false M e') =
  Some (if in_unit M e'
        then (if Zpos M =? 4503599627370496 then
                (if e' =? -52 then Eq else Gt) else Gt)
        else Lt).
Proof.
  intros Hlo. unfold SFcompare, Number.one.
  destruct (Z.compare_spec (-52) e') as [He|Hlt|Hgt].
  - rewrite <- He, in_unit_at.
    change (Pos.compare_cont Eq 4503599627370496 M)
      with (Pos.compare 4503599627370496 M).
    destruct (Pos.compare_spec 4503599627370496 M) as [HM|HM|HM].
    + rewrite <- HM. reflexivity.
    + apply Pos2Z.pos_lt_pos in HM.
      now rewrite (proj2 (Z.eqb_neq (Zpos M) 4503599627370496)) by lia.
    + apply Pos2Z.pos_lt_pos in HM. lia.
  - now rewrite in_unit_above.
  - rewrite in_unit_below by lia.
    rewrite (proj2 (Z.eqb_neq e' (-52))) by lia.
    now destruct (Zpos M =? 4503599627370496).
Qed.

Lemma compare_minus_one (M : positive) (e' : Z) :
  4503599627370496 <= Zpos M ->
  SFcompare Number.minus_one (S754_finite true M e') =
  Some (if in_unit M e'
        then (if Zpos M =? 4503599627370496 then
                (if e' =? -52 then Eq else Lt) else Lt)
        else Gt).
Proof.
  intros Hlo. unfold SFcompare, Number.minus_one.
  destruct (Z.compare_spec (-52) e') as [He|Hlt|Hgt].
  - rewrite <- He, in_unit_at.
    change (Pos.compare_cont Eq 4503599627370496 M)
      with (Pos.compare 4503599627370496 M).
    destruct (Pos.compare_spec 4503599627370496 M) as [HM|HM|HM].
    + rewrite <- HM. reflexivity.
    + apply Pos2Z.pos_lt_pos in HM.
      now rewrite (proj2 (Z.eqb_neq (Zpos M) 4503599627370496)) by lia.
    + apply Pos2Z.pos_lt_pos in HM. lia.
  - now rewrite in_unit_above.
  - rewrite in_unit_below by lia.
    rewrite (proj2 (Z.eqb_neq e' (-52))) by lia.
    now destruct (Zpos M =? 4503599627370496).
Qed.

Lemma normal_lower_bound (M : positive) :
  Zpos (digits2_pos M) = 53 -> 4503599627370496 <= Zpos M.
Proof.
  intros Hdig. pose proof (digits2_pos_bounds M) as [Hlo _].
  rewrite Hdig in Hlo. exact Hlo.
Qed.

Lemma clamp_finite s M e' :
  Zpos (digits2_pos M) = 53 ->
  Number.Math_max Number.minus_one (Number.Math_min Number.one (S754_finite s M e')) =
  if in_unit M e' then S754_finite s M e'
  else if s then Number.minus_one else Number.one.
Proof.
  intros Hdig. pose proof (normal_lower_bound M Hdig) as Hlo.
  destruct s.
  - assert (Hmin : Number.Math_min Number.one (S754_finite true M e') =
                   S754_finite true M e') by reflexivity.
    rewrite Hmin. unfold Number.Math_max.
    rewrite (compare_minus_one M e' Hlo).
    destruct (in_unit M e'); [|reflexivity].
    destruct (Zpos M =? 4503599627370496); [|reflexivity].
    now destruct (e' =? -52).
  - assert (Hmin : Number.Math_min Number.one (S754_finite false M e') =
                   if in_unit M e' then S754_finite false M e' else Number.one).
    { unfold Number.Math_min. rewrite (compare_one M e' Hlo).
      destruct (in_unit M e'); [|reflexivity].
      destruct (Zpos M =? 4503599627370496); [|reflexivity].
      now destruct (e' =? -52). }
    rewrite Hmin. now destruct (in_unit M e').
Qed.

(** ** The products [s * 0x8000] and [s * 0x7fff] are exact *)

Lemma pow2_pos (n : Z) : 0 <= n -> 0 < 2 ^ n.
Proof. intros. apply Z.pow_pos_nonneg; lia. Qed.

Lemma truncate_mul (s : bool) (m M mc : positive) (e c j : Z) :
  Zpos (digits2_pos m) <= 24 -> -149 <= e <= 104 ->
  Zpos M = Zpos m * 2 ^ (53 - Zpos (digits2_pos m)) ->
  Zpos mc = c * 2 ^ j -> 0 < c < 2 ^ 16 -> 0 <= j <= 38 ->
  Number.truncate
    (Number.mul (S754_finite s M (e - (53 - Zpos (digits2_pos m))))
                (S754_finite false mc (- j))) =
  cond_Zopp s (Z.shiftl (Zpos m * c) e).
Proof.
  intros HD He HM Hmc Hc Hj.
  pose proof (Pos2Z.is_pos (digits2_pos m)) as HDpos.
  pose proof (digits2_pos_bounds m) as [Hmlo Hmhi].
  set (D := Zpos (digits2_pos m)) in *.
  destruct (Zpos m * c) as [|q|q] eqn:Hq; try nia.
  pose proof (digits2_pos_bounds q) as [Hqlo Hqhi].
  pose proof (Pos2Z.is_pos (digits2_pos q)) as Hdqpos.
  set (dq := Zpos (digits2_pos q)) in *.
  assert (HdqD : D <= dq <= D + 16).
  { split.
    - destruct (Z.le_gt_cases D dq) as [|Hlt]; [assumption|exfalso].
      assert (2 ^ dq <= 2 ^ (D - 1)) by (apply Z.pow_le_mono_r; lia). nia.
    - destruct (Z.le_gt_cases dq (D + 16)) as [|Hlt]; [assumption|exfalso].
      assert (2 ^ (D + 16) <= 2 ^ (dq - 1)) by (apply Z.pow_le_mono_r; lia).
      rewrite Z.pow_add_r in * by lia. nia. }
  set (t := 53 - dq).
  set (n := dq - D + j).
  destruct (Zpos q * 2 ^ t) as [|a|a] eqn:Ha;
    try (pose proof (pow2_pos t ltac:(unfold t; lia)); nia).
  assert (Hprod : Zpos (M * mc) = Zpos a * 2 ^ n).
  { assert (Hpow : 2 ^ (53 - D) * 2 ^ j = 2 ^ t * 2 ^ n).
    { rewrite <- !Z.pow_add_r by (unfold t, n; lia). f_equal. unfold t, n. lia. }
    rewrite Pos2Z.inj_mul, HM, Hmc.
    replace (Zpos m * 2 ^ (53 - D) * (c * 2 ^ j))
      with (Zpos m * c * (2 ^ (53 - D) * 2 ^ j)) by ring.
    now rewrite Hpow, Hq, Z.mul_assoc, Ha. }
  assert (Hda : Zpos (digits2_pos a) = 53).
  { rewrite (digits2_pos_shifted q t a); [fold dq; unfold t; lia|unfold t; lia|lia]. }
  unfold Number.mul, SFmul. rewrite xorb_false_r, Hprod.
  rewrite binary_round_aux_exact.
  - cbn [Number.truncate]. f_equal.
    rewrite <- Ha, <- Z.shiftl_mul_pow2 by (unfold t; lia).
    rewrite Z.shiftl_shiftl by (unfold t; lia).
    f_equal. unfold t, n. lia.
  - unfold n. lia.
  - rewrite Hda. unfold fexp, emin, Number.prec, Number.emax, n. lia.
  - unfold Number.emax, Number.prec, n. lia.
Qed.

(** ** The same computation on exact rationals *)

Lemma Qtruncate_opp (n : Z) (d : positive) :
  0 <= n -> PCM.Qtruncate (- n # d) = - (n / Zpos d).
Proof.
  intros Hn. unfold PCM.Qtruncate. simpl.
  rewrite Z.quot_opp_l by lia. f_equal. apply Z.quot_div_nonneg; lia.
Qed.

Lemma Qtruncate_nonneg (n : Z) (d : positive) :
  0 <= n -> PCM.Qtruncate (n # d) = n / Zpos d.
Proof.
  intros Hn. unfold PCM.Qtruncate. simpl. apply Z.quot_div_nonneg; lia.
Qed.

Lemma quantized_in_unit (s : bool) (m p : positive) :
  Zpos m <= 2 ^ Zpos p ->
  PCM.quantized (S754_finite s m (Zneg p)) =
  cond_Zopp s ((Zpos m * (if s then 32768 else 32767)) / 2 ^ Zpos p).
Proof.
  intros Hm. assert (Hd : Zpos (2 ^ p) = 2 ^ Zpos p) by apply Pos2Z.inj_pow.
  unfold PCM.quantized, PCM.clamped, PCM.clamp, PCM.value.
  destruct (Qlt_le_dec _ (-1)) as [Hlt|_].
  { exfalso. unfold Qlt in Hlt. simpl in Hlt. destruct s; simpl in Hlt; lia. }
  destruct (Qlt_le_dec 1 _) as [Hlt|_].
  { exfalso. unfold Qlt in Hlt. simpl in Hlt. destruct s; simpl in Hlt; lia. }
  unfold PCM.scaled.
  destruct (Qlt_le_dec _ 0) as [Hneg|Hpos]; unfold Qlt, Qle in *; simpl in *;
    destruct s; simpl in *; try lia.
  - unfold Qmult. simpl.
    rewrite Z.mul_opp_l, Qtruncate_opp by lia.
    now rewrite Pos.mul_1_r, Hd.
  - unfold Qmult. simpl.
    rewrite Qtruncate_nonneg by lia.
    now rewrite Pos.mul_1_r, Hd.
Qed.

Lemma quantized_outside (s : bool) (m : positive) (e : Z) :
  (0 <= e /\ 2 <= Zpos m) \/ (exists p, e = Zneg p /\ 2 ^ Zpos p < Zpos m) ->
  PCM.quantized (S754_finite s m e) = if s then -32768 else 32767.
Proof.
  intros Hout.
  assert (Hv : if s then (PCM.value (S754_finite s m e) < -1)%Q
               else (1 < PCM.value (S754_finite s m e))%Q).
  { destruct Hout as [[He Hm]|(p & -> & Hm)].
    - assert (0 < 2 ^ e) by (apply Z.pow_pos_nonneg; lia).
      assert (Hval : PCM.value (S754_finite s m e) =
                     inject_Z (cond_Zopp s (Zpos m) * 2 ^ e)).
      { unfold PCM.value. destruct e; try reflexivity. lia. }
      rewrite Hval.
      destruct s; unfold Qlt, inject_Z; cbn [Qnum Qden cond_Zopp]; nia.
    - assert (Hd : Zpos (2 ^ p) = 2 ^ Zpos p) by apply Pos2Z.inj_pow.
      destruct s; unfold Qlt; simpl; lia. }
  unfold PCM.quantized, PCM.clamped, PCM.clamp.
  destruct s.
  - destruct (Qlt_le_dec _ (-1)) as [_|Hge]; [reflexivity|].
    exfalso. eapply Qlt_not_le; eauto.
  - destruct (Qlt_le_dec _ (-1)) as [Hlt|_].
    { exfalso. apply (Qlt_irrefl 1). eapply Qlt_trans; [exact Hv|].
      eapply Qlt_trans; [exact Hlt|]. reflexivity. }
    destruct (Qlt_le_dec 1 _) as [_|Hle]; [reflexivity|].
    exfalso. eapply Qlt_not_le; eauto.
Qed.

(** ** One sample: the code against the rational computation *)

Lemma lt_zero_finite s M e' :
  Number.lt (S754_finite s M e') Number.zero = s.
Proof. now destruct s. Qed.

(** For a binary32 sample, being kept by the clamp means [m <= 2^(-e)]. *)
Lemma in_unit_float32 (m M : positive) (e : Z) :
  (Zpos (digits2_pos m) = 24 /\ -149 <= e <= 104) \/
  (Zpos (digits2_pos m) <= 24 /\ e = -149) ->
  Zpos M = Zpos m * 2 ^ (53 - Zpos (digits2_pos m)) ->
  if in_unit M (e - (53 - Zpos (digits2_pos m)))
  then exists p, e = Zneg p /\ Zpos m <= 2 ^ Zpos p
  else (0 <= e /\ 2 <= Zpos m) \/ (exists p, e = Zneg p /\ 2 ^ Zpos p < Zpos m).
Proof.
  intros Hv HM.
  pose proof (Pos2Z.is_pos (digits2_pos m)) as HDpos.
  pose proof (digits2_pos_bounds m) as [Hmlo Hmhi].
  set (D := Zpos (digits2_pos m)) in *.
  assert (Hk : 0 < 2 ^ (53 - D)) by (apply pow2_pos; lia).
  assert (H52 : 2 ^ 52 = 2 ^ (D - 1) * 2 ^ (53 - D)).
  { rewrite <- Z.pow_add_r by lia. f_equal. lia. }
  assert (Hone : Zpos M = 2 ^ 52 <-> Zpos m = 2 ^ (D - 1)).
  { rewrite HM, H52. split.
    - intros H. apply Z.mul_reg_r in H; lia.
    - now intros ->. }
  clear HM H52.
  unfold in_unit.
  destruct (Z.ltb_spec (e - (53 - D)) (-52)) as [Hlt|Hge]; cbn [orb].
  - destruct e as [|p|p]; try lia. exists p. split; [reflexivity|].
    assert (2 ^ D <= 2 ^ Zpos p) by (apply Z.pow_le_mono_r; lia). lia.
  - destruct (Z.eqb_spec (e - (53 - D)) (-52)) as [Heq|Hne]; cbn [andb].
    + destruct (Z.eqb_spec (Zpos M) (2 ^ 52)) as [HM2|HM2].
      * apply Hone in HM2.
        destruct e as [|p|p]; try lia. exists p. split; [reflexivity|].
        replace (Zpos p) with (D - 1) by lia. lia.
      * assert (Zpos m <> 2 ^ (D - 1)) by (intros H; apply HM2, Hone, H).
        destruct e as [|p|p]; try lia.
        right. exists p. split; [reflexivity|].
        replace (Zpos p) with (D - 1) by lia. lia.
    + destruct e as [|p|p].
      * left. split; [lia|].
        assert (2 ^ 1 <= 2 ^ (D - 1)) by (apply Z.pow_le_mono_r; lia).
        change (2 ^ 1) with 2 in *. lia.
      * left. split; [lia|].
        assert (2 ^ 1 <= 2 ^ (D - 1)) by (apply Z.pow_le_mono_r; lia).
        change (2 ^ 1) with 2 in *. lia.
      * right. exists p. split; [reflexivity|].
        assert (2 ^ (Zpos p + 1) <= 2 ^ (D - 1)) by (apply Z.pow_le_mono_r; lia).
        rewrite Z.pow_add_r in * by lia. change (2 ^ 1) with 2 in *.
        assert (0 < 2 ^ Zpos p) by (apply pow2_pos; lia). lia.
Qed.

Lemma ToInt16_small (x : spec_float) :
  -32768 <= Number.truncate x <= 32767 ->
  Number.ToInt16 x = Number.truncate x.
Proof.
  intros H. unfold Number.ToInt16.
  destruct (Z.leb_spec 32768 (Number.truncate x mod 65536)) as [Hhi|Hlo];
    revert Hhi || revert Hlo; generalize (Number.truncate x) H; clear; intros t H;
    Z.div_mod_to_equations; lia.
Qed.

Lemma shiftl_neg (a : Z) (p : positive) :
  Z.shiftl a (Zneg p) = a / 2 ^ Zpos p.
Proof.
  change (Z.shiftl a (Zneg p)) with (Z.shiftr a (Zpos p)).
  apply Z.shiftr_div_pow2. lia.
Qed.

Lemma scaled_in_unit_bounds (s : bool) (m p : positive) :
  Zpos m <= 2 ^ Zpos p ->
  -32768 <=
    cond_Zopp s ((Zpos m * (if s then 32768 else 32767)) / 2 ^ Zpos p) <= 32767.
Proof.
  intros Hm. assert (Hd : 0 < 2 ^ Zpos p) by (apply pow2_pos; lia).
  destruct s; cbn [cond_Zopp].
  - assert (0 <= Zpos m * 32768 / 2 ^ Zpos p <= 32768); [|lia].
    split; [apply Z.div_pos; lia|].
    apply Z.div_le_upper_bound; [lia|nia].
  - assert (0 <= Zpos m * 32767 / 2 ^ Zpos p <= 32767); [|lia].
    split; [apply Z.div_pos; lia|].
    apply Z.div_le_upper_bound; [lia|nia].
Qed.

(** For a binary32 sample that is a number, the integer the loop body
    stores is the clamped and scaled sample, truncated, and it fits in
    sixteen bits without wrapping. *)
Lemma scaled_sample_quantized (x : spec_float) :
  PCM.float32 x -> x <> S754_nan ->
  Number.ToInt16 (Linear16.scaled_sample x) = PCM.quantized x /\
  -32768 <= PCM.quantized x <= 32767.
Proof.
  intros Hv Hnan.
  destruct x as [s|s| |s m e].
  - destruct s; vm_compute; repeat split; congruence.
  - destruct s; vm_compute; repeat split; congruence.
  - now elim Hnan.
  - pose proof (float32_finite s m e Hv) as Hshape.
    destruct (of_float32_finite s m e Hv) as (M & HM & Hdig & Hof).
    pose proof (in_unit_float32 m M e Hshape HM) as Hunit.
    unfold Linear16.scaled_sample. rewrite Hof, (clamp_finite _ _ _ Hdig).
    destruct (in_unit M (e - (53 - Zpos (digits2_pos m)))).
    + destruct Hunit as (p & -> & Hm).
      rewrite lt_zero_finite, quantized_in_unit by exact Hm.
      pose proof (scaled_in_unit_bounds s m p Hm) as Hb.
      assert (Htr : Number.truncate
                (if s
                 then Number.mul
                        (S754_finite s M (Zneg p - (53 - Zpos (digits2_pos m))))
                        Number.x8000
                 else Number.mul
                        (S754_finite s M (Zneg p - (53 - Zpos (digits2_pos m))))
                        Number.x7fff) =
              cond_Zopp s ((Zpos m * (if s then 32768 else 32767)) / 2 ^ Zpos p)).
      { rewrite <- shiftl_neg. destruct s.
        - apply (truncate_mul true m M 4503599627370496 (Zneg p) 32768 37);
            try lia; try reflexivity; try exact HM.
        - apply (truncate_mul false m M 9006924376834048 (Zneg p) 32767 38);
            try lia; try reflexivity; try exact HM. }
      split; [|exact Hb].
      rewrite ToInt16_small; rewrite Htr; [reflexivity|exact Hb].
    + rewrite (quantized_outside s m e Hunit).
      destruct s; vm_compute; repeat split; congruence.
Qed.

(** ** The loop never leaves the buffer *)

Lemma setInt16_le_in_range view off v :
  (off + 2 <= length view)%nat ->
  exists view', DataView.setInt16_le view off v = Normal view' /\
                length view' = length view.
Proof.
  intros H. unfold DataView.setInt16_le.
  destruct (Nat.leb_spec (off + 2) (length view)) as [_|]; [|lia].
  eexists; split; [reflexivity|]. now rewrite !length_insert.
Qed.

Lemma encode_from_total rest : forall i view,
  (i * 2 + length rest * 2 <= length view)%nat ->
  exists bytes, Linear16.encode_from rest i view = Normal bytes /\
                length bytes = length view.
Proof.
  induction rest as [|x rest IH]; intros i view H; simpl in *.
  - eauto.
  - destruct (setInt16_le_in_range view (i * 2) (Linear16.scaled_sample x))
      as (view' & -> & Hlen); [lia|].
    destruct (IH (S i) view') as (bytes & -> & Hb); [simpl; lia|].
    exists bytes. split; congruence.
Qed.

Lemma float32ToLinear16_total chunk :
  exists bytes, Linear16.float32ToLinear16 chunk = Normal bytes /\
                length bytes = (length chunk * 2)%nat.
Proof.
  unfold Linear16.float32ToLinear16, DataView.ArrayBuffer.
  destruct (encode_from_total chunk 0 (repeat 0 (length chunk * 2)))
    as (bytes & H & Hlen).
  - rewrite repeat_length. lia.
  - exists bytes. split; [exact H|]. now rewrite Hlen, repeat_length.
Qed.



(** ** The wire block *)

Lemma ToInt16_range (v : spec_float) : -32768 <= Number.ToInt16 v <= 32767.
Proof.
  unfold Number.ToInt16.
  destruct (Z.leb_spec 32768 (Number.truncate v mod 65536)) as [H|H];
    revert H; generalize (Number.truncate v); intros t H;
    Z.div_mod_to_equations; lia.
Qed.

Lemma setInt16_le_spec (view view' : list Z) (off : nat) (v : spec_float) :
  DataView.setInt16_le view off v = Normal view' ->
  length view' = length view /\
  DataView.getInt16_le view' off = Number.ToInt16 v /\
  (forall j, j <> off -> j <> S off -> view' !!! j = view !!! j) /\
  (Forall is_byte view -> Forall is_byte view').
Proof.
  unfold DataView.setInt16_le.
  destruct (Nat.leb_spec (off + 2) (length view)) as [Hlen|]; [|discriminate].
  intros [= <-]. pose proof (ToInt16_range v) as Hr.
  set (raw := Number.ToInt16 v mod 65536).
  assert (Hraw : 0 <= raw < 65536) by (apply Z.mod_pos_bound; lia).
  split; [now rewrite !length_insert|]. split; [|split].
  - unfold DataView.getInt16_le.
    rewrite list_lookup_total_insert_ne by lia.
    rewrite list_lookup_total_insert_eq by lia.
    rewrite list_lookup_total_insert_eq by (rewrite length_insert; lia).
    replace (raw mod 256 + 256 * (raw / 256)) with raw
      by (rewrite (Z.div_mod raw 256) at 1; lia).
    unfold raw in *.
    destruct (Z.leb_spec 32768 (Number.ToInt16 v mod 65536)) as [H|H];
      revert H Hr; generalize (Number.ToInt16 v); clear; intros t H Hr;
      Z.div_mod_to_equations; lia.
  - intros j H1 H2. now rewrite !list_lookup_total_insert_ne by lia.
  - intros Hb. apply Forall_insert; [apply Forall_insert; [exact Hb|]|].
    + unfold is_byte. apply Z.mod_pos_bound. lia.
    + unfold is_byte. split; [apply Z.div_pos; lia|].
      apply Z.div_lt_upper_bound; lia.
Qed.

Lemma encode_from_spec (rest : list spec_float) :
  forall (i : nat) (view bytes : list Z),
    Linear16.encode_from rest i view = Normal bytes ->
    length bytes = length view /\
    (forall j, (j < i * 2)%nat -> bytes !!! j = view !!! j) /\
    (forall k x, rest !! k = Some x ->
       DataView.getInt16_le bytes ((i + k) * 2) =
       Number.ToInt16 (Linear16.scaled_sample x)) /\
    (Forall is_byte view -> Forall is_byte bytes).
Proof.
  induction rest as [|x rest IH]; intros i view bytes E; simpl in E.
  - injection E as <-. repeat split; auto. intros k x H. now rewrite lookup_nil in H.
  - destruct (DataView.setInt16_le view (i * 2) (Linear16.scaled_sample x))
      as [view1|e] eqn:Eset; [|discriminate].
    destruct (setInt16_le_spec _ _ _ _ Eset) as (Hlen1 & Hget1 & Hkeep1 & Hb1).
    destruct (IH _ _ _ E) as (Hlen & Hkeep & Hget & Hb).
    split; [congruence|]. split; [|split].
    + intros j Hj. rewrite Hkeep by lia. apply Hkeep1; lia.
    + intros [|k] y Hy; simpl in Hy.
      * injection Hy as <-. rewrite Nat.add_0_r.
        unfold DataView.getInt16_le in *.
        rewrite !Hkeep by lia. exact Hget1.
      * replace ((i + S k) * 2)%nat with ((S i + k) * 2)%nat by lia. eauto.
    + auto.
Qed.

(** C3.  For every block of binary32 samples that are numbers, the
    encoder returns (it does not throw) a sequence of bytes of length
    exactly twice the number of samples, in which the i-th little-endian
    signed 16-bit value is the i-th sample clamped to [-1, 1] and then
    scaled by 32768 if the clamped sample is negative and by 32767
    otherwise, its fraction dropped; the empty block yields the empty
    sequence. *)
Theorem float32ToLinear16_encodes (chunk : list spec_float) :
  Forall (fun x => PCM.float32 x /\ x <> S754_nan) chunk ->
  exists bytes,
    Linear16.float32ToLinear16 chunk = Normal bytes /\
    length bytes = (2 * length chunk)%nat /\
    Forall is_byte bytes /\
    (forall i x, chunk !! i = Some x ->
       DataView.getInt16_le bytes (i * 2) =
         PCM.Qtruncate (PCM.scaled (PCM.clamped x)) /\
       -32768 <= DataView.getInt16_le bytes (i * 2) <= 32767) /\
    (chunk = [] -> bytes = []).
Proof.
  intros Hvalid.
  destruct (float32ToLinear16_total chunk) as (bytes & E & Hlen).
  exists bytes. split; [exact E|].
  unfold Linear16.float32ToLinear16 in E.
  destruct (encode_from_spec _ _ _ _ E) as (_ & _ & Hget & Hb).
  split; [lia|]. split; [|split].
  - apply Hb. unfold DataView.ArrayBuffer.
    apply Forall_forall. intros b Hin. apply list_elem_of_In, repeat_spec in Hin.
    subst b. unfold is_byte. lia.
  - intros i x Hx. specialize (Hget i x Hx). rewrite Nat.add_0_l in Hget.
    rewrite Hget.
    eapply Forall_lookup_1 in Hvalid as [Hf Hn]; [|exact Hx].
    destruct (scaled_sample_quantized x Hf Hn) as [-> Hr].
    split; [reflexivity|exact Hr].
  - intros ->. now destruct bytes.
Qed.

(** ** Decoding recovers the sample within one step *)

Lemma clamp_in_range (v : Q) : (-1 <= v)%Q -> (v <= 1)%Q -> PCM.clamp v = v.
Proof.
  intros Hlo Hhi. unfold PCM.clamp.
  destruct (Qlt_le_dec v (-1)) as [H|_]; [exfalso; eapply Qlt_not_le; eauto|].
  destruct (Qlt_le_dec 1 v) as [H|_]; [exfalso; eapply Qlt_not_le; eauto|].
  reflexivity.
Qed.

Lemma quot_bounds (a : Z) (d : positive) :
  exists r, a = Zpos d * Z.quot a (Zpos d) + r /\
            (0 <= a -> 0 <= r < Zpos d) /\ (a <= 0 -> - Zpos d < r <= 0).
Proof.
  exists (Z.rem a (Zpos d)). split; [apply Z.quot_rem'|]. split; intros Ha.
  - apply Z.rem_bound_pos; lia.
  - pose proof (Z.rem_bound_pos (- a) (Zpos d) ltac:(lia) ltac:(lia)) as H.
    rewrite Z.rem_opp_l in H by lia. lia.
Qed.

Lemma decode_of_quantized (v : Q) :
  (-1 <= v)%Q -> (v <= 1)%Q ->
  (Qabs (PCM.decode (PCM.Qtruncate (PCM.scaled v)) - v) <= 1 # 32767)%Q.
Proof.
  destruct v as [n d]. intros Hlo Hhi.
  unfold Qle in Hlo, Hhi. cbn [Qnum Qden] in Hlo, Hhi.
  unfold PCM.scaled.
  destruct (Qlt_le_dec (n # d) 0) as [Hneg|Hpos].
  - unfold Qlt in Hneg. cbn [Qnum Qden] in Hneg.
    unfold Qmult, PCM.Qtruncate. cbn [Qnum Qden].
    rewrite Pos.mul_1_r.
    destruct (quot_bounds (n * 32768) d) as (r & Hr & _ & Hrneg).
    specialize (Hrneg ltac:(lia)).
    set (k := Z.quot (n * 32768) (Zpos d)) in *.
    unfold PCM.decode.
    destruct (Z.ltb_spec k 0) as [Hk|Hk];
      unfold Qabs, Qminus, Qplus, Qopp, Qle; cbn [Qnum Qden];
      rewrite ?Pos2Z.inj_mul; lia.
  - unfold Qle in Hpos. cbn [Qnum Qden] in Hpos.
    unfold Qmult, PCM.Qtruncate. cbn [Qnum Qden].
    rewrite Pos.mul_1_r.
    destruct (quot_bounds (n * 32767) d) as (r & Hr & Hrpos & _).
    specialize (Hrpos ltac:(lia)).
    set (k := Z.quot (n * 32767) (Zpos d)) in *.
    unfold PCM.decode.
    destruct (Z.ltb_spec k 0) as [Hk|Hk];
      unfold Qabs, Qminus, Qplus, Qopp, Qle; cbn [Qnum Qden];
      rewrite ?Pos2Z.inj_mul; nia.
Qed.

(** C4.  For every sample of value [s] in [-1, 1], decoding the 16-bit
    integer the encoder produces (dividing by 32768 below zero and by
    32767 otherwise) gives back [s] to within one quantization step:
    the absolute difference is at most 1/32767. *)
Theorem decode_recovers_sample (x : spec_float) :
  PCM.float32 x -> finite x ->
  (-1 <= PCM.value x)%Q -> (PCM.value x <= 1)%Q ->
  (Qabs (PCM.decode (Number.ToInt16 (Linear16.scaled_sample x)) - PCM.value x)
     <= 1 # 32767)%Q.
Proof.
  intros Hv Hfin Hlo Hhi.
  assert (Hnan : x <> S754_nan) by (intros ->; exact Hfin).
  destruct (scaled_sample_quantized x Hv Hnan) as [-> _].
  unfold PCM.quantized.
  assert (Hc : PCM.clamped x = PCM.value x).
  { destruct x; try contradiction; unfold PCM.clamped; now apply clamp_in_range. }
  rewrite Hc. now apply decode_of_quantized.
Qed.

(** * The session, the capture and the coordinator *)

Import App Session.

Ltac run_js :=
  unfold bind, ret, gets, modify, lift, throw, try_catch, deref, emit, call; simpl.

(** Nested updates of a world, flattened. *)
Ltac flat :=
  cbv [set_sockets set_graphs set_micRequests set_socket set_mediaStream
       set_audioContext set_sourceNode set_processorNode set_isHolding
       set_trace set_calls
       sockets graphs micRequests socket mediaStream audioContext sourceNode
       processorNode isHolding trace calls].

Lemma sendAudioChunk_returns (chunk : list spec_float) (w : World) :
  exists bytes,
    Linear16.float32ToLinear16 chunk = Normal bytes /\
    sendAudioChunk chunk w =
      (Normal tt,
       if streaming w
       then match socket w with
            | Some ws => transmitted ws (WS.Binary bytes) w
            | None => w
            end
       else w).
Proof.
  destruct (float32ToLinear16_total chunk) as (bytes & Henc & _).
  exists bytes. split; [exact Henc|].
  unfold sendAudioChunk, isConnected, streaming, ws_readyState, ws_send,
    update_socket, transmitted, called.
  run_js.
  destruct (socket w) as [ws|] eqn:Hs; simpl; [|reflexivity].
  destruct (WS.readyState (the_socket w ws)) eqn:Hr; simpl; try reflexivity.
  rewrite Hs, Henc. run_js. unfold WS.send, the_socket in *. simpl.
  rewrite Hr. reflexivity.
Qed.

Lemma connect_returns (apiKey : JS.str) (w : World) :
  connect apiKey w =
    (if streaming w then (Normal AlreadyConnected, w)
     else if WS.acceptable [JS.lit "token"; apiKey]
          then (Normal (Opening (length (sockets w))), opened apiKey w)
          else (Throw SyntaxError,
                observed [ConsoleLog "[Deepgram] Connecting to:"] w)).
Proof.
  unfold connect, isConnected, streaming, ws_readyState, new_WebSocket,
    console_log, opened, observed.
  run_js.
  destruct (socket w) as [ws|]; simpl.
  - destruct (WS.is_open _); [reflexivity|].
    destruct (WS.acceptable _); reflexivity.
  - destruct (WS.acceptable _); reflexivity.
Qed.

Lemma stop_returns (w : World) :
  exists w',
    stop w = (Normal tt, w') /\
    released w' /\
    isActive w' = (Normal false, w') /\
    start w' =
      (Normal AwaitingMicrophone,
       set_micRequests (S (micRequests w')) (observed [GetUserMedia] w')) /\
    stop w' = (Normal tt, w') /\
    sockets w' = sockets w /\ socket w' = socket w /\ isHolding w' = isHolding w.
Proof.
  unfold stop, isActive, start, released, context_close, update_graph,
    the_graph, console_error, observed.
  run_js.
  destruct w as [ss gs mr so ms ac sn pn ih tr cs]; simpl.
  destruct pn, sn, ms, ac; simpl;
    repeat match goal with
      | |- context [if Media.contextClosed ?g then _ else _] =>
          destruct (Media.contextClosed g); simpl
      end;
    flat; eexists; (split; [reflexivity|]); simpl; repeat split.
Qed.
Lemma insert_total_same {A} `{Inhabited A} (l : list A) (i : nat) :
  <[i := l !!! i]> l = l.
Proof.
  destruct (decide (i < length l)%nat) as [Hlt|Hge].
  - apply list_insert_id. now apply list_lookup_lookup_total_lt.
  - apply list_insert_ge. lia.
Qed.

Lemma insert_total_twice {A} `{Inhabited A} (l : list A) (i : nat) (x : A) (f : A -> A) :
  (i < length l)%nat ->
  <[i := f ((<[i := x]> l) !!! i)]> (<[i := x]> l) = <[i := f x]> l.
Proof.
  intros Hlt. rewrite list_lookup_total_insert_eq by exact Hlt.
  apply list_insert_insert_eq.
Qed.

Lemma set_sockets_same w : set_sockets (sockets w) w = w.
Proof. now destruct w. Qed.

Lemma finalizeAndClose_returns (w : World) :
  finalizeAndClose w = (Normal tt, finalized w).
Proof.
  unfold finalizeAndClose, finalized, observed, called, ws_send, ws_close,
    update_socket, console_error, WS.send, the_socket.
  run_js.
  destruct (socket w) as [ws|] eqn:Hs; simpl; [|reflexivity].
  destruct (WS.readyState (sockets w !!! ws)) eqn:Hr; simpl; rewrite ?Hs; simpl;
    rewrite <- ?app_assoc; simpl.
  - reflexivity.
  - destruct (decide (ws < length (sockets w))%nat) as [Hlt|Hge].
    + now rewrite insert_total_twice.
    + rewrite list_lookup_total_alt, lookup_ge_None_2 in Hr by lia.
      discriminate Hr.
  - rewrite !insert_total_same. unfold WS.close. rewrite Hr.
    rewrite insert_total_same. now destruct w.
  - rewrite !insert_total_same. unfold WS.close. rewrite Hr.
    rewrite insert_total_same. now destruct w.
Qed.
(** ** The network invariant *)

Lemma wire_in_order_audio l : Forall is_audio l -> wire_in_order l.
Proof. intros H. exists l. auto. Qed.

Lemma wire_in_order_nil : wire_in_order [].
Proof. apply wire_in_order_audio. constructor. Qed.

Lemma inv_initial : inv initial.
Proof.
  split; simpl.
  - discriminate.
  - intros ws s H. now rewrite lookup_nil in H.
  - intros ws s H. now rewrite lookup_nil in H.
  - intros ws s H. now rewrite lookup_nil in H.
Qed.

(** A new socket, as [connect] creates it. *)
Lemma net_inv_open ss so p b q :
  net_inv ss so ->
  net_inv (ss ++ [WS.mk (URL.toString listen_url) p b WS.CONNECTING [] q]) so.
Proof.
  intros [H1 H2 H3 H4]. split.
  - intros ws Hso. destruct (H1 ws Hso) as (s & Hs & Hr & Ha).
    exists s. split; [|auto]. now apply lookup_app_l_Some.
  - intros ws s Hs. apply lookup_app_Some in Hs as [Hs|[_ Hs]]; [eauto|].
    apply list_lookup_singleton_Some in Hs as [_ <-]. apply wire_in_order_nil.
  - intros ws s Hs Hr. apply lookup_app_Some in Hs as [Hs|[_ Hs]]; [eauto|].
    apply list_lookup_singleton_Some in Hs as [_ <-]. reflexivity.
  - intros ws s Hs. apply lookup_app_Some in Hs as [Hs|[_ Hs]]; [eauto|].
    apply list_lookup_singleton_Some in Hs as [_ <-]. reflexivity.
Qed.

(** Replacing a socket by one with the same state and wire. *)
Lemma net_inv_same ss so ws s s' :
  net_inv ss so -> ss !! ws = Some s ->
  WS.readyState s' = WS.readyState s -> WS.wire s' = WS.wire s ->
  WS.url s' = WS.url s ->
  net_inv (<[ws := s']> ss) so.
Proof.
  intros [H1 H2 H3 H4] Hs Hr Hw Hu. split.
  - intros i Hso. destruct (H1 i Hso) as (t & Ht & Htr & Hta).
    destruct (decide (i = ws)) as [->|Hne].
    + exists s'. rewrite list_lookup_insert_eq by (eapply lookup_lt_Some; eauto).
      replace t with s in * by congruence. rewrite Hr, Hw. auto.
    + exists t. rewrite list_lookup_insert_ne by congruence. auto.
  - intros i t Ht. destruct (decide (i = ws)) as [->|Hne].
    + rewrite list_lookup_insert_eq in Ht by (eapply lookup_lt_Some; eauto).
      injection Ht as <-. rewrite Hw. eauto.
    + rewrite list_lookup_insert_ne in Ht by congruence. eauto.
  - intros i t Ht Htr. destruct (decide (i = ws)) as [->|Hne].
    + rewrite list_lookup_insert_eq in Ht by (eapply lookup_lt_Some; eauto).
      injection Ht as <-. rewrite Hw. rewrite Hr in Htr. eauto.
    + rewrite list_lookup_insert_ne in Ht by congruence. eauto.
  - intros i t Ht. destruct (decide (i = ws)) as [->|Hne].
    + rewrite list_lookup_insert_eq in Ht by (eapply lookup_lt_Some; eauto).
      injection Ht as <-. rewrite Hu. eauto.
    + rewrite list_lookup_insert_ne in Ht by congruence. eauto.
Qed.

(** The transport moves a socket to a later state. *)
Lemma net_inv_state ss so ws s r :
  net_inv ss so -> ss !! ws = Some s -> r <> WS.CONNECTING ->
  net_inv (<[ws := WS.set_readyState r s]> ss) so.
Proof.
  intros [H1 H2 H3 H4] Hs Hr. split.
  - intros i Hso. destruct (H1 i Hso) as (t & Ht & Htr & Hta).
    destruct (decide (i = ws)) as [->|Hne].
    + exists (WS.set_readyState r s).
      rewrite list_lookup_insert_eq by (eapply lookup_lt_Some; eauto).
      replace t with s in * by congruence. auto.
    + exists t. rewrite list_lookup_insert_ne by congruence. auto.
  - intros i t Ht. destruct (decide (i = ws)) as [->|Hne].
    + rewrite list_lookup_insert_eq in Ht by (eapply lookup_lt_Some; eauto).
      injection Ht as <-. simpl. eauto.
    + rewrite list_lookup_insert_ne in Ht by congruence. eauto.
  - intros i t Ht Htr. destruct (decide (i = ws)) as [->|Hne].
    + rewrite list_lookup_insert_eq in Ht by (eapply lookup_lt_Some; eauto).
      injection Ht as <-. simpl in Htr. contradiction.
    + rewrite list_lookup_insert_ne in Ht by congruence. eauto.
  - intros i t Ht. destruct (decide (i = ws)) as [->|Hne].
    + rewrite list_lookup_insert_eq in Ht by (eapply lookup_lt_Some; eauto).
      injection Ht as <-. simpl. eauto.
    + rewrite list_lookup_insert_ne in Ht by congruence. eauto.
Qed.

(** The client drops its handle. *)
Lemma net_inv_drop ss so : net_inv ss so -> net_inv ss None.
Proof. intros [H1 H2 H3 H4]. split; [discriminate|auto|auto|auto]. Qed.

(** The client adopts a socket whose handshake has just completed. *)
Lemma net_inv_adopt ss so ws s :
  net_inv ss so -> ss !! ws = Some s ->
  WS.readyState s <> WS.CONNECTING -> WS.wire s = [] ->
  net_inv ss (Some ws).
Proof.
  intros [H1 H2 H3 H4] Hs Hr Hw. split; [|auto|auto|auto].
  intros i [= <-]. exists s. rewrite Hw. auto.
Qed.

(** The held socket transmits an audio frame. *)
Lemma net_inv_audio ss ws s payload :
  net_inv ss (Some ws) -> ss !! ws = Some s ->
  WS.readyState s = WS.OPEN ->
  net_inv (<[ws := WS.push_wire (WS.Sent (WS.Binary payload)) s]> ss) (Some ws).
Proof.
  intros [H1 H2 H3 H4] Hs Hr.
  destruct (H1 ws eq_refl) as (t & Ht & Htr & Hta).
  replace t with s in * by congruence.
  assert (Hnew : Forall is_audio (WS.wire s ++ [WS.Sent (WS.Binary payload)])).
  { apply Forall_app. split; [exact Hta|]. repeat constructor. now exists payload. }
  split.
  - intros i [= <-]. eexists.
    rewrite list_lookup_insert_eq by (eapply lookup_lt_Some; eauto).
    split; [reflexivity|]. simpl. auto.
  - intros i u Hu. destruct (decide (i = ws)) as [->|Hne].
    + rewrite list_lookup_insert_eq in Hu by (eapply lookup_lt_Some; eauto).
      injection Hu as <-. simpl. now apply wire_in_order_audio.
    + rewrite list_lookup_insert_ne in Hu by congruence. eauto.
  - intros i u Hu Hur. destruct (decide (i = ws)) as [->|Hne].
    + rewrite list_lookup_insert_eq in Hu by (eapply lookup_lt_Some; eauto).
      injection Hu as <-. simpl in Hur. congruence.
    + rewrite list_lookup_insert_ne in Hu by congruence. eauto.
  - intros i u Hu. destruct (decide (i = ws)) as [->|Hne].
    + rewrite list_lookup_insert_eq in Hu by (eapply lookup_lt_Some; eauto).
      injection Hu as <-. simpl. eauto.
    + rewrite list_lookup_insert_ne in Hu by congruence. eauto.
Qed.

(** The held socket sends Finalize and starts closing; the handle goes. *)
Lemma net_inv_finalize ss ws s :
  net_inv ss (Some ws) -> ss !! ws = Some s ->
  WS.readyState s = WS.OPEN ->
  net_inv (<[ws := WS.close (WS.push_wire Finalize s)]> ss) None.
Proof.
  intros [H1 H2 H3 H4] Hs Hr.
  destruct (H1 ws eq_refl) as (t & Ht & Htr & Hta).
  replace t with s in * by congruence.
  unfold WS.close. simpl. rewrite Hr.
  split.
  - discriminate.
  - intros i u Hu. destruct (decide (i = ws)) as [->|Hne].
    + rewrite list_lookup_insert_eq in Hu by (eapply lookup_lt_Some; eauto).
      injection Hu as <-. simpl. exists (WS.wire s). split; [exact Hta|].
      right. now rewrite <- app_assoc.
    + rewrite list_lookup_insert_ne in Hu by congruence. eauto.
  - intros i u Hu Hur. destruct (decide (i = ws)) as [->|Hne].
    + rewrite list_lookup_insert_eq in Hu by (eapply lookup_lt_Some; eauto).
      injection Hu as <-. simpl in Hur. discriminate.
    + rewrite list_lookup_insert_ne in Hu by congruence. eauto.
  - intros i u Hu. destruct (decide (i = ws)) as [->|Hne].
    + rewrite list_lookup_insert_eq in Hu by (eapply lookup_lt_Some; eauto).
      injection Hu as <-. simpl. eauto.
    + rewrite list_lookup_insert_ne in Hu by congruence. eauto.
Qed.

Lemma held_socket w ws :
  inv w -> socket w = Some ws ->
  sockets w !! ws = Some (the_socket w ws) /\
  WS.readyState (the_socket w ws) <> WS.CONNECTING.
Proof.
  intros [H1 _ _ _] Hso. destruct (H1 ws Hso) as (s & Hs & Hr & _).
  unfold the_socket. rewrite list_lookup_total_alt, Hs. simpl. auto.
Qed.

Lemma inv_finalized w : inv w -> inv (finalized w).
Proof.
  intros Hinv. unfold finalized, inv.
  destruct (socket w) as [ws|] eqn:Hso; [|exact Hinv].
  destruct (held_socket w ws Hinv Hso) as [Hs Hr].
  unfold inv in Hinv. rewrite Hso in Hinv.
  destruct (WS.readyState (the_socket w ws)) eqn:Hrs; simpl.
  - congruence.
  - now apply net_inv_finalize.
  - eapply net_inv_drop; eauto.
  - eapply net_inv_drop; eauto.
Qed.
Lemma observed_nil w : observed [] w = w.
Proof. unfold observed. rewrite app_nil_r. now destruct w. Qed.

Lemma observed_observed a b w : observed b (observed a w) = observed (a ++ b) w.
Proof. unfold observed. simpl. now rewrite app_assoc. Qed.

Lemma emit_observed e w : emit e w = (Normal tt, observed [e] w).
Proof. reflexivity. Qed.

Lemma length_trimmed_pos (s : list N) :
  (0 <? length s)%nat = negb (bool_decide (s = [])).
Proof. now destruct s. Qed.

Ltac settle_cases :=
  eexists; split; [reflexivity|];
  split; [intros ?; simpl; intuition discriminate|];
  repeat split; intros;
  repeat match goal with
    | H : Some _ = Some _ |- _ => injection H as H; subst
    | H : Normal _ = Normal _ |- _ => injection H as H; subst
    end;
  try congruence; try reflexivity; try (simpl; congruence).

Section Inbound.

Variable JSON_parse : JS.str -> option JS.value.
Variable toLowerCase : JS.str -> JS.str.
Variable Number_toString : spec_float -> JS.str.

Abbreviation ws_onmessage := (ws_onmessage JSON_parse toLowerCase Number_toString).
Abbreviation message_type := (message_type Number_toString).

Lemma ws_onmessage_returns (event_data : MessageData) (w : World) :
  exists new,
    ws_onmessage event_data w = (Normal tt, observed new w) /\
    (forall e, ~ In (Uncaught e) new) /\
    (JSON_parse (data_toString event_data) = None ->
       new = [ConsoleError "Failed to parse Deepgram message"]) /\
    (forall data e,
        JSON_parse (data_toString event_data) = Some data ->
        message_type data = Throw e ->
        sink_calls new = []) /\
    (forall data type,
        JSON_parse (data_toString event_data) = Some data ->
        message_type data = Normal type ->
        toLowerCase type <> JS.lit "results" ->
        sink_calls new = []) /\
    (forall data type text,
        JSON_parse (data_toString event_data) = Some data ->
        message_type data = Normal type ->
        toLowerCase type = JS.lit "results" ->
        first_transcript data = Normal (Some (JS.Str text)) ->
        JS.trim text <> [] ->
        sink_calls new = [text]).
Proof.
  unfold App.ws_onmessage, call_trim, onTranscript, ui_appendText,
    console_log, console_error.
  unfold try_catch, bind, lift, ret, throw.
  destruct (JSON_parse (data_toString event_data)) as [data|] eqn:Hparse.
  2:{ rewrite emit_observed. settle_cases. }
  rewrite emit_observed.
  destruct (message_type data) as [type|e] eqn:Htype.
  2:{ rewrite emit_observed, observed_observed. settle_cases. }
  destruct (bool_decide (toLowerCase type = JS.lit "results")) eqn:Hres.
  2:{ apply bool_decide_eq_false in Hres. settle_cases. }
  apply bool_decide_eq_true in Hres.
  destruct (first_transcript data) as [transcript|e] eqn:Hfirst.
  2:{ rewrite emit_observed, observed_observed. settle_cases. }
  rewrite !emit_observed, !observed_observed.
  destruct transcript as [[|b|n|text|items|props]|]; simpl;
    try destruct b; try destruct n; simpl;
    rewrite ?emit_observed, ?observed_observed; try settle_cases.
  rewrite length_trimmed_pos.
  destruct (decide (JS.trim text = [])) as [He|Hne].
  - rewrite (bool_decide_eq_true_2 _ He).
    destruct (bool_decide (text = [])); simpl; settle_cases.
  - rewrite (bool_decide_eq_false_2 _ Hne).
    assert (Htext : text <> []) by (intros ->; now apply Hne).
    rewrite (bool_decide_eq_false_2 _ Htext). cbn [negb].
    rewrite emit_observed, observed_observed. settle_cases.
Qed.

End Inbound.
(** ** Sequencing *)

Lemma bind_returns {A B} (m : M A) (k : A -> M B) w a w' :
  m w = (Normal a, w') -> bind m k w = k a w'.
Proof. intros E. unfold bind. now rewrite E. Qed.

Lemma bind_gets {A B} (f : World -> A) (k : A -> M B) w :
  bind (gets f) k w = k (f w) w.
Proof. reflexivity. Qed.

Lemma bind_modify {B} (f : World -> World) (k : unit -> M B) w :
  bind (modify f) k w = k tt (f w).
Proof. reflexivity. Qed.

Lemma bind_emit {B} (e : Effect) (k : unit -> M B) w :
  bind (emit e) k w = k tt (observed [e] w).
Proof. reflexivity. Qed.

(** ** Method bodies that leave the network alone *)

Lemma quiet_ret {A} (a : A) : quiet (ret a).
Proof. intros w. exists a, w. auto. Qed.

Lemma quiet_bind {A B} (m : M A) (k : A -> M B) :
  quiet m -> (forall a, quiet (k a)) -> quiet (bind m k).
Proof.
  intros Hm Hk w. destruct (Hm w) as (a & w1 & E1 & S1 & H1 & I1).
  destruct (Hk a w1) as (b & w2 & E2 & S2 & H2 & I2).
  exists b, w2. unfold bind. rewrite E1, E2. repeat split; congruence.
Qed.

Lemma quiet_emit e : quiet (emit e).
Proof. intros w. eexists _, _. split; [reflexivity|]. auto. Qed.

Lemma quiet_start : quiet start.
Proof.
  intros w. unfold start, isActive, bind, gets, ret, emit, modify. simpl.
  destruct (audioContext w); simpl; eexists _, _; (split; [reflexivity|]); auto.
Qed.

Lemma quiet_start_resumed rate : quiet (start_resumed rate).
Proof.
  intros w. unfold start_resumed, new_graph, update_graph.
  run_js. eexists _, _. split; [reflexivity|]. auto.
Qed.

Lemma quiet_stop : quiet stop.
Proof.
  intros w. destruct (stop_returns w) as (w' & E & _ & _ & _ & _ & S & H & I).
  exists tt, w'. auto.
Qed.

Lemma quiet_startPushToTalk_listening : quiet startPushToTalk_listening.
Proof. apply quiet_emit. Qed.

Lemma quiet_startPushToTalk_connected : quiet startPushToTalk_connected.
Proof.
  apply quiet_bind; [apply quiet_start|].
  intros [|]; [apply quiet_startPushToTalk_listening|apply quiet_ret].
Qed.

Lemma quiet_inv {A} (m : M A) w :
  quiet m -> inv w -> inv (snd (m w)).
Proof.
  intros Hq Hinv. destruct (Hq w) as (a & w' & -> & S & H & _).
  unfold inv. simpl. now rewrite S, H.
Qed.

Lemma quiet_run_task (m : M unit) w :
  quiet m -> inv w -> inv (run_task m w).
Proof.
  intros Hq Hinv. unfold run_task.
  destruct (Hq w) as (a & w' & -> & S & H & _).
  unfold inv. now rewrite S, H.
Qed.

(** ** The invariant holds in every reachable state *)

Lemma inv_observed new w : inv (observed new w) <-> inv w.
Proof. reflexivity. Qed.

Section Reachable.

Variable apiKey : JS.str.
Variable JSON_parse : JS.str -> option JS.value.
Variable toLowerCase : JS.str -> JS.str.
Variable Number_toString : spec_float -> JS.str.

Abbreviation startPushToTalk := (startPushToTalk apiKey).
Abbreviation react := (react apiKey JSON_parse toLowerCase Number_toString).
Abbreviation step := (step apiKey JSON_parse toLowerCase Number_toString).
Abbreviation run := (run apiKey JSON_parse toLowerCase Number_toString).
Abbreviation reachable := (reachable apiKey JSON_parse toLowerCase Number_toString).

(** The first [try] of [startPushToTalk] with its [catch]. *)
Lemma connect_attempt w :
  try_catch (bind (connect apiKey) (fun c => ret (Some c)))
    (fun _ => bind startPushToTalk_connect_failed (fun _ => ret None)) w =
  (if streaming w then (Normal (Some AlreadyConnected), w)
   else if WS.acceptable [JS.lit "token"; apiKey]
        then (Normal (Some (Opening (length (sockets w)))), opened apiKey w)
        else (Normal None,
              observed
                [ConsoleLog "[Deepgram] Connecting to:";
                 ConsoleError "Deepgram connection error";
                 UiSetError "Failed to connect to Deepgram. Check API key and internet.";
                 UiSetStatus error "Deepgram connection error"]
                (set_isHolding false w))).
Proof.
  unfold try_catch, bind at 1. rewrite connect_returns.
  destruct (streaming w); [reflexivity|].
  destruct (WS.acceptable _); [reflexivity|].
  unfold startPushToTalk_connect_failed, console_error, ui_setError, ui_setStatus.
  rewrite bind_returns with (a := tt)
    (w' := observed [UiSetError "Failed to connect to Deepgram. Check API key and internet.";
                     UiSetStatus error "Deepgram connection error"]
             (set_isHolding false
                (observed [ConsoleError "Deepgram connection error"]
                   (observed [ConsoleLog "[Deepgram] Connecting to:"] w)))).
  - unfold ret, observed. simpl. now rewrite <- !app_assoc.
  - rewrite bind_emit, bind_modify, bind_emit, emit_observed, observed_observed.
    reflexivity.
Qed.

(** Every task runs to its end: none leaves an uncaught exception. *)
Lemma startPushToTalk_returns w :
  exists w', startPushToTalk w = (Normal tt, w') /\
    (inv w -> inv w') /\
    (isHolding w = true -> w' = w) /\
    (length (sockets w) < length (sockets w') ->
       isHolding w = false /\ streaming w = false)%nat.
Proof.
  unfold App.startPushToTalk, ui_clearError, ui_setStatus.
  unfold bind at 1. unfold gets at 1.
  destruct (isHolding w) eqn:Hh.
  { exists w. split; [reflexivity|]. split; [auto|]. split; [auto|]. intros Hlt. lia. }
  unfold bind at 1. unfold modify at 1.
  unfold bind at 1. rewrite emit_observed.
  unfold bind at 1. rewrite emit_observed, observed_observed.
  unfold bind at 1. rewrite connect_attempt.
  set (w1 := observed _ _).
  assert (Hstr : streaming w1 = streaming w) by reflexivity.
  destruct (streaming w1) eqn:Hs1.
  - destruct (quiet_startPushToTalk_connected w1) as ([] & w2 & E & S & H & I).
    exists w2. split; [exact E|]. split; [|split].
    + intros Hinv. unfold inv. rewrite S, H. exact Hinv.
    + discriminate.
    + intros Hlt. rewrite S in Hlt. subst w1. simpl in Hlt. lia.
  - destruct (WS.acceptable _).
    + eexists. split; [reflexivity|]. split; [|split].
      * intros Hinv. unfold inv, opened, observed. simpl. now apply net_inv_open.
      * discriminate.
      * intros _. split; congruence.
    + eexists. split; [reflexivity|]. split; [|split].
      * intros Hinv. exact Hinv.
      * discriminate.
      * intros _. split; congruence.
Qed.

Lemma stopPushToTalk_returns w :
  exists w1,
    stop (set_isHolding false w) = (Normal tt, w1) /\
    stopPushToTalk w =
      (Normal tt,
       if isHolding w then observed [UiSetStatus idle "Idle"] (finalized w1) else w).
Proof.
  destruct (stop_returns (set_isHolding false w)) as (w1 & E & _).
  exists w1. split; [exact E|].
  unfold stopPushToTalk, detached, ui_setStatus.
  rewrite bind_gets.
  destruct (isHolding w); [|reflexivity]. cbn [negb].
  rewrite bind_modify, (bind_returns _ _ _ _ _ E).
  erewrite bind_returns.
  2:{ unfold try_catch. rewrite finalizeAndClose_returns. reflexivity. }
  now rewrite emit_observed.
Qed.

Lemma inv_set_isHolding b w : inv (set_isHolding b w) <-> inv w.
Proof. reflexivity. Qed.

Lemma inv_stopPushToTalk w : inv w -> inv (snd (stopPushToTalk w)).
Proof.
  intros Hinv. destruct (stopPushToTalk_returns w) as (w1 & E & ->). simpl.
  destruct (isHolding w); [|exact Hinv].
  apply inv_observed, inv_finalized.
  pose proof (quiet_inv stop (set_isHolding false w) quiet_stop) as H.
  rewrite E in H. apply H. exact Hinv.
Qed.

Lemma steady_quiet {A} (m : M A) : quiet m -> steady m.
Proof.
  intros Hq w Hinv. destruct (Hq w) as (a & w' & E & S & H & _).
  exists a, w'. split; [exact E|]. unfold inv. now rewrite S, H.
Qed.

Lemma steady_bind {A B} (m : M A) (k : A -> M B) :
  steady m -> (forall a, steady (k a)) -> steady (bind m k).
Proof.
  intros Hm Hk w Hinv. destruct (Hm w Hinv) as (a & w1 & E1 & Hinv1).
  destruct (Hk a w1 Hinv1) as (b & w2 & E2 & Hinv2).
  exists b, w2. split; [|exact Hinv2]. now rewrite (bind_returns _ _ _ _ _ E1).
Qed.

Lemma steady_update ws (f : WS.WebSocket -> WS.WebSocket) :
  (forall s, WS.wire (f s) = WS.wire s) ->
  (forall s, WS.url (f s) = WS.url s) ->
  (forall s, WS.readyState (f s) = WS.readyState s \/
             WS.readyState (f s) <> WS.CONNECTING /\ f s = WS.set_readyState (WS.readyState (f s)) s) ->
  steady (update_socket ws f).
Proof.
  intros Hw Hu Hr w Hinv. eexists tt, _. split; [reflexivity|].
  unfold inv, the_socket in *. simpl.
  destruct (decide (ws < length (sockets w))%nat) as [Hlt|Hge].
  - pose proof (list_lookup_lookup_total_lt _ _ Hlt) as Hs.
    destruct (Hr (sockets w !!! ws)) as [Hsame|[Hne ->]].
    + eapply net_inv_same; eauto.
    + eapply net_inv_state; eauto.
  - rewrite list_insert_ge by lia. exact Hinv.
Qed.

Lemma steady_set_state ws r :
  r <> WS.CONNECTING -> steady (update_socket ws (WS.set_readyState r)).
Proof.
  intros Hr. apply steady_update; [reflexivity|reflexivity|].
  intros s. right. split; [exact Hr|reflexivity].
Qed.

Lemma steady_settle ws p : steady (settle ws p).
Proof.
  unfold settle. apply steady_bind.
  - apply steady_quiet. intros w. eexists _, _. split; [reflexivity|]. auto.
  - intros [| |]; try (apply steady_quiet, quiet_ret).
    apply steady_bind; [|intros _; apply steady_quiet, quiet_ret].
    apply steady_update; [reflexivity|reflexivity|]. intros s. now left.
Qed.

Lemma steady_drop : steady (modify (set_socket None)).
Proof.
  intros w Hinv. eexists tt, _. split; [reflexivity|].
  unfold inv in *. simpl. eapply net_inv_drop; eauto.
Qed.

Lemma steady_finalizeAndClose : steady finalizeAndClose.
Proof.
  intros w Hinv. exists tt, (finalized w).
  split; [apply finalizeAndClose_returns|now apply inv_finalized].
Qed.


Lemma steady_sendAudioChunk chunk : steady (sendAudioChunk chunk).
Proof.
  intros w Hinv.
  destruct (sendAudioChunk_returns chunk w) as (bytes & _ & E).
  eexists tt, _. split; [exact E|].
  unfold streaming. destruct (socket w) as [ws|] eqn:Hso; [|exact Hinv].
  destruct (held_socket w ws Hinv Hso) as [Hs Hr].
  destruct (WS.readyState (the_socket w ws)) eqn:Hrs; simpl; try exact Hinv.
  unfold inv, transmitted in *. simpl. rewrite Hso in *.
  now apply net_inv_audio.
Qed.

Lemma steady_emit e : steady (emit e).
Proof. apply steady_quiet, quiet_emit. Qed.

Lemma steady_ret {A} (a : A) : steady (ret a).
Proof. apply steady_quiet, quiet_ret. Qed.

Lemma steady_modify (f : World -> World) :
  (forall w, sockets (f w) = sockets w /\ socket (f w) = socket w) ->
  steady (modify f).
Proof.
  intros Hf w Hinv. eexists tt, _. split; [reflexivity|].
  destruct (Hf w) as [S H]. unfold inv. now rewrite S, H.
Qed.

Lemma steady_ws_onmessage data :
  steady (ws_onmessage JSON_parse toLowerCase Number_toString data).
Proof.
  intros w Hinv.
  destruct (ws_onmessage_returns JSON_parse toLowerCase Number_toString data w)
    as (new & E & _).
  eexists tt, _. split; [exact E|]. exact Hinv.
Qed.

Lemma steady_set_isHolding b : steady (modify (set_isHolding b)).
Proof. apply steady_modify. auto. Qed.

Create HintDb steady.

#[local] Hint Resolve steady_emit steady_ret steady_settle steady_drop
  steady_finalizeAndClose steady_sendAudioChunk steady_ws_onmessage
  steady_set_isHolding : steady.

Ltac prove_steady :=
  repeat first [ solve [auto with steady] | apply steady_bind; [|intros ?] ].

Lemma steady_ws_onerror ws : steady (ws_onerror ws).
Proof.
  unfold ws_onerror, onError, console_error, ui_setError, ui_setStatus.
  prove_steady.
Qed.

Lemma steady_ws_onclose ws : steady (ws_onclose ws).
Proof.
  unfold ws_onclose, console_log.
  prove_steady.
Qed.

Lemma steady_startPushToTalk_connect_failed : steady startPushToTalk_connect_failed.
Proof.
  unfold startPushToTalk_connect_failed, console_error, ui_setError, ui_setStatus.
  prove_steady.
Qed.

Lemma steady_startPushToTalk_microphone_failed :
  steady startPushToTalk_microphone_failed.
Proof.
  unfold startPushToTalk_microphone_failed, console_error, ui_setError, ui_setStatus.
  prove_steady.
Qed.

Lemma steady_startPushToTalk : steady startPushToTalk.
Proof.
  intros w Hinv. destruct (startPushToTalk_returns w) as (w' & E & H & _).
  exists tt, w'. auto.
Qed.

Lemma steady_stopPushToTalk : steady stopPushToTalk.
Proof.
  intros w Hinv. pose proof (inv_stopPushToTalk w Hinv) as H.
  destruct (stopPushToTalk_returns w) as (w1 & _ & E). rewrite E in H.
  eexists tt, _. split; [exact E|exact H].
Qed.

(** The handshake of a connecting socket completes: the transport opens
    it and [onopen] hands it to the client. *)
Lemma opened_and_adopted ws w :
  inv w -> enabled (WsOpened ws) w = true ->
  exists w',
    bind (update_socket ws (WS.set_readyState WS.OPEN))
      (fun _ => bind (console_log "[Deepgram] WebSocket open")
         (fun _ => modify (set_socket (Some ws)))) w = (Normal tt, w') /\
    inv w'.
Proof.
  intros Hinv Hen. eexists. split; [reflexivity|].
  simpl in Hen. apply andb_true_iff in Hen as [Hlt Hr].
  unfold exists_socket in Hlt. apply Nat.ltb_lt in Hlt.
  pose proof (list_lookup_lookup_total_lt _ _ Hlt) as Hs.
  unfold the_socket in *.
  destruct (WS.readyState (sockets w !!! ws)) eqn:Hrs; try discriminate.
  unfold inv in *. simpl.
  eapply net_inv_adopt.
  - eapply net_inv_state; eauto; discriminate.
  - apply list_lookup_insert_eq. exact Hlt.
  - discriminate.
  - simpl. eapply connecting_is_silent; eauto.
Qed.

Lemma react_steady ev w :
  inv w -> enabled ev w = true ->
  exists w', react ev w = (Normal tt, w') /\ inv w'.
Proof.
  intros Hinv Hen.
  assert (Hsteady : forall m : M unit, steady m ->
            exists w', m w = (Normal tt, w') /\ inv w').
  { intros m Hm. destruct (Hm w Hinv) as ([] & w' & E & H). eauto. }
  destruct ev as [| |ws|ws|ws failed|ws data|rate| |g chunk]; simpl.
  - apply Hsteady, steady_startPushToTalk.
  - apply Hsteady, steady_stopPushToTalk.
  - destruct (opened_and_adopted ws w Hinv Hen) as (w1 & E1 & Hinv1).
    unfold ws_onopen.
    assert (Hrest : steady (bind (settle ws WS.Fulfilled)
              (fun fulfilled : bool =>
                 if fulfilled then startPushToTalk_connected else ret tt))).
    { apply steady_bind; [auto with steady|].
      intros [|]; [apply steady_quiet, quiet_startPushToTalk_connected|auto with steady]. }
    destruct (Hrest w1 Hinv1) as ([] & w2 & E2 & Hinv2).
    exists w2. split; [|exact Hinv2].
    rewrite <- E2. unfold bind in E1 |- *.
    destruct (update_socket ws (WS.set_readyState WS.OPEN) w) as [[[]|e] w0];
      [|discriminate].
    destruct (console_log "[Deepgram] WebSocket open" w0) as [[[]|e] w0'];
      [|discriminate].
    destruct (modify (set_socket (Some ws)) w0') as [[[]|e] w0''];
      [|discriminate].
    injection E1 as ->. reflexivity.
  - apply Hsteady, steady_set_state. discriminate.
  - apply Hsteady.
    apply steady_bind; [apply steady_set_state; discriminate|intros _].
    apply steady_bind; [|intros _; apply steady_ws_onclose].
    destruct failed; [|auto with steady].
    apply steady_bind; [apply steady_ws_onerror|].
    intros [|]; [apply steady_startPushToTalk_connect_failed|auto with steady].
  - apply Hsteady. auto with steady.
  - apply Hsteady.
    apply steady_bind; [apply steady_modify; auto|intros _].
    apply steady_bind; [apply steady_quiet, quiet_start_resumed|intros _].
    apply steady_quiet, quiet_startPushToTalk_listening.
  - apply Hsteady.
    apply steady_bind; [apply steady_modify; auto|intros _].
    apply steady_startPushToTalk_microphone_failed.
  - apply Hsteady. unfold onaudioprocess, onChunk. auto with steady.
Qed.

(** No task ends with an uncaught exception, and each keeps the invariant. *)
Lemma step_inv ev w w' : inv w -> step ev w = Some w' -> inv w'.
Proof.
  intros Hinv Hstep. unfold App.step in Hstep.
  destruct (enabled ev w) eqn:Hen; [|discriminate].
  destruct (react_steady ev w Hinv Hen) as (w1 & E & Hinv1).
  unfold run_task in Hstep. rewrite E in Hstep. now injection Hstep as <-.
Qed.

Lemma reachable_inv w : reachable w -> inv w.
Proof.
  induction 1 as [|w w' ev _ IH Hstep]; [apply inv_initial|].
  eapply step_inv; eauto.
Qed.

Lemma run_reachable evs : forall w w',
  reachable w -> run evs w = Some w' -> reachable w'.
Proof.
  induction evs as [|ev evs IH]; intros w w' Hr Hrun; simpl in Hrun.
  - now injection Hrun as <-.
  - destruct (step ev w) as [w1|] eqn:Hstep; [|discriminate].
    eapply IH; [|exact Hrun]. econstructor; eauto.
Qed.

End Reachable.
(** ** Order on the wire *)

Lemma Finalize_not_audio : ~ is_audio Finalize.
Proof. intros [payload H]. discriminate H. Qed.

Lemma CloseStarted_not_audio : ~ is_audio WS.CloseStarted.
Proof. intros [payload H]. discriminate H. Qed.

Lemma split_at_Finalize audio : forall before after,
  Forall is_audio audio ->
  audio ++ [Finalize; WS.CloseStarted] = before ++ Finalize :: after ->
  before = audio /\ after = [WS.CloseStarted].
Proof.
  induction audio as [|a audio IH]; intros before after Ha E.
  - destruct before as [|b before]; simpl in E.
    + injection E as <-. auto.
    + injection E as <- E. destruct before as [|b' before]; simpl in E.
      * discriminate E.
      * injection E as _ E. now destruct before.
  - apply Forall_cons in Ha as [Ha Haudio].
    destruct before as [|b before]; simpl in E.
    + injection E as -> _. now elim Finalize_not_audio.
    + injection E as <- E. destruct (IH _ _ Haudio E) as [-> ->]. auto.
Qed.

Lemma after_Finalize l before after :
  wire_in_order l -> l = before ++ Finalize :: after ->
  Forall is_audio before /\ after = [WS.CloseStarted].
Proof.
  intros (audio & Ha & [->| ->]) E.
  - exfalso. apply Finalize_not_audio.
    rewrite E in Ha. apply Forall_app in Ha as [_ Ha].
    now apply Forall_cons in Ha as [Ha _].
  - destruct (split_at_Finalize _ _ _ Ha E) as [-> ->]. auto.
Qed.

(** ** What [stop] leaves of the audio graph *)

Lemma connected_after_update (gs : list Media.Graph) i g f :
  (forall x, Media.processorConnected (f x) = Media.processorConnected x) ->
  Media.processorConnected ((<[i := f (gs !!! i)]> gs) !!! g) =
  Media.processorConnected (gs !!! g).
Proof.
  intros Hf. destruct (decide (i = g)) as [->|Hne].
  - destruct (decide (g < length gs)%nat) as [Hlt|Hge].
    + now rewrite list_lookup_total_insert_eq.
    + now rewrite list_insert_ge by lia.
  - now rewrite list_lookup_total_insert_ne.
Qed.

Lemma disconnected_after_update (gs : list Media.Graph) g :
  Media.processorConnected
    ((<[g := Media.set_processorConnected false (gs !!! g)]> gs) !!! g) = false.
Proof.
  destruct (decide (g < length gs)%nat) as [Hlt|Hge].
  - now rewrite list_lookup_total_insert_eq.
  - rewrite list_insert_ge by lia.
    now rewrite list_lookup_total_alt, lookup_ge_None_2 by lia.
Qed.

Lemma stop_disconnects w w1 g :
  stop w = (Normal tt, w1) -> processorNode w = Some g ->
  Media.processorConnected (the_graph w1 g) = false.
Proof.
  intros E Hg. destruct w as [ss gs mr so ms ac sn pn ih tr cs].
  simpl in Hg. subst pn. revert E.
  unfold stop, context_close, update_graph, console_error, the_graph.
  run_js.
  destruct sn, ms, ac; simpl;
    repeat match goal with
      | |- context [if Media.contextClosed ?x then _ else _] =>
          destruct (Media.contextClosed x); simpl
      end;
    intros [= <-]; simpl;
    rewrite ?connected_after_update by reflexivity;
    apply disconnected_after_update.
Qed.

Lemma not_emitting g :
  Media.processorConnected g = false -> Media.emitting g = false.
Proof.
  unfold Media.emitting. intros ->. now rewrite andb_false_r.
Qed.

(** ** What [finalizeAndClose] leaves behind *)

Lemma finalized_closes (w : World) :
  socket (finalized w) = None /\
  (socket w = None -> finalized w = w) /\
  (forall ws, socket w = Some ws -> closing_or_closed (finalized w) ws) /\
  finalized (finalized w) = finalized w.
Proof.
  assert (Hnone : socket (finalized w) = None).
  { unfold finalized. destruct (socket w) eqn:Hso; [|exact Hso].
    now destruct (WS.readyState _). }
  split; [exact Hnone|]. split; [|split].
  - unfold finalized. now intros ->.
  - intros ws Hso. unfold finalized, closing_or_closed, the_socket. rewrite Hso.
    destruct (decide (ws < length (sockets w))%nat) as [Hlt|Hge].
    + unfold the_socket.
      destruct (WS.readyState (sockets w !!! ws)) eqn:Hr; simpl; auto.
      * rewrite list_lookup_total_insert_eq by exact Hlt.
        unfold WS.close. rewrite Hr. auto.
      * rewrite list_lookup_total_insert_eq by exact Hlt.
        unfold WS.close. simpl. rewrite Hr. auto.
    + assert (Hgone : forall ss : list WS.WebSocket,
                length ss = length (sockets w) -> ss !!! ws = WS.gone).
      { intros ss Hlen. now rewrite list_lookup_total_alt, lookup_ge_None_2 by lia. }
      unfold the_socket.
      destruct (WS.readyState (sockets w !!! ws)) eqn:Hr; simpl;
        rewrite Hgone by (rewrite ?length_insert; reflexivity); auto.
  - unfold finalized at 1. now rewrite Hnone.
Qed.

(** * What every task keeps *)

Import Invariant.

Lemma preserves_ret {A} (Q : World -> Prop) (a : A) : preserves Q (ret a).
Proof. intros w H. exact H. Qed.

Lemma preserves_gets {A} (Q : World -> Prop) (f : World -> A) : preserves Q (gets f).
Proof. intros w H. exact H. Qed.

Lemma preserves_throw {A} (Q : World -> Prop) (e : Exn) : preserves Q (@throw A e).
Proof. intros w H. exact H. Qed.

Lemma preserves_lift {A} (Q : World -> Prop) (c : Completion A) : preserves Q (lift c).
Proof. intros w H. exact H. Qed.

Lemma preserves_deref {A} (Q : World -> Prop) (h : option A) : preserves Q (deref h).
Proof. intros w H. now destruct h. Qed.

Lemma preserves_modify (Q : World -> Prop) (f : World -> World) :
  (forall w, Q w -> Q (f w)) -> preserves Q (modify f).
Proof. intros Hf w H. now apply Hf. Qed.

Lemma preserves_bind {A B} (Q : World -> Prop) (m : M A) (k : A -> M B) :
  preserves Q m -> (forall a, preserves Q (k a)) -> preserves Q (bind m k).
Proof.
  intros Hm Hk w H. specialize (Hm w H). unfold bind.
  destruct (m w) as [[a|e] w1]; simpl in *; [now apply Hk|exact Hm].
Qed.

Lemma preserves_try_catch {A} (Q : World -> Prop) (body : M A) (handler : Exn -> M A) :
  preserves Q body -> (forall e, preserves Q (handler e)) ->
  preserves Q (try_catch body handler).
Proof.
  intros Hb Hh w H. specialize (Hb w H). unfold try_catch.
  destruct (body w) as [[a|e] w1]; simpl in *; [exact Hb|now apply Hh].
Qed.

(** A task's end, for a property that does not read what was observed. *)
Lemma preserves_run_task (Q : World -> Prop) (m : M unit) (w : World) :
  (forall tr w, Q w -> Q (set_trace tr w)) ->
  preserves Q m -> Q w -> Q (run_task m w).
Proof.
  intros Htr Hm H. specialize (Hm w H). unfold run_task.
  destruct (m w) as [[[]|e] w1]; simpl in *; [exact Hm|now apply Htr].
Qed.

(** A body that is none of the operations above is opened. *)
Ltac head_of t :=
  lazymatch t with
  | ?f _ => head_of f
  | _ => t
  end.

Ltac open_body :=
  lazymatch goal with
  | |- preserves _ ?m => let h := head_of m in unfold h
  end.

Ltac preserves_step known ext :=
  lazymatch goal with
  | |- preserves _ (ret _) => apply preserves_ret
  | |- preserves _ (gets _) => apply preserves_gets
  | |- preserves _ (throw _) => apply preserves_throw
  | |- preserves _ (lift _) => apply preserves_lift
  | |- preserves _ (deref _) => apply preserves_deref
  | |- preserves _ (modify _) => apply preserves_modify; intros ? ?; solve [ext]
  | |- preserves _ (bind _ _) => apply preserves_bind; [|intros ?]
  | |- preserves _ (try_catch _ _) => apply preserves_try_catch; [|intros ?]
  | |- preserves _ (match ?x with _ => _ end) => destruct x
  | |- preserves _ (let _ := _ in _) => cbv zeta
  | |- preserves _ _ => first [ solve [known] | progress open_body ]
  end.

Ltac prove_preserves known ext := repeat preserves_step known ext.

(** ** The capture is entirely on or entirely off *)

Lemma capture_inv_ext (w w' : World) :
  graphs w' = graphs w -> mediaStream w' = mediaStream w ->
  audioContext w' = audioContext w -> sourceNode w' = sourceNode w ->
  processorNode w' = processorNode w ->
  Capture.inv w -> Capture.inv w'.
Proof.
  intros G M A S P [Hh Hr]. split.
  - now rewrite M, A, S, P.
  - intros g Hg. unfold the_graph. rewrite G. apply Hr. now rewrite <- A.
Qed.

Lemma capture_inv_stop : preserves Capture.inv stop.
Proof.
  intros w _. destruct (stop_returns w) as (w' & -> & (M & A & S & P) & _).
  simpl. split.
  - now rewrite M, A, S, P.
  - intros g Hg. congruence.
Qed.

Lemma insert_last {A} (l : list A) (x y : A) :
  <[length l := y]> (l ++ [x]) = l ++ [y].
Proof.
  replace (length l) with (length l + 0)%nat at 1 by lia.
  now rewrite insert_app_r.
Qed.

Lemma lookup_total_last {A} `{Inhabited A} (l : list A) (x : A) :
  (l ++ [x]) !!! length l = x.
Proof. now apply list_lookup_total_middle. Qed.

(** What the resumed [start] builds. *)
Lemma start_resumed_returns (rate : N) (w : World) :
  start_resumed rate w =
  (Normal tt,
   set_processorNode (Some (length (graphs w)))
     (set_sourceNode (Some (length (graphs w)))
        (set_audioContext (Some (length (graphs w)))
           (set_mediaStream (Some (length (graphs w)))
              (set_graphs (graphs w ++ [Media.mk rate true false true true true]) w))))).
Proof.
  unfold start_resumed, new_graph, update_graph, the_graph. run_js.
  destruct w as [ss gs mr so ms ac sn pn ih tr cs]; simpl.
  repeat (rewrite lookup_total_last || rewrite insert_last).
  reflexivity.
Qed.

Lemma capture_inv_start_resumed rate : preserves Capture.inv (start_resumed rate).
Proof.
  intros w _. rewrite start_resumed_returns. simpl. split.
  - auto.
  - intros g [= <-]. unfold the_graph. simpl. split.
    + rewrite length_app. simpl. lia.
    + now rewrite list_lookup_total_middle.
Qed.

Ltac capture_ext :=
  eapply capture_inv_ext; [| | | | |eassumption]; reflexivity.

Lemma capture_inv_update_socket id f : preserves Capture.inv (update_socket id f).
Proof. apply preserves_modify. intros w H. capture_ext. Qed.

Ltac capture_known :=
  lazymatch goal with
  | |- preserves _ stop => apply capture_inv_stop
  | |- preserves _ (start_resumed _) => apply capture_inv_start_resumed
  | |- preserves _ (update_socket _ _) => apply capture_inv_update_socket
  end.

Section Capture_kept.

Variable apiKey : JS.str.
Variable JSON_parse : JS.str -> option JS.value.
Variable toLowerCase : JS.str -> JS.str.
Variable Number_toString : spec_float -> JS.str.

Lemma capture_inv_react ev :
  preserves Capture.inv (react apiKey JSON_parse toLowerCase Number_toString ev).
Proof.
  destruct ev;
    prove_preserves ltac:(idtac; capture_known) ltac:(capture_ext).
Qed.

Lemma capture_inv_reachable w :
  reachable apiKey JSON_parse toLowerCase Number_toString w -> Capture.inv w.
Proof.
  induction 1 as [|w w' ev _ IH Hstep].
  - split; [auto|]. intros g Hg. discriminate Hg.
  - unfold step in Hstep. destruct (enabled ev w); [|discriminate].
    injection Hstep as <-.
    apply preserves_run_task; [|apply capture_inv_react|exact IH].
    intros tr w0 H0. capture_ext.
Qed.

End Capture_kept.

Lemma graph_updated (gs : list Media.Graph) (g g' : nat) (x : Media.Graph) :
  (g < length gs)%nat ->
  (<[g := x]> gs) !!! g' = if decide (g' = g) then x else gs !!! g'.
Proof.
  intros Hlt. destruct (decide (g' = g)) as [->|Hne].
  - now apply list_lookup_total_insert_eq.
  - apply list_lookup_total_insert_ne. congruence.
Qed.

(** What [stop] does to the graph the handles name, when they agree and
    the graph is in operation. *)
Lemma stop_shuts (w : World) (g : nat) :
  Capture.inv w -> audioContext w = Some g ->
  stop w =
  (Normal tt,
   set_processorNode None
     (set_sourceNode None
        (set_audioContext None
           (set_mediaStream None
              (set_graphs (<[g := Capture.shut (the_graph w g)]> (graphs w))
                 (called [DisconnectProcessor g; DisconnectSource g;
                          StopTracks g; CloseContext g] w)))))).
Proof.
  intros [(M & S & P) Hrun] Hg. destruct (Hrun g Hg) as [Hlt Hr].
  destruct w as [ss gs mr so ms ac sn pn ih tr cs]. simpl in *. subst ac ms sn pn.
  unfold the_graph in *. simpl in *.
  unfold Capture.running in Hr.
  destruct (gs !!! g) as [rate tl cc sc pc oa] eqn:Eg. simpl in Hr.
  destruct tl, cc, sc, pc, oa; try discriminate Hr.
  unfold stop, context_close, update_graph, the_graph. run_js.
  rewrite Eg. simpl.
  repeat (rewrite list_lookup_total_insert_eq by (rewrite ?length_insert; exact Hlt);
          rewrite list_insert_insert_eq; simpl).
  unfold called. simpl. rewrite <- !app_assoc. reflexivity.
Qed.

Lemma stop_idle (w : World) :
  Capture.inv w -> audioContext w = None -> stop w = (Normal tt, w).
Proof.
  intros [(M & S & P) _] Ha.
  destruct w as [ss gs mr so ms ac sn pn ih tr cs]. simpl in *. subst. reflexivity.
Qed.

(** ** What [finalizeAndClose] leaves alone *)

Lemma finalized_capture (w : World) :
  graphs (finalized w) = graphs w /\ mediaStream (finalized w) = mediaStream w /\
  audioContext (finalized w) = audioContext w /\
  sourceNode (finalized w) = sourceNode w /\
  processorNode (finalized w) = processorNode w.
Proof.
  unfold finalized. destruct (socket w); [|auto].
  destruct (WS.readyState _); auto.
Qed.

Lemma finalized_calls (w : World) :
  calls (finalized w) =
  calls w ++ match socket w with
             | Some ws => [Send ws (WS.Text Finalize_message); Close ws]
             | None => []
             end.
Proof.
  unfold finalized. destruct (socket w) as [ws|]; [|now rewrite app_nil_r].
  destruct (WS.readyState _); reflexivity.
Qed.

Lemma capture_inv_finalized (w : World) : Capture.inv w -> Capture.inv (finalized w).
Proof.
  destruct (finalized_capture w) as (G & M & A & S & P).
  now apply capture_inv_ext.
Qed.

(** What a release leaves of the capture the handles name. *)
Lemma stop_silences (w w1 : World) (g : nat) :
  Capture.inv w -> audioContext w = Some g ->
  stop (set_isHolding false w) = (Normal tt, w1) ->
  released w1 /\ sockets w1 = sockets w /\
  calls w1 =
    calls w ++ [DisconnectProcessor g; DisconnectSource g;
                StopTracks g; CloseContext g] /\
  graphs (finalized w1) = graphs w1 /\
  the_graph w1 g =
    Media.mk (Media.sampleRate (the_graph w g)) false true false false false /\
  forall channelData, enabled (AudioProcess g channelData) w1 = false.
Proof.
  intros Hinv Ha E.
  assert (Hinv0 : Capture.inv (set_isHolding false w))
    by (eapply capture_inv_ext; [| | | | |exact Hinv]; reflexivity).
  destruct (Capture.held_is_running w Hinv g Ha) as [Hlt _].
  rewrite (stop_shuts _ g Hinv0 Ha) in E. injection E as <-.
  split; [repeat split|]. split; [reflexivity|]. split; [reflexivity|].
  split; [apply finalized_capture|].
  assert (Hg : the_graph
                 (set_processorNode None
                    (set_sourceNode None
                       (set_audioContext None
                          (set_mediaStream None
                             (set_graphs
                                (<[g := Capture.shut (the_graph (set_isHolding false w) g)]>
                                   (graphs (set_isHolding false w)))
                                (called [DisconnectProcessor g; DisconnectSource g;
                                         StopTracks g; CloseContext g]
                                   (set_isHolding false w))))))) g =
               Media.mk (Media.sampleRate (the_graph w g)) false true false false false).
  { unfold the_graph. simpl. rewrite graph_updated by exact Hlt.
    now rewrite decide_True. }
  split; [exact Hg|].
  intros channelData. cbn [enabled]. apply andb_false_intro2.
  exact (f_equal Media.emitting Hg).
Qed.

(** [stop] leaves alone every graph the handles do not name. *)
Lemma stop_spares (w w1 : World) (g : nat) :
  Capture.inv w -> audioContext w <> Some g ->
  stop w = (Normal tt, w1) ->
  forall channelData,
    enabled (AudioProcess g channelData) w1 = enabled (AudioProcess g channelData) w.
Proof.
  intros Hinv Hne E channelData.
  destruct (audioContext w) as [g0|] eqn:Ha.
  - destruct (Capture.held_is_running w Hinv g0 Ha) as [Hlt _].
    rewrite (stop_shuts w g0 Hinv Ha) in E. injection E as <-.
    cbn [enabled]. unfold the_graph, called.
    cbn [graphs set_processorNode set_sourceNode set_audioContext
         set_mediaStream set_graphs set_calls].
    rewrite length_insert, graph_updated by exact Hlt.
    rewrite decide_False by congruence. reflexivity.
  - rewrite (stop_idle w Hinv Ha) in E. now injection E as <-.
Qed.

(** * The claims about the session and the coordinator *)

Section Claims.

Variable apiKey : JS.str.
Variable JSON_parse : JS.str -> option JS.value.
Variable toLowerCase : JS.str -> JS.str.
Variable Number_toString : spec_float -> JS.str.

Abbreviation step := (App.step apiKey JSON_parse toLowerCase Number_toString).
Abbreviation reachable :=
  (App.reachable apiKey JSON_parse toLowerCase Number_toString).

(** C2, as amended.  Whenever [deactivate] runs while holding,
    [AudioCapture.stop] runs to its end before [finalizeAndClose] is
    called: the calls [stop] makes on the capture (disconnecting the
    processor and the source, stopping the tracks, closing the context)
    all come before the Finalize message is handed to the socket, and
    nothing comes between them.  When [stop] returns the four handles
    are null, nothing has been put on any socket, and the graph the
    handles named is shut, so that its processor delivers no further
    block; Finalize and the close are then sent from that state, and a
    block that is delivered right after the release, by whatever graph,
    is dropped.  A graph that the handles do not name is not stopped:
    it delivers blocks after the release if it did before.  In every
    reachable state, on every socket, no audio frame comes after the
    Finalize message. *)
Theorem no_audio_after_Finalize (w : World) :
  reachable w ->
  (isHolding w = true ->
   exists w1 w',
     stop (set_isHolding false w) = (Normal tt, w1) /\
     released w1 /\ sockets w1 = sockets w /\
     calls w1 =
       calls w ++ match audioContext w with
                  | Some g => [DisconnectProcessor g; DisconnectSource g;
                               StopTracks g; CloseContext g]
                  | None => []
                  end /\
     (forall g, processorNode w = Some g ->
        the_graph w1 g =
          Media.mk (Media.sampleRate (the_graph w g)) false true false false false /\
        forall channelData, enabled (AudioProcess g channelData) w1 = false) /\
     stopPushToTalk w = (Normal tt, w') /\
     w' = observed [UiSetStatus idle "Idle"] (finalized w1) /\
     calls w' =
       calls w1 ++ match socket w with
                   | Some ws => [Send ws (WS.Text Finalize_message); Close ws]
                   | None => []
                   end /\
     (forall g channelData,
        App.react apiKey JSON_parse toLowerCase Number_toString
          (AudioProcess g channelData) w' = (Normal tt, w')) /\
     (forall g channelData,
        audioContext w <> Some g ->
        enabled (AudioProcess g channelData) w' =
        enabled (AudioProcess g channelData) w)) /\
  (forall ws s before after payload,
     sockets w !! ws = Some s ->
     WS.wire s = before ++ Finalize :: after ->
     ~ In (WS.Sent (WS.Binary payload)) after).
Proof.
  intros Hreach. split.
  - intros Hh. destruct (stopPushToTalk_returns w) as (w1 & E & Estop).
    rewrite Hh in Estop.
    pose proof (capture_inv_reachable apiKey JSON_parse toLowerCase
                  Number_toString w Hreach) as Hcap.
    assert (Hcap0 : Capture.inv (set_isHolding false w))
      by (eapply capture_inv_ext; [| | | | |exact Hcap]; reflexivity).
    exists w1, (observed [UiSetStatus idle "Idle"] (finalized w1)).
    destruct (stop_returns (set_isHolding false w))
      as (w1' & E' & Hrel & _ & _ & _ & S & So & _).
    replace w1' with w1 in * by congruence.
    split; [exact E|]. split; [exact Hrel|]. split; [exact S|].
    split; [|split; [|split; [exact Estop|split; [reflexivity|split; [|split]]]]].
    + destruct (audioContext w) as [g|] eqn:Hg.
      * now destruct (stop_silences w w1 g Hcap Hg E) as (_ & _ & Hcalls & _).
      * rewrite (stop_idle _ Hcap0 Hg) in E. injection E as <-.
        cbn [calls set_isHolding]. now rewrite app_nil_r.
    + intros g Hg.
      destruct (Capture.handles_agree w Hcap) as (_ & _ & P). rewrite P in Hg.
      destruct (stop_silences w w1 g Hcap Hg E) as (_ & _ & _ & _ & Hshut & Hsilent).
      split; [exact Hshut|exact Hsilent].
    + cbn [calls observed set_trace]. rewrite finalized_calls.
      now rewrite So.
    + intros g channelData. cbn [App.react]. unfold onaudioprocess, onChunk.
      destruct (sendAudioChunk_returns channelData
                  (observed [UiSetStatus idle "Idle"] (finalized w1)))
        as (bytes & _ & Esend).
      rewrite Esend. unfold streaming. cbn [socket observed set_trace].
      destruct (finalized_closes w1) as (Hnone & _).
      now rewrite Hnone.
    + intros g channelData Hne.
      transitivity (enabled (AudioProcess g channelData) w1).
      * destruct (finalized_capture w1) as (G & _).
        cbn [enabled]. unfold the_graph. cbn [graphs observed set_trace].
        now rewrite G.
      * exact (stop_spares _ w1 g Hcap0 Hne E channelData).
  - intros ws s before after payload Hs Hw Hin.
    pose proof (reachable_inv _ _ _ _ w Hreach) as Hinv.
    destruct (after_Finalize _ _ _ (wires_in_order _ _ Hinv ws s Hs) Hw) as [_ ->].
    destruct Hin as [Hin|[]]. discriminate Hin.
Qed.

(** C5.  [finalizeAndClose] always returns, and leaves the client
    without a socket; called without a socket it changes nothing, so a
    second call is a no-op; called with one, the close of that socket
    has been asked for (or has happened) afterwards, whatever its state
    was, also when sending Finalize threw.  In every reachable state a
    socket has sent Finalize at most once, and then the start of the
    close is the next and last thing on its wire. *)
Theorem finalizeAndClose_idempotent (w : World) :
  (exists w',
     finalizeAndClose w = (Normal tt, w') /\
     socket w' = None /\
     (socket w = None -> w' = w) /\
     (forall ws, socket w = Some ws -> closing_or_closed w' ws) /\
     finalizeAndClose w' = (Normal tt, w')) /\
  (reachable w ->
   forall ws s before after,
     sockets w !! ws = Some s ->
     WS.wire s = before ++ Finalize :: after ->
     ~ In Finalize before /\ after = [WS.CloseStarted]).
Proof.
  split.
  - destruct (finalized_closes w) as (Hnone & Hsame & Hclose & Hagain).
    exists (finalized w). split; [apply finalizeAndClose_returns|].
    split; [exact Hnone|]. split; [exact Hsame|]. split; [exact Hclose|].
    now rewrite finalizeAndClose_returns, Hagain.
  - intros Hreach ws s before after Hs Hw.
    pose proof (reachable_inv _ _ _ _ w Hreach) as Hinv.
    destruct (after_Finalize _ _ _ (wires_in_order _ _ Hinv ws s Hs) Hw) as [Ha ->].
    split; [|reflexivity].
    intros Hin. apply Finalize_not_audio.
    eapply Forall_forall in Ha; [exact Ha|]. now apply list_elem_of_In.
Qed.

(** C1, as amended.  In every reachable state the client holds at most
    one socket handle, and it names a socket whose handshake has
    completed and whose close has not been asked for.  [activate] is a
    no-op while holding, and it begins to connect a new session only
    when the holding flag is clear and the client holds no open socket.
    [deactivate] while holding clears the flag, stops the capture the
    handles name (the four handles are null afterwards and the graph
    they named is shut and silent), clears the client's handle and asks
    for the close before it returns; nothing waits for the transport to
    reach Closed. *)
Theorem activate_guarded_by_holding (w : World) :
  reachable w ->
  (forall ws, socket w = Some ws ->
     exists s, sockets w !! ws = Some s /\
               WS.readyState s <> WS.CONNECTING /\
               ~ In WS.CloseStarted (WS.wire s)) /\
  (exists w', step Activate w = Some w' /\
     (isHolding w = true -> w' = w) /\
     (length (sockets w) < length (sockets w') ->
        isHolding w = false /\ streaming w = false)%nat) /\
  (exists w', step Deactivate w = Some w' /\
     isHolding w' = false /\
     (isHolding w = true ->
        socket w' = None /\
        (forall ws, socket w = Some ws -> closing_or_closed w' ws) /\
        released w' /\
        isActive w' = (Normal false, w') /\
        (forall g, audioContext w = Some g ->
           the_graph w' g =
             Media.mk (Media.sampleRate (the_graph w g))
               false true false false false /\
           forall channelData,
             enabled (AudioProcess g channelData) w' = false))).
Proof.
  intros Hreach. pose proof (reachable_inv _ _ _ _ w Hreach) as Hinv.
  pose proof (capture_inv_reachable apiKey JSON_parse toLowerCase
                Number_toString w Hreach) as Hcap.
  split; [|split].
  - intros ws Hso. destruct (held_is_opened _ _ Hinv ws Hso) as (s & Hs & Hr & Ha).
    exists s. split; [exact Hs|]. split; [exact Hr|].
    intros Hin. apply CloseStarted_not_audio.
    eapply Forall_forall in Ha; [exact Ha|]. now apply list_elem_of_In.
  - destruct (startPushToTalk_returns apiKey w) as (w' & E & _ & Hnoop & Hnew).
    exists w'. unfold App.step, run_task. simpl. rewrite E. auto.
  - destruct (stopPushToTalk_returns w) as (w1 & E & Estop).
    destruct (stop_returns (set_isHolding false w))
      as (w1' & E' & _ & _ & _ & _ & S & H & I).
    replace w1' with w1 in * by congruence.
    destruct (finalized_closes w1) as (Hnone & _ & Hclosing & _).
    eexists. unfold App.step, run_task. simpl. rewrite Estop.
    split; [reflexivity|].
    destruct (isHolding w) eqn:Hh.
    + split.
      * simpl. unfold finalized. destruct (socket w1); [|exact I].
        now destruct (WS.readyState _).
      * intros _. split; [exact Hnone|].
        split; [intros ws Hso; apply Hclosing; simpl in H; congruence|].
        destruct (stop_returns (set_isHolding false w))
          as (w1'' & E'' & (M1 & A1 & S1 & P1) & _).
        replace w1'' with w1 in * by congruence.
        destruct (finalized_capture w1) as (G2 & M2 & A2 & S2 & P2).
        split; [|split].
        -- unfold released. cbn [mediaStream audioContext sourceNode processorNode
                               observed set_trace].
           now rewrite M2, A2, S2, P2.
        -- unfold isActive. rewrite bind_gets.
           cbn [audioContext observed set_trace]. now rewrite A2, A1.
        -- intros g Hg.
           destruct (stop_silences w w1 g Hcap Hg E)
             as (_ & _ & _ & _ & Hshut & Hsilent).
           assert (Hsame : forall g', the_graph
                              (observed [UiSetStatus idle "Idle"] (finalized w1)) g' =
                            the_graph w1 g').
           { intros g'. unfold the_graph. cbn [graphs observed set_trace].
             now rewrite G2. }
           split; [now rewrite Hsame|].
           intros channelData. specialize (Hsilent channelData).
           cbn [enabled] in *. rewrite Hsame.
           cbn [graphs observed set_trace]. now rewrite G2.
    + split; [exact Hh|discriminate].
Qed.

(** C9, as amended.  The handshake of every socket the program ever
    opens carries encoding=linear16, channels=1, language=en-US,
    punctuate=true, interim_results=true and sample_rate=16000: the
    nominal rate the audio context is asked for, a constant, whatever
    rate the device negotiated. *)
Theorem handshake_parameters (w : World) :
  reachable w ->
  URL.searchParams listen_url =
    [(JS.lit "encoding", JS.lit "linear16");
     (JS.lit "sample_rate", JS.lit "16000");
     (JS.lit "channels", JS.lit "1");
     (JS.lit "language", JS.lit "en-US");
     (JS.lit "punctuate", JS.lit "true");
     (JS.lit "interim_results", JS.lit "true")] /\
  forall ws s, sockets w !! ws = Some s ->
    WS.url s = URL.toString listen_url /\
    WS.url s = url_with_rate 16000 /\
    WS.url s =
      JS.lit "wss://api.deepgram.com/v1/listen?encoding=linear16&sample_rate=16000&channels=1&language=en-US&punctuate=true&interim_results=true".
Proof.
  intros Hreach. split; [reflexivity|].
  intros ws s Hs.
  pose proof (reachable_inv _ _ _ _ w Hreach) as Hinv.
  rewrite (handshake_fixed _ _ Hinv ws s Hs).
  split; [reflexivity|]. split; vm_compute; reflexivity.
Qed.

(** C7.  The message handler always returns, and changes nothing but
    what has been observed.  A frame that does not parse is dropped
    with one console error.  A message whose type is not the result
    type, or whose type cannot be read, reaches the transcript sink
    zero times.  A message of the
    result type whose first alternative has a transcript that is not
    empty once trimmed reaches the sink exactly once, with that text
    as it came, untrimmed. *)
Theorem ws_onmessage_forwards (event_data : MessageData) (w : World) :
  exists new,
    ws_onmessage JSON_parse toLowerCase Number_toString event_data w =
      (Normal tt, observed new w) /\
    sockets (observed new w) = sockets w /\
    socket (observed new w) = socket w /\
    (forall e, ~ In (Uncaught e) new) /\
    (JSON_parse (data_toString event_data) = None ->
       new = [ConsoleError "Failed to parse Deepgram message"] /\
       sink_calls new = []) /\
    (forall data e,
        JSON_parse (data_toString event_data) = Some data ->
        message_type Number_toString data = Throw e ->
        sink_calls new = []) /\
    (forall data type,
        JSON_parse (data_toString event_data) = Some data ->
        message_type Number_toString data = Normal type ->
        toLowerCase type <> JS.lit "results" ->
        sink_calls new = []) /\
    (forall data type text,
        JSON_parse (data_toString event_data) = Some data ->
        message_type Number_toString data = Normal type ->
        toLowerCase type = JS.lit "results" ->
        first_transcript data = Normal (Some (JS.Str text)) ->
        JS.trim text <> [] ->
        sink_calls new = [text]).
Proof.
  destruct (ws_onmessage_returns JSON_parse toLowerCase Number_toString event_data w)
    as (new & E & Hquiet & Hnone & Hthrows & Hother & Hresults).
  exists new. split; [exact E|]. split; [reflexivity|]. split; [reflexivity|].
  split; [exact Hquiet|].
  split; [|split; [exact Hthrows|split; [exact Hother|exact Hresults]]].
  intros Hparse. rewrite (Hnone Hparse). split; reflexivity.
Qed.

(** C8, as amended.  [connect] is a no-op exactly when the session is
    Streaming, that is when the client holds a socket and it is open.
    In every other state, also while an earlier handshake is still
    pending, it logs and calls the constructor: for a key the
    constructor accepts as a subprotocol it opens one new connection,
    pending; for any other key the constructor throws, the promise of
    [connect] is rejected and no socket exists. *)
Theorem connect_noop_iff_streaming (w : World) :
  connect apiKey w =
    (if streaming w then (Normal AlreadyConnected, w)
     else if WS.acceptable [JS.lit "token"; apiKey]
          then (Normal (Opening (length (sockets w))), opened apiKey w)
          else (Throw SyntaxError,
                observed [ConsoleLog "[Deepgram] Connecting to:"] w)) /\
  (streaming w = true ->
   sockets (snd (connect apiKey w)) = sockets w) /\
  (streaming w = false ->
   length (sockets (snd (connect apiKey w))) =
   if WS.acceptable [JS.lit "token"; apiKey]
   then S (length (sockets w)) else length (sockets w)).
Proof.
  rewrite connect_returns. split; [reflexivity|]. split.
  - now intros ->.
  - intros ->. destruct (WS.acceptable _); simpl; [|reflexivity].
    rewrite length_app. simpl. lia.
Qed.

End Claims.

(** C6.  [sendAudioChunk] never throws.  Unless the session is
    Streaming it transmits nothing and leaves the state as it was;
    when the session is Streaming it puts the encoded block on the held
    socket as one binary frame. *)
Theorem sendAudioChunk_only_when_streaming (chunk : list spec_float) (w : World) :
  exists bytes,
    Linear16.float32ToLinear16 chunk = Normal bytes /\
    length bytes = (2 * length chunk)%nat /\
    sendAudioChunk chunk w =
      (Normal tt,
       if streaming w
       then match socket w with
            | Some ws => transmitted ws (WS.Binary bytes) w
            | None => w
            end
       else w).
Proof.
  destruct (sendAudioChunk_returns chunk w) as (bytes & Henc & E).
  exists bytes. split; [exact Henc|]. split; [|exact E].
  destruct (float32ToLinear16_total chunk) as (bytes' & Henc' & Hlen).
  replace bytes with bytes' by congruence. lia.
Qed.

(** C10.  [AudioCapture.stop] never throws, whatever the handles are,
    all null included.  When it has returned the four handles are null
    and [isActive] is false, so that the next [start] asks for the
    microphone afresh; a second [stop] changes nothing. *)
Theorem stop_releases (w : World) :
  exists w',
    stop w = (Normal tt, w') /\
    released w' /\
    isActive w' = (Normal false, w') /\
    start w' =
      (Normal AwaitingMicrophone,
       set_micRequests (S (micRequests w')) (observed [GetUserMedia] w')) /\
    stop w' = (Normal tt, w').
Proof.
  destruct (stop_returns w) as (w' & E & Hrel & Hact & Hstart & Hagain & _).
  exists w'. auto.
Qed.

(** * The statements at concrete inputs *)

Lemma demo_reachable (evs : list Event) (w : World) :
  Demo.run_from_start evs = Some w ->
  reachable Demo.apiKey Demo.JSON_parse Demo.toLowerCase Demo.Number_toString w.
Proof. intros H. eapply run_reachable; [apply reachable_initial|exact H]. Qed.

Lemma streaming_world_reachable :
  reachable Demo.apiKey Demo.JSON_parse Demo.toLowerCase Demo.Number_toString
    (Demo.world_after Demo.streaming_trace).
Proof. apply (demo_reachable Demo.streaming_trace). vm_compute. reflexivity. Qed.

Lemma repress_world_reachable :
  reachable Demo.apiKey Demo.JSON_parse Demo.toLowerCase Demo.Number_toString
    (Demo.world_after Demo.repress_trace).
Proof. apply (demo_reachable Demo.repress_trace). vm_compute. reflexivity. Qed.

Lemma connecting_world_reachable :
  reachable Demo.apiKey Demo.JSON_parse Demo.toLowerCase Demo.Number_toString
    (Demo.world_after Demo.connecting_trace).
Proof. apply (demo_reachable Demo.connecting_trace). vm_compute. reflexivity. Qed.

Lemma orphan_world_reachable :
  reachable Demo.apiKey Demo.JSON_parse Demo.toLowerCase Demo.Number_toString
    (Demo.world_after Demo.orphan_trace).
Proof. apply (demo_reachable Demo.orphan_trace). vm_compute. reflexivity. Qed.

(** While streaming, a release stops the capture and then finalizes:
    the four calls on graph 0, then Finalize and the close on socket 0.
    After two grants during one hold, the release shuts graph 1 and
    leaves graph 0 delivering blocks.  After a release and a second
    press, the first socket's wire ends with Finalize and the close,
    with the audio frame before them. *)
Lemma no_audio_after_Finalize_witness :
  (exists w1 w',
     stop (set_isHolding false (Demo.world_after Demo.streaming_trace)) =
       (Normal tt, w1) /\
     released w1 /\
     calls w1 =
       calls (Demo.world_after Demo.streaming_trace) ++
       [DisconnectProcessor 0; DisconnectSource 0; StopTracks 0; CloseContext 0] /\
     enabled (AudioProcess 0 [Demo.half]) w1 = false /\
     calls w' = calls w1 ++ [Send 0 (WS.Text Finalize_message); Close 0]) /\
  (exists w1 w',
     stop (set_isHolding false (Demo.world_after Demo.orphan_trace)) =
       (Normal tt, w1) /\
     stopPushToTalk (Demo.world_after Demo.orphan_trace) = (Normal tt, w') /\
     enabled (AudioProcess 1 [Demo.half]) w1 = false /\
     enabled (AudioProcess 0 [Demo.half]) w' = true) /\
  ~ In (WS.Sent (WS.Binary [255; 63; 0; 128])) [WS.CloseStarted].
Proof.
  split; [|split].
  - destruct (no_audio_after_Finalize Demo.apiKey Demo.JSON_parse Demo.toLowerCase
                Demo.Number_toString _ streaming_world_reachable) as [Hstop _].
    destruct (Hstop ltac:(vm_compute; reflexivity))
      as (w1 & w' & E & Hrel & _ & Hc1 & Hsilent & _ & _ & Hc' & _).
    exists w1, w'. split; [exact E|]. split; [exact Hrel|].
    split; [exact Hc1|]. split; [|exact Hc'].
    apply Hsilent. vm_compute. reflexivity.
  - destruct (no_audio_after_Finalize Demo.apiKey Demo.JSON_parse Demo.toLowerCase
                Demo.Number_toString _ orphan_world_reachable) as [Hstop _].
    destruct (Hstop ltac:(vm_compute; reflexivity))
      as (w1 & w' & E & _ & _ & _ & Hsilent & Estop & _ & _ & _ & Hspared).
    exists w1, w'. split; [exact E|]. split; [exact Estop|]. split.
    + apply Hsilent. vm_compute. reflexivity.
    + rewrite (Hspared 0%nat [Demo.half]) by (vm_compute; discriminate).
      vm_compute. reflexivity.
  - destruct (no_audio_after_Finalize Demo.apiKey Demo.JSON_parse Demo.toLowerCase
                Demo.Number_toString _ repress_world_reachable) as [_ Horder].
    apply (Horder 0%nat (the_socket (Demo.world_after Demo.repress_trace) 0)
             [WS.Sent (WS.Binary [255; 63; 0; 128])]).
    + vm_compute. reflexivity.
    + vm_compute. reflexivity.
Defined.

(** With a socket still connecting in the client's hands (no run of
    the program gets there) the send throws and the close still
    happens; on the run above Finalize was sent once, before the close. *)
Lemma finalizeAndClose_idempotent_witness :
  (exists w',
     finalizeAndClose
       (set_socket (Some 0%nat) (Demo.world_after Demo.connecting_trace)) =
       (Normal tt, w') /\
     socket w' = None /\ closing_or_closed w' 0) /\
  (~ In Finalize [WS.Sent (WS.Binary [255; 63; 0; 128])] /\
   [WS.CloseStarted] = [WS.CloseStarted]).
Proof.
  split.
  - destruct (finalizeAndClose_idempotent Demo.apiKey Demo.JSON_parse
                Demo.toLowerCase Demo.Number_toString
                (set_socket (Some 0%nat) (Demo.world_after Demo.connecting_trace)))
      as [(w' & E & Hnone & _ & Hclose & _) _].
    exists w'. split; [exact E|]. split; [exact Hnone|].
    apply Hclose. reflexivity.
  - destruct (finalizeAndClose_idempotent Demo.apiKey Demo.JSON_parse
                Demo.toLowerCase Demo.Number_toString
                (Demo.world_after Demo.repress_trace)) as [_ Honce].
    apply (Honce repress_world_reachable 0%nat
             (the_socket (Demo.world_after Demo.repress_trace) 0)).
    + vm_compute. reflexivity.
    + vm_compute. reflexivity.
Defined.

(** While streaming and holding: the held socket is open, a second
    press changes nothing, and a release clears the handle, starts the
    close and shuts graph 0, which ran at 48 kHz. *)
Lemma activate_guarded_by_holding_witness :
  (exists s,
     sockets (Demo.world_after Demo.streaming_trace) !! 0%nat = Some s /\
     WS.readyState s <> WS.CONNECTING /\ ~ In WS.CloseStarted (WS.wire s)) /\
  (exists w',
     step Demo.apiKey Demo.JSON_parse Demo.toLowerCase Demo.Number_toString
       Activate (Demo.world_after Demo.streaming_trace) = Some w' /\
     w' = Demo.world_after Demo.streaming_trace) /\
  (exists w',
     step Demo.apiKey Demo.JSON_parse Demo.toLowerCase Demo.Number_toString
       Deactivate (Demo.world_after Demo.streaming_trace) = Some w' /\
     isHolding w' = false /\ socket w' = None /\ closing_or_closed w' 0 /\
     released w' /\
     the_graph w' 0 = Media.mk 48000 false true false false false /\
     enabled (AudioProcess 0 [Demo.half]) w' = false).
Proof.
  destruct (activate_guarded_by_holding Demo.apiKey Demo.JSON_parse
              Demo.toLowerCase Demo.Number_toString _ streaming_world_reachable)
    as (Hheld & (wa & Ea & Hnoop & _) & (wd & Ed & Hflag & Hdrop)).
  split; [|split].
  - apply Hheld. vm_compute. reflexivity.
  - exists wa. split; [exact Ea|]. apply Hnoop. vm_compute. reflexivity.
  - exists wd. split; [exact Ed|]. split; [exact Hflag|].
    destruct (Hdrop ltac:(vm_compute; reflexivity))
      as (Hnone & Hclose & Hrel & _ & Hshut).
    destruct (Hshut 0%nat ltac:(vm_compute; reflexivity)) as [Hg Hsilent].
    split; [exact Hnone|]. split; [apply Hclose; vm_compute; reflexivity|].
    split; [exact Hrel|]. split; [|apply Hsilent].
    rewrite Hg. vm_compute. reflexivity.
Defined.

(** The device runs at 48 kHz in this run; the socket's URL says 16000. *)
Lemma handshake_parameters_witness :
  WS.url (the_socket (Demo.world_after Demo.streaming_trace) 0) =
  JS.lit "wss://api.deepgram.com/v1/listen?encoding=linear16&sample_rate=16000&channels=1&language=en-US&punctuate=true&interim_results=true".
Proof.
  destruct (handshake_parameters Demo.apiKey Demo.JSON_parse Demo.toLowerCase
              Demo.Number_toString _ streaming_world_reachable) as [_ Hurl].
  destruct (Hurl 0%nat (the_socket (Demo.world_after Demo.streaming_trace) 0))
    as (_ & _ & H).
  - vm_compute. reflexivity.
  - exact H.
Defined.

(** A Results frame reaches the sink once, untrimmed; a Metadata frame
    and a frame that is not JSON never do. *)
Lemma ws_onmessage_forwards_witness :
  (exists new,
     ws_onmessage Demo.JSON_parse Demo.toLowerCase Demo.Number_toString
       (TextData Demo.results_text) initial = (Normal tt, observed new initial) /\
     sink_calls new = [JS.lit " hello world "]) /\
  (exists new,
     ws_onmessage Demo.JSON_parse Demo.toLowerCase Demo.Number_toString
       (TextData Demo.metadata_text) initial = (Normal tt, observed new initial) /\
     sink_calls new = []) /\
  (exists new,
     ws_onmessage Demo.JSON_parse Demo.toLowerCase Demo.Number_toString
       (TextData Demo.garbage_text) initial = (Normal tt, observed new initial) /\
     new = [ConsoleError "Failed to parse Deepgram message"]).
Proof.
  split; [|split].
  - destruct (ws_onmessage_forwards Demo.JSON_parse Demo.toLowerCase
                Demo.Number_toString (TextData Demo.results_text) initial)
      as (new & E & _ & _ & _ & _ & _ & _ & Hresults).
    exists new. split; [exact E|].
    apply (Hresults Demo.results_value (JS.lit "Results")).
    + vm_compute. reflexivity.
    + vm_compute. reflexivity.
    + vm_compute. reflexivity.
    + vm_compute. reflexivity.
    + vm_compute. discriminate.
  - destruct (ws_onmessage_forwards Demo.JSON_parse Demo.toLowerCase
                Demo.Number_toString (TextData Demo.metadata_text) initial)
      as (new & E & _ & _ & _ & _ & _ & Hother & _).
    exists new. split; [exact E|].
    apply (Hother Demo.metadata_value (JS.lit "Metadata")).
    + vm_compute. reflexivity.
    + vm_compute. reflexivity.
    + vm_compute. discriminate.
  - destruct (ws_onmessage_forwards Demo.JSON_parse Demo.toLowerCase
                Demo.Number_toString (TextData Demo.garbage_text) initial)
      as (new & E & _ & _ & _ & Hnone & _).
    exists new. split; [exact E|].
    apply Hnone. vm_compute. reflexivity.
Defined.

Example float32ToLinear16_block :
  Linear16.float32ToLinear16 [Demo.half; Demo.minus_one; Demo.two] =
  Normal [255; 63; 0; 128; 255; 127].
Proof. vm_compute. reflexivity. Qed.

Example float32ToLinear16_empty : Linear16.float32ToLinear16 [] = Normal [].
Proof. reflexivity. Qed.

(** A sample that is not a number is written as zero. *)
Example float32ToLinear16_nan :
  Linear16.float32ToLinear16 [S754_nan] = Normal [0; 0].
Proof. vm_compute. reflexivity. Qed.

(** The block [0.5; -1; 2] encodes to 16383, -32768 and 32767. *)
Lemma float32ToLinear16_encodes_witness :
  exists bytes,
    Linear16.float32ToLinear16 [Demo.half; Demo.minus_one; Demo.two] = Normal bytes /\
    length bytes = 6%nat /\
    DataView.getInt16_le bytes 2 = Qtruncate (scaled (clamped Demo.minus_one)).
Proof.
  destruct (float32ToLinear16_encodes [Demo.half; Demo.minus_one; Demo.two])
    as (bytes & E & Hlen & _ & Hget & _).
  - repeat constructor; try (vm_compute; reflexivity); discriminate.
  - exists bytes. split; [exact E|]. split; [exact Hlen|].
    destruct (Hget 1%nat Demo.minus_one) as [H _]; [reflexivity|exact H].
Defined.

(** The sample 0.5 comes back as 16383/32767. *)
Lemma decode_recovers_sample_witness :
  (Qabs (decode (Number.ToInt16 (Linear16.scaled_sample Demo.half)) - value Demo.half)
     <= 1 # 32767)%Q.
Proof.
  apply decode_recovers_sample.
  - vm_compute. reflexivity.
  - exact I.
  - unfold Qle. simpl. lia.
  - unfold Qle. simpl. lia.
Defined.

(** * Where the code departs from the specification *)

(** C1 as stated fails.  Press, stream, release and press again: the
    first socket has been asked to close but is not yet Closed when the
    second one starts connecting, so two sessions are live. *)
Lemma activate_during_teardown :
  ~ (forall w,
       reachable Demo.apiKey Demo.JSON_parse Demo.toLowerCase
         Demo.Number_toString w ->
       at_most_one_session w).
Proof.
  intros Hclaim.
  pose proof (Hclaim _ repress_world_reachable 0%nat 1%nat
                (the_socket (Demo.world_after Demo.repress_trace) 0)
                (the_socket (Demo.world_after Demo.repress_trace) 1)) as H.
  assert (0 = 1)%nat as Habsurd; [|discriminate Habsurd].
  apply H; vm_compute; try reflexivity; discriminate.
Qed.

(** The same without any teardown: press, release and press again while
    the first handshake is pending, and both sockets end up open. *)
Example two_sessions_open :
  option_map (fun w => map WS.readyState (sockets w))
    (Demo.run_from_start [Activate; Deactivate; Activate; WsOpened 0; WsOpened 1])
  = Some [WS.OPEN; WS.OPEN].
Proof. vm_compute. reflexivity. Qed.

(** C2 as stated fails.  When two microphone requests were granted
    during one hold, the handles name the second graph only: [stop]
    shuts that one, and the first goes on delivering blocks after
    [stop] has returned. *)
Lemma stop_leaves_orphan_emitting :
  ~ (forall w,
       reachable Demo.apiKey Demo.JSON_parse Demo.toLowerCase
         Demo.Number_toString w ->
       isHolding w = true ->
       forall w1, stop (set_isHolding false w) = (Normal tt, w1) ->
       forall g channelData, enabled (AudioProcess g channelData) w1 = false).
Proof.
  intros Hclaim.
  pose proof (Hclaim _ orphan_world_reachable ltac:(vm_compute; reflexivity)
                (snd (stop (set_isHolding false (Demo.world_after Demo.orphan_trace))))
                ltac:(vm_compute; reflexivity) 0%nat [Demo.half]) as H.
  vm_compute in H. discriminate H.
Qed.

(** On the same run the button is released, then pressed again: while
    the third press waits for the microphone, with every handle of the
    capture null, a block from graph 0 goes out on the new socket. *)
Example orphan_block_is_sent_later :
  option_map
    (fun w => (audioContext w, socket w, map WS.wire (sockets w)))
    (Demo.run_from_start Demo.orphan_heard_trace) =
  Some (None, Some 2%nat,
        [[Finalize; WS.CloseStarted]; [Finalize; WS.CloseStarted];
         [WS.Sent (WS.Binary [255; 63])]]).
Proof. vm_compute. reflexivity. Qed.

(** C8 as stated fails.  After a first press the handshake is pending;
    a second [connect] in that state opens a second socket. *)
Lemma connect_while_connecting :
  ~ (forall w,
       (exists ws, connecting w ws = true) \/ streaming w = true ->
       sockets (snd (connect Demo.apiKey w)) = sockets w).
Proof.
  intros Hclaim.
  specialize (Hclaim (Demo.world_after Demo.connecting_trace)).
  assert (Hpending : exists ws,
            connecting (Demo.world_after Demo.connecting_trace) ws = true).
  { exists 0%nat. vm_compute. reflexivity. }
  specialize (Hclaim (or_introl Hpending)).
  apply (f_equal (@length _)) in Hclaim. vm_compute in Hclaim. discriminate Hclaim.
Qed.

(** C9 as stated fails.  In a run where the audio context ends up at
    48 kHz, the handshake that was sent says 16000. *)
Lemma handshake_rate_not_negotiated :
  ~ (forall w,
       reachable Demo.apiKey Demo.JSON_parse Demo.toLowerCase
         Demo.Number_toString w ->
       forall ws s ctx,
         sockets w !! ws = Some s -> audioContext w = Some ctx ->
         WS.url s = url_with_rate (Media.sampleRate (the_graph w ctx))).
Proof.
  intros Hclaim.
  pose proof (Hclaim _ streaming_world_reachable 0%nat
                (the_socket (Demo.world_after Demo.streaming_trace) 0) 0%nat) as H.
  assert (Hurl : WS.url (the_socket (Demo.world_after Demo.streaming_trace) 0) =
                 url_with_rate
                   (Media.sampleRate
                      (the_graph (Demo.world_after Demo.streaming_trace) 0))).
  { apply H; vm_compute; reflexivity. }
  vm_compute in Hurl. discriminate Hurl.
Qed.

(** * Further properties of the encoder *)

Lemma insert_pair {A} (view : list A) (k : nat) (a b : A) :
  (k + 2 <= length view)%nat ->
  <[S k := b]> (<[k := a]> view) = take k view ++ [a; b] ++ drop (k + 2) view.
Proof.
  revert k. induction view as [|x view IH]; intros k Hk; simpl in Hk; [lia|].
  destruct k as [|k]; simpl.
  - destruct view as [|y view]; simpl in *; [lia|]. now rewrite drop_0.
  - f_equal. apply IH. lia.
Qed.

Lemma encode_from_bytes (rest : list spec_float) : forall (i : nat) (view : list Z),
  (i * 2 + length rest * 2 <= length view)%nat ->
  Linear16.encode_from rest i view =
  Normal (take (i * 2) view ++ flat_map Wire.sample_bytes rest ++
          drop (i * 2 + length rest * 2) view).
Proof.
  induction rest as [|x rest IH]; intros i view Hlen; simpl in *.
  - rewrite Nat.add_0_r. now rewrite take_drop.
  - unfold DataView.setInt16_le.
    destruct (Nat.leb_spec (i * 2 + 2) (length view)) as [_|Hgt]; [|lia].
    rewrite insert_pair by lia.
    set (raw := Number.ToInt16 (Linear16.scaled_sample x) mod 65536).
    set (view' := take (i * 2) view ++ [raw mod 256; raw / 256] ++ drop (i * 2 + 2) view).
    assert (Htake : length (take (i * 2) view) = (i * 2)%nat)
      by (rewrite length_take; lia).
    assert (Hlen' : length view' = length view).
    { unfold view'. rewrite !length_app, Htake, length_drop. simpl. lia. }
    rewrite IH by lia. f_equal.
    replace (take (S i * 2) view') with (take (i * 2) view ++ [raw mod 256; raw / 256]).
    2:{ unfold view'. rewrite app_assoc.
        rewrite take_app_length'; [reflexivity|].
        rewrite length_app, Htake. simpl. lia. }
    replace (drop (S i * 2 + length rest * 2) view')
      with (drop (i * 2 + S (length rest) * 2) view).
    2:{ unfold view'. rewrite app_assoc.
        rewrite drop_app_ge by (rewrite length_app, Htake; simpl; lia).
        rewrite length_app, Htake, drop_drop. simpl. f_equal. lia. }
    unfold Wire.sample_bytes. fold raw. now rewrite <- !app_assoc.
Qed.

Lemma float32ToLinear16_bytes (chunk : list spec_float) :
  Linear16.float32ToLinear16 chunk = Normal (flat_map Wire.sample_bytes chunk).
Proof.
  unfold Linear16.float32ToLinear16, DataView.ArrayBuffer.
  rewrite encode_from_bytes by (rewrite repeat_length; lia).
  rewrite take_0. simpl.
  rewrite drop_ge by (rewrite repeat_length; lia).
  now rewrite app_nil_r.
Qed.

(** X1.  The encoder works sample by sample: the bytes of a block made
    of two parts are the bytes of the first part followed by the bytes
    of the second, so that how the audio is cut into blocks does not
    show in the stream. *)
Theorem float32ToLinear16_app (front back : list spec_float) :
  exists bytes_front bytes_back,
    Linear16.float32ToLinear16 front = Normal bytes_front /\
    Linear16.float32ToLinear16 back = Normal bytes_back /\
    Linear16.float32ToLinear16 (front ++ back) = Normal (bytes_front ++ bytes_back).
Proof.
  exists (flat_map Wire.sample_bytes front), (flat_map Wire.sample_bytes back).
  rewrite !float32ToLinear16_bytes. now rewrite flat_map_app.
Qed.

(** X2.  A sample that is not a number is written as zero, wherever it
    stands in the block and whatever the other samples are. *)
Theorem float32ToLinear16_nan_as_zero (chunk : list spec_float) (i : nat) :
  chunk !! i = Some S754_nan ->
  exists bytes,
    Linear16.float32ToLinear16 chunk = Normal bytes /\
    length bytes = (2 * length chunk)%nat /\
    DataView.getInt16_le bytes (i * 2) = 0.
Proof.
  intros Hi.
  destruct (float32ToLinear16_total chunk) as (bytes & E & Hlen).
  exists bytes. split; [exact E|]. split; [lia|].
  unfold Linear16.float32ToLinear16 in E.
  destruct (encode_from_spec _ _ _ _ E) as (_ & _ & Hget & _).
  specialize (Hget i _ Hi). rewrite Nat.add_0_l in Hget. rewrite Hget.
  reflexivity.
Qed.

(** ** The quantization keeps the order of the samples *)

Lemma clamp_monotone (u v : Q) : (u <= v)%Q -> (PCM.clamp u <= PCM.clamp v)%Q.
Proof.
  intros Huv. unfold PCM.clamp. destruct u as [un ud], v as [vn vd].
  destruct (Qlt_le_dec (un # ud) (-1)) as [Hu|Hu],
           (Qlt_le_dec (vn # vd) (-1)) as [Hv|Hv];
    try destruct (Qlt_le_dec 1 (un # ud)) as [Hu1|Hu1];
    try destruct (Qlt_le_dec 1 (vn # vd)) as [Hv1|Hv1];
    unfold Qle, Qlt in *; simpl in *; nia.
Qed.

Lemma scaled_monotone (c d : Q) : (c <= d)%Q -> (PCM.scaled c <= PCM.scaled d)%Q.
Proof.
  intros Hcd. unfold PCM.scaled.
  destruct c as [cn cd], d as [dn dd].
  destruct (Qlt_le_dec (cn # cd) 0) as [Hc|Hc], (Qlt_le_dec (dn # dd) 0) as [Hd|Hd];
    unfold Qle, Qlt, Qmult in *; simpl in *;
    rewrite ?Pos.mul_1_r; nia.
Qed.

Lemma Qtruncate_monotone (p q : Q) :
  (p <= q)%Q -> PCM.Qtruncate p <= PCM.Qtruncate q.
Proof.
  destruct p as [pn pd], q as [qn qd]. unfold Qle, PCM.Qtruncate. simpl.
  intros Hpq.
  destruct (quot_bounds pn pd) as (rp & Ep & Hp_pos & Hp_neg).
  destruct (quot_bounds qn qd) as (rq & Eq & Hq_pos & Hq_neg).
  set (a := Z.quot pn (Zpos pd)) in *. set (b := Z.quot qn (Zpos qd)) in *.
  destruct (Z.le_gt_cases a b) as [Hle|Hgt]; [exact Hle|exfalso].
  destruct (Z.le_gt_cases 0 pn) as [Hpn|Hpn].
  - specialize (Hp_pos Hpn).
    destruct (Z.le_gt_cases 0 qn) as [Hqn|Hqn].
    + specialize (Hq_pos Hqn).
      assert (Zpos pd * (b + 1) <= pn) by nia.
      assert (qn < Zpos qd * (b + 1)) by nia.
      nia.
    + nia.
  - specialize (Hp_neg ltac:(lia)).
    assert (Ha : a <= 0) by nia.
    destruct (Z.le_gt_cases 0 qn) as [Hqn|Hqn].
    + specialize (Hq_pos Hqn). nia.
    + specialize (Hq_neg ltac:(lia)).
      assert (Zpos pd * (a - 1) < pn) by nia.
      assert (qn <= Zpos qd * (a - 1)) by nia.
      nia.
Qed.

(** X3.  The encoder keeps the order of the samples: of two samples
    that are numbers, the one of smaller or equal value never gets the
    larger 16-bit integer. *)
Theorem scaled_sample_monotone (x y : spec_float) :
  PCM.float32 x -> PCM.float32 y -> PCM.finite x -> PCM.finite y ->
  (PCM.value x <= PCM.value y)%Q ->
  Number.ToInt16 (Linear16.scaled_sample x) <=
  Number.ToInt16 (Linear16.scaled_sample y).
Proof.
  intros Hx Hy Fx Fy Hxy.
  assert (Nx : x <> S754_nan) by (intros ->; exact Fx).
  assert (Ny : y <> S754_nan) by (intros ->; exact Fy).
  destruct (scaled_sample_quantized x Hx Nx) as [-> _].
  destruct (scaled_sample_quantized y Hy Ny) as [-> _].
  unfold PCM.quantized.
  apply Qtruncate_monotone, scaled_monotone.
  replace (PCM.clamped x) with (PCM.clamp (PCM.value x))
    by (destruct x; try contradiction; reflexivity).
  replace (PCM.clamped y) with (PCM.clamp (PCM.value y))
    by (destruct y; try contradiction; reflexivity).
  now apply clamp_monotone.
Qed.

Lemma scaled_sample_monotone_witness :
  Number.ToInt16 (Linear16.scaled_sample Demo.minus_one) <=
  Number.ToInt16 (Linear16.scaled_sample Demo.half).
Proof.
  apply scaled_sample_monotone.
  - vm_compute. reflexivity.
  - vm_compute. reflexivity.
  - exact I.
  - exact I.
  - unfold Qle. simpl. lia.
Defined.

Lemma float32ToLinear16_nan_as_zero_witness :
  exists bytes,
    Linear16.float32ToLinear16 [Demo.half; S754_nan] = Normal bytes /\
    length bytes = 4%nat /\
    DataView.getInt16_le bytes 2 = 0.
Proof. apply (float32ToLinear16_nan_as_zero [Demo.half; S754_nan] 1). reflexivity. Defined.

(** X4.  In every reachable state the four handles of the capture are
    all null or all name one and the same graph; a graph they name
    exists and is in full operation: its tracks live, its context open,
    both nodes connected and the handler installed, so that it delivers
    blocks.  [isActive] holds exactly then. *)
Theorem capture_all_or_nothing
    (apiKey : JS.str) (JSON_parse : JS.str -> option JS.value)
    (toLowerCase : JS.str -> JS.str) (Number_toString : spec_float -> JS.str)
    (w : World) :
  reachable apiKey JSON_parse toLowerCase Number_toString w ->
  mediaStream w = audioContext w /\ sourceNode w = audioContext w /\
  processorNode w = audioContext w /\
  isActive w = (Normal (non_null (processorNode w)), w) /\
  forall g, audioContext w = Some g ->
    (g < length (graphs w))%nat /\
    Media.tracksLive (the_graph w g) = true /\
    Media.contextClosed (the_graph w g) = false /\
    Media.sourceConnected (the_graph w g) = true /\
    Media.processorConnected (the_graph w g) = true /\
    Media.onaudioprocess (the_graph w g) = true /\
    forall channelData, enabled (AudioProcess g channelData) w = true.
Proof.
  intros Hreach.
  destruct (capture_inv_reachable _ _ _ _ w Hreach) as [(M & S & P) Hrun].
  split; [exact M|]. split; [exact S|]. split; [exact P|]. split.
  - unfold isActive. run_js. now rewrite P.
  - intros g Hg. destruct (Hrun g Hg) as [Hlt Hr]. split; [exact Hlt|].
    unfold Capture.running in Hr.
    destruct (Media.tracksLive _), (Media.contextClosed _) eqn:Hc,
      (Media.sourceConnected _), (Media.processorConnected _) eqn:Hp,
      (Media.onaudioprocess _) eqn:Ho; try discriminate Hr.
    repeat (split; [reflexivity|]).
    intros channelData. simpl. unfold Media.emitting. rewrite Hc, Hp, Ho.
    apply Nat.ltb_lt in Hlt. now rewrite Hlt.
Qed.

(** X5.  In every reachable state in which the capture is active,
    [stop] turns the graph it holds off entirely: the tracks are
    stopped, the context is closed, both nodes are disconnected and the
    handler is removed; no other graph is touched, and closing the
    context does not fail, so nothing is logged. *)
Theorem stop_shuts_graph
    (apiKey : JS.str) (JSON_parse : JS.str -> option JS.value)
    (toLowerCase : JS.str -> JS.str) (Number_toString : spec_float -> JS.str)
    (w : World) (g : nat) :
  reachable apiKey JSON_parse toLowerCase Number_toString w ->
  audioContext w = Some g ->
  exists w',
    stop w = (Normal tt, w') /\
    the_graph w' g =
      Media.mk (Media.sampleRate (the_graph w g)) false true false false false /\
    (forall g', g' <> g -> the_graph w' g' = the_graph w g') /\
    (forall channelData, enabled (AudioProcess g channelData) w' = false) /\
    trace w' = trace w.
Proof.
  intros Hreach Hg.
  pose proof (capture_inv_reachable _ _ _ _ w Hreach) as Hinv.
  destruct (Capture.held_is_running w Hinv g Hg) as [Hlt _].
  eexists. split; [apply (stop_shuts w g Hinv Hg)|].
  unfold the_graph. simpl. split; [|split; [|split; [|reflexivity]]].
  - rewrite graph_updated by exact Hlt. now rewrite decide_True.
  - intros g' Hne. rewrite graph_updated by exact Hlt. now rewrite decide_False.
  - intros channelData. unfold the_graph. simpl.
    rewrite graph_updated by exact Hlt. rewrite decide_True by reflexivity.
    apply andb_false_r.
Qed.

(** ** The credential and the frame type of every socket *)

Section Authenticated.

Variable apiKey : JS.str.
Variable JSON_parse : JS.str -> option JS.value.
Variable toLowerCase : JS.str -> JS.str.
Variable Number_toString : spec_float -> JS.str.

Abbreviation all_authenticated := (Invariant.all_authenticated apiKey).

Lemma authenticated_insert (w : World) (id : nat) (s' : WS.WebSocket) :
  WS.protocols s' = WS.protocols (the_socket w id) ->
  WS.binaryType s' = WS.binaryType (the_socket w id) ->
  all_authenticated w ->
  all_authenticated (set_sockets (<[id := s']> (sockets w)) w).
Proof.
  intros Hp Hb H. unfold Invariant.all_authenticated in *. simpl.
  destruct (decide (id < length (sockets w))%nat) as [Hlt|Hge].
  - apply Forall_insert; [exact H|].
    unfold authenticated. rewrite Hp, Hb.
    eapply (Forall_lookup_1 (authenticated apiKey)); [exact H|].
    now apply list_lookup_lookup_total_lt.
  - rewrite list_insert_ge by lia. exact H.
Qed.

Lemma authenticated_update_socket id (f : WS.WebSocket -> WS.WebSocket) :
  (forall s, WS.protocols (f s) = WS.protocols s /\
             WS.binaryType (f s) = WS.binaryType s) ->
  preserves all_authenticated (update_socket id f).
Proof.
  intros Hf. apply preserves_modify. intros w H.
  destruct (Hf (the_socket w id)) as [Hp Hb]. now apply authenticated_insert.
Qed.

Lemma authenticated_ws_send id frame : preserves all_authenticated (ws_send id frame).
Proof.
  intros w H.
  unfold ws_send, call, bind, gets, lift, WS.send, update_socket, modify, the_socket.
  simpl. destruct (WS.readyState (sockets w !!! id)); simpl;
    solve [exact H
          | now apply (authenticated_insert (set_calls (calls w ++ [Send id frame]) w))].
Qed.

Lemma authenticated_same (w w' : World) :
  sockets w' = sockets w -> all_authenticated w -> all_authenticated w'.
Proof. unfold Invariant.all_authenticated. now intros ->. Qed.

Lemma authenticated_stop : preserves all_authenticated stop.
Proof.
  intros w H. destruct (stop_returns w) as (w' & -> & _ & _ & _ & _ & S & _).
  now apply (authenticated_same w).
Qed.

Lemma authenticated_start_resumed rate :
  preserves all_authenticated (start_resumed rate).
Proof. intros w H. rewrite start_resumed_returns. exact H. Qed.

Ltac authenticated_known :=
  lazymatch goal with
  | |- preserves _ stop => apply authenticated_stop
  | |- preserves _ (start_resumed _) => apply authenticated_start_resumed
  | |- preserves _ (ws_send _ _) => apply authenticated_ws_send
  | |- preserves _ (update_socket _ _) =>
      apply authenticated_update_socket; intros s;
      unfold WS.close; destruct (WS.readyState s); split; reflexivity
  end.

Lemma authenticated_react ev :
  preserves all_authenticated
    (react apiKey JSON_parse toLowerCase Number_toString ev).
Proof.
  destruct ev;
    prove_preserves
      ltac:(idtac; authenticated_known)
      ltac:(first [ eapply authenticated_same; [|eassumption]; reflexivity
                  | apply Forall_app; split; [assumption|];
                    repeat constructor ]).
Qed.

Lemma authenticated_reachable w :
  reachable apiKey JSON_parse toLowerCase Number_toString w -> all_authenticated w.
Proof.
  induction 1 as [|w w' ev _ IH Hstep].
  - constructor.
  - unfold step in Hstep. destruct (enabled ev w); [|discriminate].
    injection Hstep as <-.
    apply preserves_run_task; [|apply authenticated_react|exact IH].
    intros tr w0 H0. exact H0.
Qed.

(** X6.  Every socket the program ever creates was given the
    subprotocols [token] and the API key, in this order, and delivers
    binary frames as array buffers; with the handshake URL being a
    constant, the key travels in the subprotocol list only. *)
Theorem credential_in_subprotocol (w : World) (ws : nat) (s : WS.WebSocket) :
  reachable apiKey JSON_parse toLowerCase Number_toString w ->
  sockets w !! ws = Some s ->
  WS.protocols s = [JS.lit "token"; apiKey] /\
  WS.binaryType s = JS.lit "arraybuffer" /\
  WS.url s = URL.toString listen_url.
Proof.
  intros Hreach Hs.
  pose proof (authenticated_reachable w Hreach) as Hall.
  destruct (Forall_lookup_1 _ _ _ _ Hall Hs) as [Hp Hb].
  split; [exact Hp|]. split; [exact Hb|].
  exact (handshake_fixed _ _ (reachable_inv _ _ _ _ w Hreach) ws s Hs).
Qed.

(** ** No listener lets an exception escape *)

Lemma no_uncaught_same (w w' : World) :
  trace w' = trace w -> no_uncaught w -> no_uncaught w'.
Proof. unfold no_uncaught. now intros ->. Qed.

Lemma no_uncaught_observed (new : list Effect) (w : World) :
  (forall e, ~ In (Uncaught e) new) -> no_uncaught w -> no_uncaught (observed new w).
Proof.
  intros Hnew H e Hin. unfold observed in Hin. simpl in Hin.
  apply in_app_or in Hin as [Hin|Hin]; [exact (H e Hin)|exact (Hnew e Hin)].
Qed.

Ltac no_uncaught_ext :=
  first [ eapply no_uncaught_same; [|eassumption]; reflexivity
        | apply (no_uncaught_observed [_]); [|assumption];
          intros ? [Habsurd|[]]; discriminate Habsurd ].

Lemma no_uncaught_update_socket id f : preserves no_uncaught (update_socket id f).
Proof. apply preserves_modify. intros w H. no_uncaught_ext. Qed.

Lemma no_uncaught_update_graph g f : preserves no_uncaught (update_graph g f).
Proof. apply preserves_modify. intros w H. no_uncaught_ext. Qed.

Ltac no_uncaught_updates :=
  lazymatch goal with
  | |- preserves _ (update_socket _ _) => apply no_uncaught_update_socket
  | |- preserves _ (update_graph _ _) => apply no_uncaught_update_graph
  end.

Lemma no_uncaught_ws_send id frame : preserves no_uncaught (ws_send id frame).
Proof. prove_preserves ltac:(idtac; no_uncaught_updates) ltac:(no_uncaught_ext). Qed.

Lemma no_uncaught_stop : preserves no_uncaught stop.
Proof. prove_preserves ltac:(idtac; no_uncaught_updates) ltac:(no_uncaught_ext). Qed.

Lemma no_uncaught_start_resumed rate : preserves no_uncaught (start_resumed rate).
Proof. intros w H. rewrite start_resumed_returns. exact H. Qed.

Lemma no_uncaught_finalized w : no_uncaught w -> no_uncaught (finalized w).
Proof.
  intros H. unfold finalized. destruct (socket w) as [ws|]; [|exact H].
  destruct (WS.readyState (the_socket w ws)); try exact H.
  intros e Hin. simpl in Hin.
  apply in_app_or in Hin as [Hin|[Habsurd|[]]]; [exact (H e Hin)|discriminate Habsurd].
Qed.

Lemma no_uncaught_finalizeAndClose : preserves no_uncaught finalizeAndClose.
Proof. intros w H. rewrite finalizeAndClose_returns. now apply no_uncaught_finalized. Qed.

Lemma no_uncaught_detached : preserves no_uncaught (detached finalizeAndClose).
Proof.
  intros w H. unfold detached, try_catch. rewrite finalizeAndClose_returns.
  now apply no_uncaught_finalized.
Qed.

Ltac no_uncaught_known :=
  lazymatch goal with
  | |- preserves _ stop => apply no_uncaught_stop
  | |- preserves _ (start_resumed _) => apply no_uncaught_start_resumed
  | |- preserves _ (detached finalizeAndClose) => apply no_uncaught_detached
  | |- preserves _ finalizeAndClose => apply no_uncaught_finalizeAndClose
  | |- preserves _ (ws_send _ _) => apply no_uncaught_ws_send
  | |- preserves _ (update_socket _ _) => apply no_uncaught_update_socket
  end.

Lemma no_uncaught_react ev :
  preserves no_uncaught (react apiKey JSON_parse toLowerCase Number_toString ev).
Proof.
  destruct ev;
    prove_preserves ltac:(idtac; no_uncaught_known) ltac:(no_uncaught_ext).
Qed.

Lemma no_uncaught_reachable w :
  reachable apiKey JSON_parse toLowerCase Number_toString w -> no_uncaught w.
Proof.
  induction 1 as [|w w' ev Hreach IH Hstep].
  - intros e [Habsurd|[]]. discriminate Habsurd.
  - unfold step in Hstep. destruct (enabled ev w) eqn:Hen; [|discriminate].
    injection Hstep as <-.
    destruct (react_steady apiKey JSON_parse toLowerCase Number_toString ev w
                (reachable_inv _ _ _ _ w Hreach) Hen) as (w1 & E & _).
    pose proof (no_uncaught_react ev w IH) as H.
    unfold run_task. rewrite E in *. exact H.
Qed.

(** X7.  Every task the browser can run completes: whatever the order
    of presses, releases, network events, permission answers and audio
    blocks, no listener and no continuation ends with an exception, so
    none is ever left uncaught. *)
Theorem no_uncaught_exception (w : World) (ev : Event) :
  reachable apiKey JSON_parse toLowerCase Number_toString w ->
  (forall e, ~ In (Uncaught e) (trace w)) /\
  (enabled ev w = true ->
   exists w',
     react apiKey JSON_parse toLowerCase Number_toString ev w = (Normal tt, w') /\
     step apiKey JSON_parse toLowerCase Number_toString ev w = Some w').
Proof.
  intros Hreach. split; [exact (no_uncaught_reachable w Hreach)|].
  intros Hen.
  destruct (react_steady apiKey JSON_parse toLowerCase Number_toString ev w
              (reachable_inv _ _ _ _ w Hreach) Hen) as (w1 & E & _).
  exists w1. split; [exact E|].
  unfold step, run_task. now rewrite Hen, E.
Qed.

(** X8.  In every reachable state [finalizeAndClose] runs to its end
    without entering the [catch] around the send: the socket the
    client holds has completed its handshake, so that [send] does not
    throw and nothing is logged.  The client is left without a socket.
    Finalize and then the close are asked of the socket that was held,
    in this order; if it was open, exactly the Finalize message and the
    start of the close go on its wire, it is closing afterwards and no
    other socket is touched; if the service had begun to close it,
    nothing goes on any wire.  Without a socket nothing happens. *)
Theorem Finalize_send_never_fails (w : World) :
  reachable apiKey JSON_parse toLowerCase Number_toString w ->
  exists w',
    finalizeAndClose w = (Normal tt, w') /\ trace w' = trace w /\
    socket w' = None /\
    (socket w = None -> w' = w) /\
    forall ws, socket w = Some ws ->
      (exists s', WS.send (the_socket w ws) (WS.Text Finalize_message) = Normal s') /\
      calls w' = calls w ++ [Send ws (WS.Text Finalize_message); Close ws] /\
      (WS.readyState (the_socket w ws) = WS.OPEN ->
       WS.wire (the_socket w' ws) =
         WS.wire (the_socket w ws) ++ [Finalize; WS.CloseStarted] /\
       WS.readyState (the_socket w' ws) = WS.CLOSING /\
       forall ws', ws' <> ws -> the_socket w' ws' = the_socket w ws') /\
      (WS.readyState (the_socket w ws) <> WS.OPEN -> sockets w' = sockets w).
Proof.
  intros Hreach. exists (finalized w). split; [apply finalizeAndClose_returns|].
  pose proof (finalized_calls w) as Hcalls.
  unfold finalized in *. destruct (socket w) as [ws|] eqn:Hso.
  2:{ split; [reflexivity|]. split; [exact Hso|]. split; [reflexivity|].
      intros ws Hws. discriminate Hws. }
  destruct (held_socket w ws (reachable_inv _ _ _ _ w Hreach) Hso) as [Hs Hr].
  apply lookup_lt_Some in Hs. cbv zeta in *.
  assert (Hsend : exists s',
            WS.send (the_socket w ws) (WS.Text Finalize_message) = Normal s').
  { unfold WS.send.
    destruct (WS.readyState (the_socket w ws)); [contradiction|eexists; reflexivity..]. }
  split; [destruct (WS.readyState _); [contradiction|reflexivity..]|].
  split; [destruct (WS.readyState _); [contradiction|reflexivity..]|].
  split; [discriminate|]. intros ws0 Hws0. injection Hws0 as <-.
  split; [exact Hsend|]. split; [exact Hcalls|]. split.
  - intros Hopen. rewrite Hopen.
    unfold the_socket in *. cbn [sockets set_sockets set_socket].
    rewrite list_lookup_total_insert_eq by exact Hs.
    unfold WS.close. cbn [WS.readyState WS.push_wire]. rewrite Hopen.
    cbn [WS.wire WS.readyState WS.set_readyState WS.push_wire].
    split; [now rewrite <- app_assoc|]. split; [reflexivity|].
    intros ws' Hne. now rewrite list_lookup_total_insert_ne by congruence.
  - intros Hclosed.
    destruct (WS.readyState (the_socket w ws));
      [contradiction|now contradiction Hclosed|reflexivity..].
Qed.

End Authenticated.

(** * Failure paths and late events *)

Section Paths.

Variable apiKey : JS.str.
Variable JSON_parse : JS.str -> option JS.value.
Variable toLowerCase : JS.str -> JS.str.
Variable Number_toString : spec_float -> JS.str.

Abbreviation step := (App.step apiKey JSON_parse toLowerCase Number_toString).
Abbreviation react := (App.react apiKey JSON_parse toLowerCase Number_toString).

(** ** Sockets exist only for an accepted credential *)

Lemma key_accepted_same (w w' : World) :
  sockets w' = sockets w ->
  Invariant.key_accepted apiKey w -> Invariant.key_accepted apiKey w'.
Proof. unfold Invariant.key_accepted. now intros ->. Qed.

Lemma key_accepted_update_socket id (f : WS.WebSocket -> WS.WebSocket) :
  preserves (Invariant.key_accepted apiKey) (update_socket id f).
Proof.
  apply preserves_modify. intros w [Hnil|Hok]; [left|now right].
  cbn [sockets set_sockets]. now rewrite Hnil.
Qed.

Lemma key_accepted_new_WebSocket url :
  preserves (Invariant.key_accepted apiKey)
    (new_WebSocket url [JS.lit "token"; apiKey]).
Proof.
  intros w H. unfold new_WebSocket.
  destruct (WS.acceptable _) eqn:Hok; [now right|exact H].
Qed.

Lemma key_accepted_stop : preserves (Invariant.key_accepted apiKey) stop.
Proof.
  intros w H. destruct (stop_returns w) as (w' & -> & _ & _ & _ & _ & S & _).
  now apply (key_accepted_same w).
Qed.

Lemma key_accepted_start_resumed rate :
  preserves (Invariant.key_accepted apiKey) (start_resumed rate).
Proof. intros w H. rewrite start_resumed_returns. exact H. Qed.

Ltac key_accepted_known :=
  lazymatch goal with
  | |- preserves _ stop => apply key_accepted_stop
  | |- preserves _ (start_resumed _) => apply key_accepted_start_resumed
  | |- preserves _ (update_socket _ _) => apply key_accepted_update_socket
  | |- preserves _ (new_WebSocket _ _) => apply key_accepted_new_WebSocket
  end.

Lemma key_accepted_react ev :
  preserves (Invariant.key_accepted apiKey)
    (App.react apiKey JSON_parse toLowerCase Number_toString ev).
Proof.
  destruct ev;
    prove_preserves
      ltac:(idtac; key_accepted_known)
      ltac:(eapply key_accepted_same; [|eassumption]; reflexivity).
Qed.

Lemma key_accepted_reachable w :
  reachable apiKey JSON_parse toLowerCase Number_toString w ->
  Invariant.key_accepted apiKey w.
Proof.
  induction 1 as [|w w' ev _ IH Hstep].
  - now left.
  - unfold App.step in Hstep. destruct (enabled ev w); [|discriminate].
    injection Hstep as <-.
    apply preserves_run_task; [|apply key_accepted_react|exact IH].
    intros tr w0 H0. exact H0.
Qed.

(** ** A press *)

(** A press ends with the holding flag set, unless the constructor
    refuses the credential. *)
Lemma startPushToTalk_holds (w : World) :
  isHolding w = true \/ streaming w = true \/
    WS.acceptable [JS.lit "token"; apiKey] = true ->
  exists w', startPushToTalk apiKey w = (Normal tt, w') /\ isHolding w' = true.
Proof.
  intros Hok. unfold startPushToTalk, ui_clearError, ui_setStatus.
  rewrite bind_gets. destruct (isHolding w) eqn:Hh.
  { exists w. split; [reflexivity|exact Hh]. }
  rewrite bind_modify, bind_emit, bind_emit.
  unfold bind at 1. rewrite connect_attempt.
  match goal with |- context [streaming ?w0] =>
    replace (streaming w0) with (streaming w) by reflexivity end.
  destruct (streaming w) eqn:Hs.
  - destruct (quiet_startPushToTalk_connected
                (observed [UiSetStatus listening "Connecting to Deepgram and microphone..."]
                   (observed [UiClearError] (set_isHolding true w))))
      as ([] & w2 & E & _ & _ & I).
    exists w2. split; [exact E|]. now rewrite I.
  - destruct Hok as [Hok|[Hok|Hok]]; try discriminate Hok.
    rewrite Hok. eexists. split; reflexivity.
Qed.

(** A press while not holding and not streaming opens a socket, when
    the constructor accepts the credential. *)
Lemma startPushToTalk_opens (w : World) :
  isHolding w = false -> streaming w = false ->
  WS.acceptable [JS.lit "token"; apiKey] = true ->
  startPushToTalk apiKey w =
  (Normal tt,
   opened apiKey
     (observed [UiClearError;
                UiSetStatus listening "Connecting to Deepgram and microphone..."]
        (set_isHolding true w))).
Proof.
  intros Hh Hs Hok. unfold startPushToTalk, ui_clearError, ui_setStatus.
  rewrite bind_gets, Hh, bind_modify, bind_emit, bind_emit, observed_observed.
  unfold bind at 1. rewrite connect_attempt.
  replace (streaming _) with (streaming w) by reflexivity. now rewrite Hs, Hok.
Qed.

(** The same press when the constructor refuses the credential: the
    promise of [connect] is rejected at once, and the press is over. *)
Lemma startPushToTalk_refused (w : World) :
  isHolding w = false -> streaming w = false ->
  WS.acceptable [JS.lit "token"; apiKey] = false ->
  startPushToTalk apiKey w =
  (Normal tt,
   observed [UiClearError;
             UiSetStatus listening "Connecting to Deepgram and microphone...";
             ConsoleLog "[Deepgram] Connecting to:";
             ConsoleError "Deepgram connection error";
             UiSetError "Failed to connect to Deepgram. Check API key and internet.";
             UiSetStatus error "Deepgram connection error"] w).
Proof.
  intros Hh Hs Hok. unfold startPushToTalk, ui_clearError, ui_setStatus.
  rewrite bind_gets, Hh, bind_modify, bind_emit, bind_emit, observed_observed.
  unfold bind at 1. rewrite connect_attempt.
  replace (streaming _) with (streaming w) by reflexivity. rewrite Hs, Hok.
  destruct w as [ss gs mr so ms ac sn pn ih tr cs]. simpl in Hh. subst ih.
  unfold observed. simpl. now rewrite <- !app_assoc.
Qed.

Lemma connecting_socket (w : World) (ws : nat) :
  connecting w ws = true ->
  (ws < length (sockets w))%nat /\
  WS.readyState (the_socket w ws) = WS.CONNECTING /\
  WS.connectPromise (the_socket w ws) = WS.Pending.
Proof.
  unfold connecting, the_socket. intros H.
  destruct (sockets w !! ws) as [s|] eqn:Hs; [|discriminate].
  rewrite (list_lookup_total_correct _ _ _ Hs).
  split; [now apply lookup_lt_Some in Hs|].
  destruct (WS.readyState s), (WS.connectPromise s); try discriminate. auto.
Qed.

(** The task in which a pending handshake fails. *)
Lemma handshake_failure_returns (w : World) (ws : nat) :
  connecting w ws = true ->
  react (WsClosed ws true) w =
  (Normal tt,
   set_socket None
     (observed
        [ConsoleError "[Deepgram] WebSocket error";
         UiSetError "Deepgram WebSocket error.";
         UiSetStatus error "Deepgram error";
         ConsoleError "Deepgram connection error";
         UiSetError "Failed to connect to Deepgram. Check API key and internet.";
         UiSetStatus error "Deepgram connection error";
         ConsoleLog "[Deepgram] WebSocket closed"]
        (set_isHolding false
           (set_sockets
              (<[ws := WS.set_connectPromise WS.Rejected
                         (WS.set_readyState WS.CLOSED (the_socket w ws))]>
                 (sockets w)) w)))).
Proof.
  intros Hc. destruct (connecting_socket w ws Hc) as (Hlt & Hr & Hp).
  unfold App.react, ws_onerror, ws_onclose, onError, settle,
    startPushToTalk_connect_failed, console_error, console_log, ui_setError,
    ui_setStatus, update_socket, the_socket in *.
  run_js.
  rewrite list_lookup_total_insert_eq by exact Hlt. simpl. rewrite Hp. simpl.
  rewrite list_lookup_total_insert_eq by exact Hlt.
  rewrite list_insert_insert_eq.
  unfold observed. simpl. now rewrite <- !app_assoc.
Qed.

(** X9.  When a handshake fails before the socket opens, the error
    handler reports it and rejects the promise of [connect]; the press
    that was waiting for it gives up: the holding flag is cleared, no
    microphone is asked for, the page shows the connection error, and
    the client is left without a socket.  The next press is not
    blocked: it opens a new socket, the constructor accepting the
    credential, as it does in every run of the program that has a
    socket. *)
Theorem handshake_failure_recovers (w : World) (ws : nat) :
  connecting w ws = true ->
  exists w',
    step (WsClosed ws true) w = Some w' /\
    isHolding w' = false /\ socket w' = None /\
    WS.readyState (the_socket w' ws) = WS.CLOSED /\
    WS.connectPromise (the_socket w' ws) = WS.Rejected /\
    micRequests w' = micRequests w /\ graphs w' = graphs w /\
    trace w' =
      trace w ++
      [ConsoleError "[Deepgram] WebSocket error";
       UiSetError "Deepgram WebSocket error.";
       UiSetStatus error "Deepgram error";
       ConsoleError "Deepgram connection error";
       UiSetError "Failed to connect to Deepgram. Check API key and internet.";
       UiSetStatus error "Deepgram connection error";
       ConsoleLog "[Deepgram] WebSocket closed"] /\
    (reachable apiKey JSON_parse toLowerCase Number_toString w \/
       WS.acceptable [JS.lit "token"; apiKey] = true ->
     exists w'',
       step Activate w' = Some w'' /\
       length (sockets w'') = S (length (sockets w')) /\
       connecting w'' (length (sockets w')) = true).
Proof.
  intros Hc. destruct (connecting_socket w ws Hc) as (Hlt & Hr & Hp).
  assert (Hen : enabled (WsClosed ws true) w = true).
  { simpl. unfold exists_socket. apply Nat.ltb_lt in Hlt. now rewrite Hlt, Hr. }
  unfold App.step at 1. rewrite Hen. unfold run_task.
  rewrite (handshake_failure_returns w ws Hc).
  eexists. split; [reflexivity|].
  split; [reflexivity|]. split; [reflexivity|].
  split; [unfold the_socket; simpl; now rewrite list_lookup_total_insert_eq|].
  split; [unfold the_socket; simpl; now rewrite list_lookup_total_insert_eq|].
  split; [reflexivity|]. split; [reflexivity|]. split; [reflexivity|].
  intros Hrun.
  assert (Hok : WS.acceptable [JS.lit "token"; apiKey] = true).
  { destruct Hrun as [Hreach|Hok]; [|exact Hok].
    destruct (key_accepted_reachable w Hreach) as [Hnil|Hok]; [|exact Hok].
    rewrite Hnil in Hlt. simpl in Hlt. lia. }
  match goal with |- exists w'', App.step _ _ _ _ _ ?w1 = _ /\ _ => set (w' := w1) end.
  unfold App.step. cbn [enabled App.react]. unfold run_task.
  rewrite (startPushToTalk_opens w') by (reflexivity || exact Hok).
  eexists. split; [reflexivity|]. split.
  - unfold opened. cbn [sockets set_sockets]. rewrite length_app. simpl. lia.
  - unfold connecting, opened. cbn [sockets set_sockets].
    now rewrite list_lookup_middle by reflexivity.
Qed.

(** X10.  When a socket whose handshake was settled closes, by failure
    or not, the client's handle is cleared, whichever socket it named,
    and that is all: the holding flag and the capture stay as they
    were, so that an active capture keeps running and each of its
    blocks is dropped without a trace until the button is released. *)
Theorem lost_connection_keeps_capture (w : World) (ws : nat) (failed : bool) :
  enabled (WsClosed ws failed) w = true ->
  WS.connectPromise (the_socket w ws) <> WS.Pending ->
  exists w',
    step (WsClosed ws failed) w = Some w' /\
    socket w' = None /\
    isHolding w' = isHolding w /\
    graphs w' = graphs w /\ micRequests w' = micRequests w /\
    mediaStream w' = mediaStream w /\ audioContext w' = audioContext w /\
    sourceNode w' = sourceNode w /\ processorNode w' = processorNode w /\
    (forall g channelData,
       enabled (AudioProcess g channelData) w' = enabled (AudioProcess g channelData) w /\
       react (AudioProcess g channelData) w' = (Normal tt, w')).
Proof.
  intros Hen Hp. unfold App.step. rewrite Hen.
  simpl in Hen. apply andb_true_iff in Hen as [Hlt _].
  unfold exists_socket in Hlt. apply Nat.ltb_lt in Hlt.
  assert (Hdrop : forall w' : World, socket w' = None ->
            forall channelData, onaudioprocess channelData w' = (Normal tt, w')).
  { intros w' Hnone channelData. unfold onaudioprocess, onChunk.
    destruct (sendAudioChunk_returns channelData w') as (bytes & _ & E).
    rewrite E. unfold streaming. now rewrite Hnone. }
  unfold run_task, App.react, ws_onerror, ws_onclose, onError, settle,
    startPushToTalk_connect_failed, console_error, console_log, ui_setError,
    ui_setStatus, update_socket, the_socket in *.
  run_js.
  destruct failed; simpl.
  - rewrite list_lookup_total_insert_eq by exact Hlt. simpl.
    destruct (WS.connectPromise (sockets w !!! ws)); [contradiction|..];
      simpl; (eexists; split; [reflexivity|]);
      do 8 (split; [reflexivity|]);
      intros g channelData; (split; [reflexivity|]); now apply Hdrop.
  - eexists. split; [reflexivity|].
    do 8 (split; [reflexivity|]).
    intros g channelData. split; [reflexivity|]. now apply Hdrop.
Qed.


(** X12.  When the microphone is granted, the capture is built and
    started whatever the state: whether or not the button is still
    held, and whether or not the handles already name a graph.  The new
    graph is in full operation at the rate the browser chose, the
    handles name it, the page says Listening; the graphs that were
    there, a previously named one included, stay as they were. *)
Theorem grant_starts_capture (w : World) (rate : N) :
  (0 < micRequests w)%nat ->
  exists w',
    step (MicGranted rate) w = Some w' /\
    audioContext w' = Some (length (graphs w)) /\
    mediaStream w' = Some (length (graphs w)) /\
    sourceNode w' = Some (length (graphs w)) /\
    processorNode w' = Some (length (graphs w)) /\
    the_graph w' (length (graphs w)) = Media.mk rate true false true true true /\
    (forall g, (g < length (graphs w))%nat -> the_graph w' g = the_graph w g) /\
    isHolding w' = isHolding w /\
    sockets w' = sockets w /\ socket w' = socket w /\
    micRequests w' = pred (micRequests w) /\
    trace w' =
      trace w ++ [UiSetStatus listening "Listening – streaming audio to Deepgram."].
Proof.
  intros Hmr. unfold App.step. simpl.
  apply Nat.ltb_lt in Hmr. rewrite Hmr.
  unfold run_task, startPushToTalk_listening, ui_setStatus.
  rewrite bind_modify.
  set (w1 := set_micRequests _ w).
  rewrite (bind_returns _ _ _ _ _ (start_resumed_returns rate w1)).
  rewrite emit_observed.
  eexists. split; [reflexivity|]. simpl.
  repeat (split; [reflexivity|]).
  split; [unfold the_graph; simpl; now rewrite lookup_total_last|].
  split; [|repeat split].
  intros g Hg. unfold the_graph. simpl. now rewrite lookup_total_app_l.
Qed.

End Paths.

(** * Binary frames are whole blocks of samples *)

Section Frames.

Variable apiKey : JS.str.
Variable JSON_parse : JS.str -> option JS.value.
Variable toLowerCase : JS.str -> JS.str.
Variable Number_toString : spec_float -> JS.str.

Lemma all_encoded_insert (w : World) (id : nat) (s' : WS.WebSocket) :
  Forall Wire.encoded (WS.wire s') ->
  Wire.all_encoded w ->
  Wire.all_encoded (set_sockets (<[id := s']> (sockets w)) w).
Proof.
  intros Hs' H ws s Hs. simpl in Hs.
  destruct (decide (ws = id)) as [->|Hne].
  - destruct (decide (id < length (sockets w))%nat) as [Hlt|Hge].
    + rewrite list_lookup_insert_eq in Hs by exact Hlt. now injection Hs as <-.
    + rewrite list_insert_ge in Hs by lia. now apply (H id).
  - rewrite list_lookup_insert_ne in Hs by congruence. now apply (H ws).
Qed.

Lemma all_encoded_held (w : World) (id : nat) :
  Wire.all_encoded w -> Forall Wire.encoded (WS.wire (the_socket w id)).
Proof.
  intros H. unfold the_socket.
  destruct (sockets w !! id) as [s|] eqn:Hs.
  - rewrite (list_lookup_total_correct _ _ _ Hs). now apply (H id).
  - rewrite list_lookup_total_alt, Hs. constructor.
Qed.

Lemma all_encoded_same (w w' : World) :
  sockets w' = sockets w -> Wire.all_encoded w -> Wire.all_encoded w'.
Proof. unfold Wire.all_encoded. now intros ->. Qed.

Lemma all_encoded_update_socket id (f : WS.WebSocket -> WS.WebSocket) :
  (forall s, WS.wire (f s) = WS.wire s \/
             WS.wire (f s) = WS.wire s ++ [WS.CloseStarted]) ->
  preserves Wire.all_encoded (update_socket id f).
Proof.
  intros Hf. apply preserves_modify. intros w H.
  apply all_encoded_insert; [|exact H].
  pose proof (all_encoded_held w id H) as Hheld.
  destruct (Hf (the_socket w id)) as [-> | ->]; [exact Hheld|].
  apply Forall_app. split; [exact Hheld|]. repeat constructor.
Qed.

Lemma all_encoded_close (w : World) (id : nat) (s : WS.WebSocket) :
  Forall Wire.encoded (WS.wire s) -> Forall Wire.encoded (WS.wire (WS.close s)).
Proof.
  intros H. unfold WS.close. destruct (WS.readyState s); simpl; try exact H;
    (apply Forall_app; split; [exact H|repeat constructor]).
Qed.

Lemma all_encoded_finalized (w : World) :
  Wire.all_encoded w -> Wire.all_encoded (finalized w).
Proof.
  intros H. unfold finalized. destruct (socket w) as [ws|]; [|exact H].
  pose proof (all_encoded_held w ws H) as Hheld. cbv zeta.
  destruct (WS.readyState (the_socket w ws)); try exact H.
  - apply (all_encoded_same
             (set_sockets (<[ws := WS.close (the_socket w ws)]> (sockets w)) w));
      [reflexivity|].
    apply all_encoded_insert; [|exact H].
    now apply (all_encoded_close w ws).
  - apply (all_encoded_same
             (set_sockets
                (<[ws := WS.close (WS.push_wire Finalize (the_socket w ws))]>
                   (sockets w)) w));
      [reflexivity|].
    apply all_encoded_insert; [|exact H].
    apply (all_encoded_close w ws). simpl.
    apply Forall_app. split; [exact Hheld|repeat constructor].
Qed.

Lemma all_encoded_finalizeAndClose : preserves Wire.all_encoded finalizeAndClose.
Proof. intros w H. rewrite finalizeAndClose_returns. now apply all_encoded_finalized. Qed.

Lemma all_encoded_detached : preserves Wire.all_encoded (detached finalizeAndClose).
Proof.
  intros w H. unfold detached, try_catch. rewrite finalizeAndClose_returns.
  now apply all_encoded_finalized.
Qed.

Lemma all_encoded_sendAudioChunk chunk :
  preserves Wire.all_encoded (sendAudioChunk chunk).
Proof.
  intros w H. destruct (sendAudioChunk_returns chunk w) as (bytes & Henc & ->).
  simpl. destruct (streaming w); [|exact H].
  destruct (socket w) as [ws|]; [|exact H].
  unfold transmitted.
  apply (all_encoded_insert (called [Send ws (WS.Binary bytes)] w)); [|exact H].
  simpl. apply Forall_app. split; [now apply (all_encoded_held w)|].
  constructor; [|constructor]. now exists chunk.
Qed.

Lemma all_encoded_stop : preserves Wire.all_encoded stop.
Proof.
  intros w H. destruct (stop_returns w) as (w' & -> & _ & _ & _ & _ & S & _).
  now apply (all_encoded_same w).
Qed.

Lemma all_encoded_start_resumed rate : preserves Wire.all_encoded (start_resumed rate).
Proof. intros w H. rewrite start_resumed_returns. exact H. Qed.

Ltac all_encoded_known :=
  lazymatch goal with
  | |- preserves _ stop => apply all_encoded_stop
  | |- preserves _ (start_resumed _) => apply all_encoded_start_resumed
  | |- preserves _ (detached finalizeAndClose) => apply all_encoded_detached
  | |- preserves _ finalizeAndClose => apply all_encoded_finalizeAndClose
  | |- preserves _ (sendAudioChunk _) => apply all_encoded_sendAudioChunk
  | |- preserves _ (update_socket _ _) =>
      apply all_encoded_update_socket; intros s; simpl; auto
  end.

Lemma all_encoded_react ev :
  preserves Wire.all_encoded (react apiKey JSON_parse toLowerCase Number_toString ev).
Proof.
  destruct ev;
    prove_preserves
      ltac:(idtac; all_encoded_known)
      ltac:(first [ eapply all_encoded_same; [|eassumption]; reflexivity
                  | match goal with
                    | H : Wire.all_encoded ?w |- Wire.all_encoded _ =>
                        intros ws s Hs; simpl in Hs;
                        apply lookup_app_Some in Hs as [Hs|[_ Hs]];
                        [ now apply (H ws)
                        | apply list_lookup_singleton_Some in Hs as [_ <-];
                          constructor ]
                    end ]).
Qed.

Lemma all_encoded_reachable w :
  reachable apiKey JSON_parse toLowerCase Number_toString w -> Wire.all_encoded w.
Proof.
  induction 1 as [|w w' ev _ IH Hstep].
  - intros ws s Hs. discriminate Hs.
  - unfold step in Hstep. destruct (enabled ev w); [|discriminate].
    injection Hstep as <-.
    apply preserves_run_task; [|apply all_encoded_react|exact IH].
    intros tr w0 H0. exact H0.
Qed.

(** X23.  Every binary frame the program ever puts on a socket is the
    encoding of one block of samples: a whole number of 16-bit samples,
    two bytes each, every byte in range. *)
Theorem binary_frames_are_sample_blocks (w : World) (ws : nat) (s : WS.WebSocket)
    (payload : list Z) :
  reachable apiKey JSON_parse toLowerCase Number_toString w ->
  sockets w !! ws = Some s ->
  In (WS.Sent (WS.Binary payload)) (WS.wire s) ->
  exists chunk,
    Linear16.float32ToLinear16 chunk = Normal payload /\
    length payload = (2 * length chunk)%nat /\
    Forall is_byte payload.
Proof.
  intros Hreach Hs Hin.
  pose proof (all_encoded_reachable w Hreach ws s Hs) as Hall.
  apply list_elem_of_In in Hin.
  destruct (proj1 (Forall_forall _ _) Hall _ Hin) as [chunk Henc].
  exists chunk. split; [exact Henc|].
  destruct (float32ToLinear16_total chunk) as (bytes & E & Hlen).
  replace bytes with payload in * by congruence.
  split; [lia|].
  unfold Linear16.float32ToLinear16 in Henc.
  destruct (encode_from_spec _ _ _ _ Henc) as (_ & _ & _ & Hb).
  apply Hb. unfold DataView.ArrayBuffer.
  apply Forall_forall. intros b Hb0. apply list_elem_of_In, repeat_spec in Hb0.
  subst b. unfold is_byte. lia.
Qed.

(** ** The handshake completes after the button was released *)

(** X24.  When a pending handshake completes, the client adopts the
    socket and the press that was waiting goes on to the microphone,
    whether or not the button is still held: the handle names the
    socket, replacing whatever it named; the holding flag is not read;
    and, unless the capture is active, the microphone is asked for. *)
Theorem open_adopts_socket (w : World) (ws : nat) :
  connecting w ws = true ->
  exists w',
    App.step apiKey JSON_parse toLowerCase Number_toString (WsOpened ws) w = Some w' /\
    socket w' = Some ws /\
    WS.readyState (the_socket w' ws) = WS.OPEN /\
    WS.connectPromise (the_socket w' ws) = WS.Fulfilled /\
    isHolding w' = isHolding w /\
    (audioContext w = None ->
       micRequests w' = S (micRequests w) /\
       trace w' = trace w ++ [ConsoleLog "[Deepgram] WebSocket open"; GetUserMedia]) /\
    (audioContext w <> None ->
       micRequests w' = micRequests w /\
       trace w' =
         trace w ++
         [ConsoleLog "[Deepgram] WebSocket open";
          UiSetStatus listening "Listening – streaming audio to Deepgram."]).
Proof.
  intros Hc. destruct (connecting_socket w ws Hc) as (Hlt & Hr & Hp).
  assert (Hen : enabled (WsOpened ws) w = true).
  { simpl. unfold exists_socket. apply Nat.ltb_lt in Hlt. now rewrite Hlt, Hr. }
  unfold App.step. rewrite Hen.
  unfold run_task, App.react, ws_onopen, settle, startPushToTalk_connected,
    startPushToTalk_listening, start, isActive, console_log, ui_setStatus,
    update_socket, the_socket in *.
  run_js.
  rewrite list_lookup_total_insert_eq by exact Hlt. simpl. rewrite Hp. simpl.
  rewrite list_lookup_total_insert_eq by exact Hlt.
  rewrite list_insert_insert_eq.
  destruct (audioContext w) eqn:Ha; simpl;
    (eexists; split; [reflexivity|]); simpl;
    rewrite list_lookup_total_insert_eq by exact Hlt; simpl;
    do 4 (split; [reflexivity|]).
  - split; [discriminate|]. intros _. split; [reflexivity|].
    now rewrite <- app_assoc.
  - split; [|intros H; now elim H]. intros _. split; [reflexivity|].
    now rewrite <- app_assoc.
Qed.

End Frames.

(** * The UI controller *)

Lemma kind_classes (k : StatusKind) :
  Ui.class_of k ∈ ["idle"; "listening"; "error"]%string.
Proof. destruct k; simpl; repeat constructor. Qed.

Lemma class_of_inj (k k' : StatusKind) : Ui.class_of k = Ui.class_of k' -> k = k'.
Proof. destruct k, k'; simpl; intros H; (reflexivity || discriminate H). Qed.

Lemma classList_add_spec (token c : string) (classes : list string) :
  c ∈ Ui.classList_add token classes <-> c = token \/ c ∈ classes.
Proof.
  unfold Ui.classList_add. destruct (bool_decide_reflect (token ∈ classes)) as [Hin|Hnin].
  - split; [auto|]. intros [->|H]; assumption.
  - rewrite elem_of_app, list_elem_of_singleton. tauto.
Qed.

Lemma classList_remove_spec (tokens : list string) (c : string) (classes : list string) :
  c ∈ Ui.classList_remove tokens classes <-> (c ∉ tokens) /\ c ∈ classes.
Proof. unfold Ui.classList_remove. now rewrite list_elem_of_filter. Qed.

Lemma setStatus_shows (kind : StatusKind) (message : string) (v : Ui.View) :
  Ui.shows kind (Ui.setStatus kind message v).
Proof.
  intros k. unfold Ui.setStatus. simpl.
  rewrite classList_add_spec, classList_remove_spec. split.
  - intros [H|[Hnot _]]; [now apply class_of_inj|].
    elim Hnot. apply kind_classes.
  - intros ->. now left.
Qed.

(** X13.  After [setStatus] the status element shows the message and
    carries the class of the given kind and of no other kind, whatever
    classes it carried before; its other classes, the transcript and
    the error text are as they were. *)
Theorem setStatus_exclusive (kind : StatusKind) (message : string) (v : Ui.View) :
  let v' := Ui.setStatus kind message v in
  Ui.status_textContent v' = message /\
  (forall k, Ui.class_of k ∈ Ui.status_classList v' <-> k = kind) /\
  (forall c, (c ∉ ["idle"; "listening"; "error"]%string) ->
     (c ∈ Ui.status_classList v' <-> c ∈ Ui.status_classList v)) /\
  Ui.transcript_textContent v' = Ui.transcript_textContent v /\
  Ui.error_textContent v' = Ui.error_textContent v.
Proof.
  simpl. split; [reflexivity|]. split; [exact (setStatus_shows kind message v)|].
  split; [|split; reflexivity].
  intros c Hc. rewrite classList_add_spec, classList_remove_spec. split.
  - intros [->|[_ H]]; [|exact H]. elim Hc. apply kind_classes.
  - intros H. right. auto.
Qed.

(** ** The transcript box *)

Section Transcript.

Variable scrollHeight : JS.str -> N.

Abbreviation appendText := (Ui.appendText scrollHeight).

Lemma appendText_transcript (text : JS.str) (v : Ui.View) :
  Ui.transcript_textContent (appendText text v) =
  Ui.appended (Ui.transcript_textContent v) text.
Proof.
  unfold Ui.appendText, Ui.appended. now destruct (bool_decide (text = [])).
Qed.

End Transcript.

Section Transcript_joined.

Variable scrollHeight : JS.str -> N.

Lemma appended_nil (current : JS.str) : Ui.appended current [] = current.
Proof. reflexivity. Qed.

Lemma endsWith_newline_app (current text : JS.str) :
  text <> [] ->
  Ui.endsWith_newline (current ++ text) = Ui.endsWith_newline text.
Proof.
  intros Hne. unfold Ui.endsWith_newline. rewrite last_app.
  destruct (last text) eqn:Hl; [reflexivity|].
  apply last_None in Hl. contradiction.
Qed.

Lemma fold_appended (texts : list JS.str) : forall current : JS.str,
  current <> [] -> Ui.endsWith_newline current = false ->
  Forall (fun t => Ui.endsWith_newline t = false) texts ->
  fold_left Ui.appended texts current =
  current ++ flat_map (fun t => JS.lit " " ++ t) (filter (fun t => t <> []) texts).
Proof.
  induction texts as [|t texts IH]; intros current Hne Hnl Hall; simpl.
  - now rewrite app_nil_r.
  - apply Forall_cons in Hall as [Ht Hall].
    rewrite filter_cons. destruct (decide (t <> [])) as [Htn|Htn].
    + assert (Hlen : (length current =? 0)%nat = false)
        by (destruct current; [contradiction|reflexivity]).
      unfold Ui.appended at 2.
      rewrite (bool_decide_eq_false_2 _ Htn), Hnl, Hlen. simpl orb. cbv iota.
      rewrite IH; [|now destruct current| |exact Hall].
      * simpl. now rewrite <- !app_assoc.
      * rewrite app_assoc. now rewrite endsWith_newline_app.
    + assert (t = []) as -> by (destruct t; [reflexivity|elim Htn; discriminate]).
      rewrite appended_nil. now apply IH.
Qed.

Lemma fold_appendText (texts : list JS.str) : forall v : Ui.View,
  Ui.transcript_textContent
    (fold_left (fun v t => Ui.appendText scrollHeight t v) texts v) =
  fold_left Ui.appended texts (Ui.transcript_textContent v).
Proof.
  induction texts as [|t texts IH]; intros v; simpl; [reflexivity|].
  now rewrite IH, appendText_transcript.
Qed.

(** X14.  Texts appended to an empty transcript box end up joined by
    single spaces, in the order of the calls; an empty text leaves the
    box as it is.  (A text that ends in a line feed would be followed
    by no space; the statement is for texts that do not.) *)
Theorem appendText_joins (texts : list JS.str) (v : Ui.View) :
  Ui.transcript_textContent v = [] ->
  Forall (fun t => Ui.endsWith_newline t = false) texts ->
  Ui.transcript_textContent
    (fold_left (fun v t => Ui.appendText scrollHeight t v) texts v) =
  JS.join_with (JS.lit " ") (filter (fun t => t <> []) texts).
Proof.
  intros Hempty Hall. rewrite fold_appendText, Hempty. clear v Hempty.
  induction texts as [|t texts IH]; simpl; [reflexivity|].
  apply Forall_cons in Hall as [Ht Hall].
  rewrite filter_cons. destruct (decide (t <> [])) as [Htn|Htn].
  - unfold Ui.appended at 2. rewrite (bool_decide_eq_false_2 _ Htn). simpl.
    now apply fold_appended.
  - assert (t = []) as -> by (destruct t; [reflexivity|elim Htn; discriminate]).
    rewrite appended_nil. now apply IH.
Qed.

End Transcript_joined.

(** ** Blank strings *)

Lemma trimStart_blank (s : JS.str) :
  JS.trimStart s = [] <-> Forall (fun c => JS.is_white_space c = true) s.
Proof.
  induction s as [|c s IH]; simpl; [split; auto|].
  destruct (JS.is_white_space c) eqn:Hc.
  - rewrite IH. split; [intros H; now constructor|].
    intros H. now apply Forall_cons in H as [_ H].
  - split; [discriminate|]. intros H. apply Forall_cons in H as [H _]. congruence.
Qed.

Lemma trimStart_head (s : JS.str) :
  match JS.trimStart s with
  | [] => True
  | c :: _ => JS.is_white_space c = false
  end.
Proof.
  induction s as [|c s IH]; simpl; [exact I|].
  destruct (JS.is_white_space c) eqn:Hc; [exact IH|exact Hc].
Qed.

Lemma trim_blank (s : JS.str) :
  JS.trim s = [] <-> Forall (fun c => JS.is_white_space c = true) s.
Proof.
  unfold JS.trim, JS.trimEnd. rewrite <- trimStart_blank.
  split.
  - intros H. apply (f_equal (@rev _)) in H. rewrite rev_involutive in H.
    simpl in H. apply trimStart_blank in H.
    apply Forall_rev in H. rewrite rev_involutive in H.
    pose proof (trimStart_head s) as Hhead.
    destruct (JS.trimStart s) as [|c r]; [reflexivity|].
    apply Forall_cons in H as [H _]. congruence.
  - intros ->. reflexivity.
Qed.

(** * The page and its listeners *)

Section Page_facts.

Variable scrollHeight : JS.str -> N.
Variable JSON_parse : JS.str -> option JS.value.
Variable toLowerCase : JS.str -> JS.str.
Variable Number_toString : spec_float -> JS.str.

Abbreviation page_react :=
  (Page.react scrollHeight JSON_parse toLowerCase Number_toString).
Abbreviation page_step :=
  (Page.step scrollHeight JSON_parse toLowerCase Number_toString).
Abbreviation page_reachable :=
  (Page.reachable scrollHeight JSON_parse toLowerCase Number_toString).
Abbreviation task := (Page.task scrollHeight).
Abbreviation render := (Ui.render scrollHeight).

(** X15.  The copy button never touches the clipboard when the
    transcript is empty or only white space: it shows that there is
    nothing to copy.  Otherwise it clears the error and asks for the
    transcript as it stands, untrimmed, to be written; with no earlier
    write pending, when the write settles, the clipboard holds that
    text and the status says so, or the failure is shown.  The
    transcript and the session are not touched. *)
Theorem copy_writes_unless_blank (p : Page.t) :
  let text := Ui.transcript_textContent (Page.view p) in
  let p' := Page.on_copy_click p in
  Ui.transcript_textContent (Page.view p') = text /\
  Page.world p' = Page.world p /\ Page.clipboard p' = Page.clipboard p /\
  Ui.status_classList (Page.view p') = Ui.status_classList (Page.view p) /\
  (Ui.blank text ->
     Page.clipboardWrites p' = Page.clipboardWrites p /\
     Ui.error_textContent (Page.view p') = "Nothing to copy – transcript is empty."%string) /\
  (~ Ui.blank text ->
     Page.clipboardWrites p' = Page.clipboardWrites p ++ [text] /\
     Ui.error_textContent (Page.view p') = ""%string /\
     (Page.clipboardWrites p = [] ->
        let done := Page.on_copy_settled true p' in
        let failed := Page.on_copy_settled false p' in
        Page.clipboard done = Some text /\
        Ui.status_textContent (Page.view done) = "Transcript copied to clipboard."%string /\
        Ui.shows idle (Page.view done) /\
        Page.clipboard failed = Page.clipboard p /\
        Ui.error_textContent (Page.view failed) = "Failed to copy to clipboard."%string /\
        Ui.shows error (Page.view failed))).
Proof.
  unfold Ui.blank. simpl. unfold Page.on_copy_click, Ui.getTranscript. simpl.
  destruct (bool_decide_reflect
              (JS.trim (Ui.transcript_textContent (Page.view p)) = [])) as [Hb|Hb];
    rewrite trim_blank in Hb; simpl.
  - repeat (split; [reflexivity|]). split; [auto|]. intros Hn. contradiction.
  - repeat (split; [reflexivity|]). split; [intros H; contradiction|].
    intros _. split; [reflexivity|]. split; [reflexivity|].
    intros Hnone. unfold Page.on_copy_settled. simpl. rewrite Hnone. simpl.
    split; [reflexivity|]. split; [reflexivity|].
    split; [apply setStatus_shows|]. split; [reflexivity|].
    split; [reflexivity|]. apply setStatus_shows.
Qed.

(** X16.  The clear button empties the transcript and the error text
    and sets the status to idle; the session, the capture and the
    clipboard are not touched.  A copy right after it finds nothing to
    copy, and the next text appended becomes the whole transcript, with
    no separator in front. *)
Theorem clear_resets_page (p : Page.t) :
  let p' := Page.on_clear_click p in
  Ui.transcript_textContent (Page.view p') = [] /\
  Ui.error_textContent (Page.view p') = ""%string /\
  Ui.status_textContent (Page.view p') = "Transcript cleared."%string /\
  Ui.shows idle (Page.view p') /\
  Page.world p' = Page.world p /\ Page.clipboard p' = Page.clipboard p /\
  Page.clipboardWrites p' = Page.clipboardWrites p /\
  Page.clipboardWrites (Page.on_copy_click p') = Page.clipboardWrites p /\
  Ui.error_textContent (Page.view (Page.on_copy_click p')) =
    "Nothing to copy – transcript is empty."%string /\
  forall text,
    Ui.transcript_textContent (Ui.appendText scrollHeight text (Page.view p')) = text.
Proof.
  simpl. do 3 (split; [reflexivity|]). split; [apply setStatus_shows|].
  do 5 (split; [reflexivity|]).
  intros text. rewrite appendText_transcript. simpl. unfold Ui.appended.
  now destruct text.
Qed.

(** ** The listeners of the talk button *)

Lemma on_mouseleave_is_stopPushToTalk (w : World) :
  Page.on_mouseleave w = stopPushToTalk w.
Proof.
  unfold Page.on_mouseleave. rewrite bind_gets.
  destruct (stopPushToTalk_returns w) as (w1 & _ & E). rewrite E.
  destruct (isHolding w) eqn:Hh; [|reflexivity].
  rewrite <- E. reflexivity.
Qed.

Lemma task_unchanged (m : M unit) (p : Page.t) :
  m (Page.world p) = (Normal tt, Page.world p) -> task m p = p.
Proof.
  intros E. unfold Page.task, run_task. rewrite E.
  rewrite drop_all. now destruct p.
Qed.

(** X17.  Leaving the button with the pointer does exactly what
    releasing it does, in every state of the page; and when the button
    is not held, either leaves the page as it is. *)
Theorem mouseleave_is_mouseup (p : Page.t) :
  page_react Page.mouseleave p = page_react Page.mouseup p /\
  (isHolding (Page.world p) = false ->
   page_react Page.mouseup p = (p, false)).
Proof.
  split.
  - simpl. unfold Page.task, run_task.
    now rewrite on_mouseleave_is_stopPushToTalk.
  - intros Hh. simpl. rewrite task_unchanged; [reflexivity|].
    destruct (stopPushToTalk_returns (Page.world p)) as (w1 & _ & E).
    now rewrite E, Hh.
Qed.

(** X18.  Space and Enter on the button do what the mouse does, and
    suppress the key's default action: a key down is a press, a key up
    a release.  Any other key is ignored and keeps its default action.
    A key down ends with the holding flag set when the flag was set
    already, when the client is streaming, or when the constructor
    accepts the key as a subprotocol; a key held down repeats its key
    down, and every repetition after such a first one leaves the page
    as it is.  With a key the constructor refuses, a key down that
    attempts the connection ends with the flag clear, no socket
    created and the connection error on the page. *)
Theorem talk_keys_mirror_mouse (code : string) (p : Page.t) :
  (code = "Space"%string \/ code = "Enter"%string ->
   page_react (Page.keydown code) p = (fst (page_react Page.mousedown p), true) /\
   page_react (Page.keyup code) p = (fst (page_react Page.mouseup p), true) /\
   let held := fst (page_react (Page.keydown code) p) in
   (isHolding (Page.world held) = true ->
    page_react (Page.keydown code) held = (held, true)) /\
   (isHolding (Page.world p) = true \/ streaming (Page.world p) = true \/
      WS.acceptable [JS.lit "token"; Page.apiKey p] = true ->
    isHolding (Page.world held) = true) /\
   (isHolding (Page.world p) = false -> streaming (Page.world p) = false ->
    WS.acceptable [JS.lit "token"; Page.apiKey p] = false ->
    isHolding (Page.world held) = false /\
    sockets (Page.world held) = sockets (Page.world p) /\
    Ui.status_textContent (Page.view held) = "Deepgram connection error"%string /\
    Ui.shows error (Page.view held) /\
    Ui.error_textContent (Page.view held) =
      "Failed to connect to Deepgram. Check API key and internet."%string)) /\
  (code <> "Space"%string -> code <> "Enter"%string ->
   page_react (Page.keydown code) p = (p, false) /\
   page_react (Page.keyup code) p = (p, false)).
Proof.
  split.
  - intros Hcode.
    assert (Hkey : Page.is_talk_key code = true) by (destruct Hcode as [->| ->]; reflexivity).
    simpl. rewrite Hkey. split; [reflexivity|]. split; [reflexivity|]. simpl.
    split; [|split].
    + intros Hh.
      rewrite (task_unchanged _ (task (startPushToTalk (Page.apiKey p)) p));
        [reflexivity|].
      destruct (startPushToTalk_returns (Page.apiKey p)
                  (Page.world (task (startPushToTalk (Page.apiKey p)) p)))
        as (w'' & E' & _ & Hnoop & _).
      now rewrite E', (Hnoop Hh).
    + intros Hok.
      destruct (startPushToTalk_holds (Page.apiKey p) (Page.world p) Hok)
        as (w' & E & Hh).
      unfold run_task. now rewrite E.
    + intros Hh Hs Hok. unfold Page.task, run_task.
      rewrite (startPushToTalk_refused (Page.apiKey p) (Page.world p) Hh Hs Hok).
      cbn [Page.world Page.set_world Page.view Page.set_view
           isHolding sockets trace observed set_trace].
      rewrite drop_app_length.
      split; [exact Hh|]. split; [reflexivity|]. split; [reflexivity|].
      split; [|reflexivity].
      exact (setStatus_shows error "Deepgram connection error" _).
  - intros Hs He.
    assert (Hkey : Page.is_talk_key code = false).
    { unfold Page.is_talk_key.
      destruct (String.eqb_spec code "Space"); [contradiction|].
      destruct (String.eqb_spec code "Enter"); [contradiction|]. reflexivity. }
    simpl. now rewrite Hkey.
Qed.

End Page_facts.

Section Page_runs.

Variable scrollHeight : JS.str -> N.
Variable JSON_parse : JS.str -> option JS.value.
Variable toLowerCase : JS.str -> JS.str.
Variable Number_toString : spec_float -> JS.str.

Abbreviation page_react :=
  (Page.react scrollHeight JSON_parse toLowerCase Number_toString).
Abbreviation page_step :=
  (Page.step scrollHeight JSON_parse toLowerCase Number_toString).
Abbreviation page_reachable :=
  (Page.reachable scrollHeight JSON_parse toLowerCase Number_toString).
Abbreviation task := (Page.task scrollHeight).
Abbreviation render := (Ui.render scrollHeight).

Lemma UiController_throws (doc : Ui.Document) :
  Ui.UiController doc = None <->
  Ui.transcript doc = None \/ Ui.status_text doc = None \/ Ui.error_text doc = None.
Proof.
  unfold Ui.UiController.
  destruct (Ui.transcript doc) as [[text top]|],
           (Ui.status_text doc) as [[status classes]|],
           (Ui.error_text doc) as [err|];
    split; auto; try discriminate; intros [H|[H|H]]; discriminate H.
Qed.

Lemma DOMContentLoaded_started_shows (doc : Ui.Document) (key : option JS.str)
    (p : Page.t) :
  Page.DOMContentLoaded doc key = Page.Started p ->
  exists kind, Ui.shows kind (Page.view p).
Proof.
  unfold Page.DOMContentLoaded.
  destruct (Ui.UiController doc); [|discriminate].
  destruct key as [[|c k]|]; try discriminate.
  destruct (negb (Ui.ptt_button doc)); [discriminate|].
  intros [= <-]. exists idle. apply setStatus_shows.
Qed.

(** X19.  How the [DOMContentLoaded] listener ends.  It throws exactly
    when one of the three elements of the UI controller is missing.  It
    installs its listeners exactly when those are there, the key is a
    string that is not empty and the talk button exists; the status is
    then idle, nothing is connected or captured, and the holding flag
    is clear.  Otherwise it stops with the reason on the page: the
    missing key, with the error status, or the missing button. *)
Theorem DOMContentLoaded_outcomes (doc : Ui.Document) (key : option JS.str) :
  (Page.DOMContentLoaded doc key = Page.Threw <->
     Ui.transcript doc = None \/ Ui.status_text doc = None \/
     Ui.error_text doc = None) /\
  (forall p, Page.DOMContentLoaded doc key = Page.Started p <->
     exists v,
       Ui.UiController doc = Some v /\
       key = Some (Page.apiKey p) /\ Page.apiKey p <> [] /\
       Ui.ptt_button doc = true /\
       p = Page.mk (Page.apiKey p) initial (Ui.setStatus idle "Idle" v)
             (Ui.copy_button doc) (Ui.clear_button doc) [] None) /\
  (forall v, Page.DOMContentLoaded doc key = Page.Stopped v ->
     ((key = None \/ key = Some []) /\
      Ui.shows error v /\
      Ui.status_textContent v = "Deepgram key not configured"%string /\
      Ui.error_textContent v =
        "Set VITE_DEEPGRAM_API_KEY in a .env file at the project root."%string) \/
     (Ui.ptt_button doc = false /\
      Ui.error_textContent v = "Push-to-talk button not found."%string)).
Proof.
  pose proof (UiController_throws doc) as Hthrows.
  unfold Page.DOMContentLoaded.
  destruct (Ui.UiController doc) as [ui|] eqn:Hui.
  - split; [|split].
    + split.
      * destruct key as [[|c k]|]; try destruct (negb (Ui.ptt_button doc));
          discriminate.
      * intros H. apply Hthrows in H. discriminate H.
    + intros p. split.
      * destruct key as [[|c k]|]; try discriminate.
        destruct (Ui.ptt_button doc) eqn:Hptt; simpl; [|discriminate].
        intros [= <-]. exists ui. simpl.
        split; [reflexivity|]. split; [reflexivity|]. split; [discriminate|].
        split; reflexivity.
      * intros (v & [= <-] & -> & Hne & -> & ->). simpl.
        destruct (Page.apiKey p); [contradiction|reflexivity].
    + intros v. destruct key as [[|c k]|].
      * intros [= <-]. left. split; [auto|]. split; [|split; reflexivity].
        apply setStatus_shows.
      * destruct (Ui.ptt_button doc); simpl; [discriminate|].
        intros [= <-]. right. auto.
      * intros [= <-]. left. split; [auto|]. split; [|split; reflexivity].
        apply setStatus_shows.
  - split; [|split].
    + split; [intros _; now apply Hthrows|reflexivity].
    + intros p. split; [discriminate|]. intros (v & H & _). discriminate H.
    + discriminate.
Qed.

(** ** Every page step is a step of the pipeline, or leaves it alone *)

Lemma page_step_world (i : Page.Input) (p p' : Page.t) :
  page_step i p = Some p' ->
  Page.apiKey p' = Page.apiKey p /\
  (Page.world p' = Page.world p \/
   exists ev,
     App.step (Page.apiKey p) JSON_parse toLowerCase Number_toString ev
       (Page.world p) = Some (Page.world p')).
Proof.
  unfold Page.step. destruct (Page.enabled i p) eqn:Hen; [|discriminate].
  intros [= <-].
  destruct i as [| | |code|code| | |written|ev]; simpl.
  - split; [reflexivity|]. right. exists Activate. reflexivity.
  - split; [reflexivity|]. right. exists Deactivate. reflexivity.
  - split; [reflexivity|]. right. exists Deactivate.
    unfold App.step, run_task. simpl.
    now rewrite on_mouseleave_is_stopPushToTalk.
  - destruct (Page.is_talk_key code); simpl; (split; [reflexivity|]); [|now left].
    right. exists Activate. reflexivity.
  - destruct (Page.is_talk_key code); simpl; (split; [reflexivity|]); [|now left].
    right. exists Deactivate. reflexivity.
  - split; [|left]; unfold Page.on_copy_click;
      now destruct (bool_decide _).
  - split; [reflexivity|now left].
  - split; [|left]; unfold Page.on_copy_settled;
      destruct (Page.clipboardWrites p); try reflexivity; now destruct written.
  - split; [reflexivity|]. right. exists ev.
    unfold App.step.
    replace (enabled ev (Page.world p)) with true; [reflexivity|].
    destruct ev; simpl in Hen; (discriminate Hen || now rewrite <- Hen).
Qed.

(** X20.  The page runs the pipeline and nothing else: in every state
    the page can reach, the client, the capture and the holding flag
    are in a state the pipeline can reach with the key the page was
    started with, so that everything that holds of the pipeline's
    reachable states holds while the page is used, the copy and clear
    buttons included. *)
Theorem page_refines_pipeline (doc : Ui.Document) (key : option JS.str) (p : Page.t) :
  page_reachable doc key p ->
  key = Some (Page.apiKey p) /\ Page.apiKey p <> [] /\
  App.reachable (Page.apiKey p) JSON_parse toLowerCase Number_toString
    (Page.world p).
Proof.
  induction 1 as [p Hboot|p p' i _ (Hkey & Hne & IH) Hstep].
  - unfold Page.DOMContentLoaded in Hboot.
    destruct (Ui.UiController doc); [|discriminate].
    destruct key as [[|c k]|]; try discriminate.
    destruct (negb (Ui.ptt_button doc)); [discriminate|].
    injection Hboot as <-. simpl.
    split; [reflexivity|]. split; [discriminate|]. apply reachable_initial.
  - destruct (page_step_world i p p' Hstep) as [Hk Hw]. rewrite Hk.
    split; [exact Hkey|]. split; [exact Hne|].
    destruct Hw as [->|[ev Hev]]; [exact IH|].
    eapply App.reachable_step; [exact IH|exact Hev].
Qed.

(** ** The status element *)

Lemma perform_shows (e : Effect) (v : Ui.View) :
  (exists kind, Ui.shows kind v) ->
  exists kind, Ui.shows kind (Ui.perform scrollHeight e v).
Proof.
  intros [kind H]. destruct e; simpl;
    try (exists kind; exact H).
  - eexists. apply setStatus_shows.
  - unfold Ui.appendText. destruct (bool_decide _); exists kind; exact H.
Qed.

Lemma render_shows (calls : list Effect) : forall v : Ui.View,
  (exists kind, Ui.shows kind v) -> exists kind, Ui.shows kind (render calls v).
Proof.
  induction calls as [|e calls IH]; intros v H; simpl; [exact H|].
  apply IH. now apply perform_shows.
Qed.

Lemma page_step_shows (i : Page.Input) (p p' : Page.t) :
  page_step i p = Some p' ->
  (exists kind, Ui.shows kind (Page.view p)) ->
  exists kind, Ui.shows kind (Page.view p').
Proof.
  unfold Page.step. destruct (Page.enabled i p); [|discriminate].
  intros [= <-] H.
  destruct i as [| | |code|code| | |written|ev]; simpl;
    try (now apply render_shows).
  - destruct (Page.is_talk_key code); simpl; [now apply render_shows|exact H].
  - destruct (Page.is_talk_key code); simpl; [now apply render_shows|exact H].
  - unfold Page.on_copy_click. destruct (bool_decide _); exact H.
  - eexists. apply setStatus_shows.
  - unfold Page.on_copy_settled. destruct (Page.clipboardWrites p); [exact H|].
    destruct written; simpl; eexists; apply setStatus_shows.
Qed.

(** X21.  In every state the page can reach, the status element
    carries the class of exactly one status kind, whatever classes it
    had in the document: the three kinds exclude each other on the
    page at all times. *)
Theorem status_shows_one_kind (doc : Ui.Document) (key : option JS.str) (p : Page.t) :
  page_reachable doc key p ->
  exists kind, forall k,
    Ui.class_of k ∈ Ui.status_classList (Page.view p) <-> k = kind.
Proof.
  induction 1 as [p Hboot|p p' i _ IH Hstep].
  - apply (DOMContentLoaded_started_shows doc key p Hboot).
  - exact (page_step_shows i p p' Hstep IH).
Qed.

End Page_runs.

Section Page_hears.

Variable scrollHeight : JS.str -> N.
Variable JSON_parse : JS.str -> option JS.value.
Variable toLowerCase : JS.str -> JS.str.
Variable Number_toString : spec_float -> JS.str.

(** What the message handler observes for a result that carries text. *)
Lemma ws_onmessage_results (raw : JS.str) (data : JS.value) (type text : JS.str)
    (w : World) :
  JSON_parse raw = Some data ->
  message_type Number_toString data = Normal type ->
  toLowerCase type = JS.lit "results" ->
  first_transcript data = Normal (Some (JS.Str text)) ->
  JS.trim text <> [] ->
  ws_onmessage JSON_parse toLowerCase Number_toString (TextData raw) w =
  (Normal tt,
   observed
     [ConsoleLog "[Deepgram] message:"; ConsoleLog "[Deepgram] alt:";
      ConsoleLog "[Deepgram] transcript field:"; UiAppendText text] w).
Proof.
  intros Hparse Htype Hres Hfirst Htrim.
  assert (Htext : text <> []) by (intros ->; now apply Htrim).
  unfold ws_onmessage, call_trim, onTranscript, ui_appendText, console_log,
    console_error.
  unfold try_catch, bind, lift, ret, throw. cbv zeta. cbn [data_toString].
  rewrite Hparse, emit_observed, Htype, (bool_decide_eq_true_2 _ Hres), Hfirst.
  rewrite !emit_observed, !observed_observed. simpl.
  rewrite (bool_decide_eq_false_2 _ Htext). simpl.
  rewrite length_trimmed_pos, (bool_decide_eq_false_2 _ Htrim). simpl.
  unfold observed. simpl. now rewrite <- app_assoc.
Qed.

(** X22.  A result of the service that carries text shows up on the
    page: the text, as it came, is appended to the transcript, after a
    single space unless the transcript is empty or ends in a line feed,
    and the box is scrolled to its end.  The status, the error text,
    the sockets and the holding flag stay as they were. *)
Theorem results_message_reaches_page (p : Page.t) (ws : nat) (raw : JS.str)
    (data : JS.value) (type text : JS.str) :
  JSON_parse raw = Some data ->
  message_type Number_toString data = Normal type ->
  toLowerCase type = JS.lit "results" ->
  first_transcript data = Normal (Some (JS.Str text)) ->
  JS.trim text <> [] ->
  let p' :=
    fst (Page.react scrollHeight JSON_parse toLowerCase Number_toString
           (Page.browser (WsMessage ws (TextData raw))) p) in
  let current := Ui.transcript_textContent (Page.view p) in
  Ui.transcript_textContent (Page.view p') =
    current ++
    (if Ui.endsWith_newline current || (length current =? 0)%nat then []
     else JS.lit " ") ++ text /\
  Ui.transcript_scrollTop (Page.view p') =
    scrollHeight (Ui.transcript_textContent (Page.view p')) /\
  Ui.status_textContent (Page.view p') = Ui.status_textContent (Page.view p) /\
  Ui.status_classList (Page.view p') = Ui.status_classList (Page.view p) /\
  Ui.error_textContent (Page.view p') = Ui.error_textContent (Page.view p) /\
  sockets (Page.world p') = sockets (Page.world p) /\
  isHolding (Page.world p') = isHolding (Page.world p).
Proof.
  intros Hparse Htype Hres Hfirst Htrim.
  assert (Htext : text <> []) by (intros ->; now apply Htrim).
  assert (Hp' :
    fst (Page.react scrollHeight JSON_parse toLowerCase Number_toString
           (Page.browser (WsMessage ws (TextData raw))) p) =
    Page.set_world
      (observed
         [ConsoleLog "[Deepgram] message:"; ConsoleLog "[Deepgram] alt:";
          ConsoleLog "[Deepgram] transcript field:"; UiAppendText text]
         (Page.world p))
      (Page.set_view
         (Ui.appendText scrollHeight text
            (Ui.log "[Deepgram] transcript field:"
               (Ui.log "[Deepgram] alt:"
                  (Ui.log "[Deepgram] message:" (Page.view p)))))
         p)).
  { cbn [Page.react fst App.react]. unfold Page.task, run_task.
    rewrite (ws_onmessage_results raw data type text _ Hparse Htype Hres Hfirst Htrim).
    unfold observed. cbn [trace set_trace]. rewrite drop_app_length. reflexivity. }
  cbv zeta. rewrite Hp'. clear Hp'.
  unfold Ui.appendText. rewrite (bool_decide_eq_false_2 _ Htext).
  repeat (split; [reflexivity|]). reflexivity.
Qed.

End Page_hears.

(** * Only the clear button removes text *)

Section Transcript_grows.

Variable scrollHeight : JS.str -> N.
Variable JSON_parse : JS.str -> option JS.value.
Variable toLowerCase : JS.str -> JS.str.
Variable Number_toString : spec_float -> JS.str.

Lemma appended_prefix (current text : JS.str) :
  current `prefix_of` Ui.appended current text.
Proof.
  unfold Ui.appended. destruct (bool_decide (text = [])); [reflexivity|].
  now apply prefix_app_r.
Qed.

Lemma perform_prefix (e : Effect) (v : Ui.View) :
  Ui.transcript_textContent v `prefix_of`
  Ui.transcript_textContent (Ui.perform scrollHeight e v).
Proof.
  destruct e; simpl; try reflexivity.
  rewrite appendText_transcript. apply appended_prefix.
Qed.

Lemma render_prefix (calls : list Effect) : forall v : Ui.View,
  Ui.transcript_textContent v `prefix_of`
  Ui.transcript_textContent (Ui.render scrollHeight calls v).
Proof.
  induction calls as [|e calls IH]; intros v; simpl; [reflexivity|].
  etransitivity; [apply perform_prefix|apply IH].
Qed.

(** X25.  No listener but that of the clear button ever removes or
    alters text of the transcript: across every other step of the page
    the transcript it had is a prefix of the transcript it has. *)
Theorem transcript_only_grows (i : Page.Input) (p p' : Page.t) :
  Page.step scrollHeight JSON_parse toLowerCase Number_toString i p = Some p' ->
  i <> Page.clear_click ->
  Ui.transcript_textContent (Page.view p) `prefix_of`
  Ui.transcript_textContent (Page.view p').
Proof.
  unfold Page.step. destruct (Page.enabled i p); [|discriminate].
  intros [= <-] Hi.
  destruct i as [| | |code|code| | |written|ev]; simpl;
    try apply render_prefix.
  - destruct (Page.is_talk_key code); simpl; [apply render_prefix|reflexivity].
  - destruct (Page.is_talk_key code); simpl; [apply render_prefix|reflexivity].
  - unfold Page.on_copy_click. now destruct (bool_decide _).
  - contradiction.
  - unfold Page.on_copy_settled. destruct (Page.clipboardWrites p); [reflexivity|].
    now destruct written.
Qed.

End Transcript_grows.

(** A copy after a transcript was heard leaves the transcript. *)
Lemma transcript_only_grows_witness :
  Ui.transcript_textContent (Page.view (DemoPage.page_after DemoPage.heard))
  `prefix_of`
  Ui.transcript_textContent
    (Page.view (DemoPage.page_after (DemoPage.heard ++ [Page.copy_click]))).
Proof.
  apply (transcript_only_grows DemoPage.scrollHeight Demo.JSON_parse
           Demo.toLowerCase Demo.Number_toString Page.copy_click).
  - vm_compute. reflexivity.
  - discriminate.
Defined.

(** A block of two samples sent while streaming is on the wire as four
    bytes. *)
Lemma binary_frames_are_sample_blocks_witness :
  exists chunk,
    Linear16.float32ToLinear16 chunk = Normal [255; 63; 0; 128] /\
    length [255; 63; 0; 128] = (2 * length chunk)%nat.
Proof.
  destruct (binary_frames_are_sample_blocks Demo.apiKey Demo.JSON_parse
              Demo.toLowerCase Demo.Number_toString
              (Demo.world_after Demo.streaming_trace) 0%nat
              (the_socket (Demo.world_after Demo.streaming_trace) 0)
              [255; 63; 0; 128] streaming_world_reachable
              ltac:(vm_compute; reflexivity)
              ltac:(vm_compute; left; reflexivity))
    as (chunk & E & Hlen & _).
  exists chunk. split; [exact E|exact Hlen].
Defined.

(** The handshake completes after a release: the socket is adopted and
    the microphone is asked for. *)
Lemma open_adopts_socket_witness :
  exists w',
    step Demo.apiKey Demo.JSON_parse Demo.toLowerCase Demo.Number_toString
      (WsOpened 0) (Demo.world_after [Activate; Deactivate]) = Some w' /\
    socket w' = Some 0%nat /\ isHolding w' = false /\ micRequests w' = 1%nat.
Proof.
  destruct (open_adopts_socket Demo.apiKey Demo.JSON_parse Demo.toLowerCase
              Demo.Number_toString (Demo.world_after [Activate; Deactivate]) 0%nat
              ltac:(vm_compute; reflexivity))
    as (w' & E & Hs & _ & _ & Hh & Hmic & _).
  exists w'. split; [exact E|]. split; [exact Hs|].
  split; [rewrite Hh; vm_compute; reflexivity|].
  destruct (Hmic ltac:(vm_compute; reflexivity)) as [-> _].
  vm_compute. reflexivity.
Defined.

(** * The further properties at concrete inputs *)

(** A press whose handshake is done and whose microphone request is
    still pending. *)
Lemma awaiting_world_reachable :
  reachable Demo.apiKey Demo.JSON_parse Demo.toLowerCase Demo.Number_toString
    (Demo.world_after [Activate; WsOpened 0]).
Proof. apply (demo_reachable [Activate; WsOpened 0]). vm_compute. reflexivity. Qed.

(** While streaming, the handles all name graph 0, which runs. *)
Lemma capture_all_or_nothing_witness :
  mediaStream (Demo.world_after Demo.streaming_trace) = Some 0%nat /\
  processorNode (Demo.world_after Demo.streaming_trace) = Some 0%nat /\
  Media.tracksLive (the_graph (Demo.world_after Demo.streaming_trace) 0) = true /\
  enabled (AudioProcess 0 [Demo.half]) (Demo.world_after Demo.streaming_trace) = true.
Proof.
  destruct (capture_all_or_nothing Demo.apiKey Demo.JSON_parse Demo.toLowerCase
              Demo.Number_toString _ streaming_world_reachable)
    as (M & _ & P & _ & Hrun).
  destruct (Hrun 0%nat ltac:(vm_compute; reflexivity))
    as (_ & Hlive & _ & _ & _ & _ & Hen).
  split; [rewrite M; vm_compute; reflexivity|].
  split; [rewrite P; vm_compute; reflexivity|].
  split; [exact Hlive|apply Hen].
Defined.

(** While streaming, [stop] shuts graph 0, which ran at 48 kHz. *)
Lemma stop_shuts_graph_witness :
  exists w',
    stop (Demo.world_after Demo.streaming_trace) = (Normal tt, w') /\
    the_graph w' 0 = Media.mk 48000 false true false false false /\
    trace w' = trace (Demo.world_after Demo.streaming_trace).
Proof.
  destruct (stop_shuts_graph Demo.apiKey Demo.JSON_parse Demo.toLowerCase
              Demo.Number_toString _ 0%nat streaming_world_reachable
              ltac:(vm_compute; reflexivity))
    as (w' & E & Hg & _ & _ & Htr).
  exists w'. split; [exact E|]. split; [|exact Htr].
  rewrite Hg. vm_compute. reflexivity.
Defined.

(** After a release and a second press, both sockets carry the key as
    their second subprotocol. *)
Lemma credential_in_subprotocol_witness :
  WS.protocols (the_socket (Demo.world_after Demo.repress_trace) 1) =
    [JS.lit "token"; Demo.apiKey] /\
  WS.binaryType (the_socket (Demo.world_after Demo.repress_trace) 1) =
    JS.lit "arraybuffer".
Proof.
  destruct (credential_in_subprotocol Demo.apiKey Demo.JSON_parse Demo.toLowerCase
              Demo.Number_toString _ 1%nat
              (the_socket (Demo.world_after Demo.repress_trace) 1)
              repress_world_reachable ltac:(vm_compute; reflexivity))
    as (Hp & Hb & _).
  split; [exact Hp|exact Hb].
Defined.

(** While streaming nothing was left uncaught, and a release runs to
    its end. *)
Lemma no_uncaught_exception_witness :
  ~ In (Uncaught TypeError) (trace (Demo.world_after Demo.streaming_trace)) /\
  exists w',
    step Demo.apiKey Demo.JSON_parse Demo.toLowerCase Demo.Number_toString
      Deactivate (Demo.world_after Demo.streaming_trace) = Some w'.
Proof.
  destruct (no_uncaught_exception Demo.apiKey Demo.JSON_parse Demo.toLowerCase
              Demo.Number_toString _ Deactivate streaming_world_reachable)
    as [Hnone Hruns].
  split; [apply Hnone|].
  destruct (Hruns ltac:(reflexivity)) as (w' & _ & E).
  exists w'. exact E.
Defined.

(** While streaming, Finalize is sent without a log line: after the
    audio frame, socket 0 carries Finalize and the start of the close. *)
Lemma Finalize_send_never_fails_witness :
  exists w',
    finalizeAndClose (Demo.world_after Demo.streaming_trace) = (Normal tt, w') /\
    trace w' = trace (Demo.world_after Demo.streaming_trace) /\
    WS.wire (the_socket w' 0) =
      [WS.Sent (WS.Binary [255; 63; 0; 128]); Finalize; WS.CloseStarted] /\
    WS.readyState (the_socket w' 0) = WS.CLOSING.
Proof.
  destruct (Finalize_send_never_fails Demo.apiKey Demo.JSON_parse Demo.toLowerCase
              Demo.Number_toString _ streaming_world_reachable)
    as (w' & E & Htr & _ & _ & Hheld).
  destruct (Hheld 0%nat ltac:(vm_compute; reflexivity)) as (_ & _ & Hopen & _).
  destruct (Hopen ltac:(vm_compute; reflexivity)) as (Hwire & Hstate & _).
  exists w'. split; [exact E|]. split; [exact Htr|]. split; [|exact Hstate].
  rewrite Hwire. vm_compute. reflexivity.
Defined.

(** The first handshake fails: the flag is cleared and the next press
    opens socket 1. *)
Lemma handshake_failure_recovers_witness :
  exists w',
    step Demo.apiKey Demo.JSON_parse Demo.toLowerCase Demo.Number_toString
      (WsClosed 0 true) (Demo.world_after Demo.connecting_trace) = Some w' /\
    isHolding w' = false /\ socket w' = None /\
    exists w'',
      step Demo.apiKey Demo.JSON_parse Demo.toLowerCase Demo.Number_toString
        Activate w' = Some w'' /\
      length (sockets w'') = S (length (sockets w')).
Proof.
  destruct (handshake_failure_recovers Demo.apiKey Demo.JSON_parse Demo.toLowerCase
              Demo.Number_toString (Demo.world_after Demo.connecting_trace) 0%nat
              ltac:(vm_compute; reflexivity))
    as (w' & E & Hh & Hs & _ & _ & _ & _ & _ & Hnext).
  destruct (Hnext (or_introl connecting_world_reachable)) as (w'' & E' & Hlen & _).
  exists w'. split; [exact E|]. split; [exact Hh|]. split; [exact Hs|].
  exists w''. split; [exact E'|exact Hlen].
Defined.

(** While streaming the server closes the socket: the capture stays on
    and the next block goes nowhere. *)
Lemma lost_connection_keeps_capture_witness :
  exists w',
    step Demo.apiKey Demo.JSON_parse Demo.toLowerCase Demo.Number_toString
      (WsClosed 0 false) (Demo.world_after Demo.streaming_trace) = Some w' /\
    socket w' = None /\ isHolding w' = true /\ audioContext w' = Some 0%nat /\
    enabled (AudioProcess 0 [Demo.half]) w' = true /\
    react Demo.apiKey Demo.JSON_parse Demo.toLowerCase Demo.Number_toString
      (AudioProcess 0 [Demo.half]) w' = (Normal tt, w').
Proof.
  destruct (lost_connection_keeps_capture Demo.apiKey Demo.JSON_parse Demo.toLowerCase
              Demo.Number_toString (Demo.world_after Demo.streaming_trace) 0%nat false
              ltac:(vm_compute; reflexivity) ltac:(vm_compute; discriminate))
    as (w' & E & Hs & Hh & _ & _ & _ & Ha & _ & _ & Hblocks).
  exists w'. split; [exact E|]. split; [exact Hs|].
  split; [rewrite Hh; vm_compute; reflexivity|].
  split; [rewrite Ha; vm_compute; reflexivity|].
  destruct (Hblocks 0%nat [Demo.half]) as [Hen Hdrop].
  split; [rewrite Hen; vm_compute; reflexivity|exact Hdrop].
Defined.


(** The microphone is granted after the button was released: the
    capture starts all the same. *)
Lemma grant_starts_capture_witness :
  exists w',
    step Demo.apiKey Demo.JSON_parse Demo.toLowerCase Demo.Number_toString
      (MicGranted 48000) (Demo.world_after [Activate; WsOpened 0; Deactivate]) =
      Some w' /\
    isHolding w' = false /\ audioContext w' = Some 0%nat /\
    the_graph w' 0 = Media.mk 48000 true false true true true.
Proof.
  destruct (grant_starts_capture Demo.apiKey Demo.JSON_parse Demo.toLowerCase
              Demo.Number_toString
              (Demo.world_after [Activate; WsOpened 0; Deactivate]) 48000
              ltac:(vm_compute; lia))
    as (w' & E & Ha & _ & _ & _ & Hg & _ & Hh & _).
  exists w'. split; [exact E|].
  split; [rewrite Hh; vm_compute; reflexivity|].
  split; [rewrite Ha; vm_compute; reflexivity|].
  rewrite <- Hg. vm_compute. reflexivity.
Defined.

(** Two texts and an empty one in between. *)
Lemma appendText_joins_witness :
  Ui.transcript_textContent
    (fold_left (fun v t => Ui.appendText DemoPage.scrollHeight t v)
       [JS.lit "hello"; []; JS.lit "world"] (Ui.mkView [] 0 "" [] "" [])) =
  JS.lit "hello world".
Proof.
  rewrite (appendText_joins DemoPage.scrollHeight
             [JS.lit "hello"; []; JS.lit "world"] (Ui.mkView [] 0 "" [] "" [])).
  - vm_compute. reflexivity.
  - reflexivity.
  - repeat constructor.
Defined.

Lemma demo_page_reachable (inputs : list Page.Input) : forall (p0 p : Page.t),
  Page.reachable DemoPage.scrollHeight Demo.JSON_parse Demo.toLowerCase
    Demo.Number_toString DemoPage.document (Some Demo.apiKey) p0 ->
  Page.run DemoPage.scrollHeight Demo.JSON_parse Demo.toLowerCase
    Demo.Number_toString inputs p0 = Some p ->
  Page.reachable DemoPage.scrollHeight Demo.JSON_parse Demo.toLowerCase
    Demo.Number_toString DemoPage.document (Some Demo.apiKey) p.
Proof.
  induction inputs as [|i inputs IH]; intros p0 p Hr Hrun; simpl in Hrun.
  - now injection Hrun as <-.
  - destruct (Page.step _ _ _ _ i p0) as [p1|] eqn:Hstep; [|discriminate].
    eapply IH; [|exact Hrun]. eapply Page.reachable_step; eauto.
Qed.

Lemma heard_page_reachable :
  Page.reachable DemoPage.scrollHeight Demo.JSON_parse Demo.toLowerCase
    Demo.Number_toString DemoPage.document (Some Demo.apiKey)
    (DemoPage.page_after DemoPage.heard).
Proof.
  eapply (demo_page_reachable DemoPage.heard).
  - apply Page.reachable_started. reflexivity.
  - vm_compute. reflexivity.
Qed.

(** After a transcript was heard, the pipeline is in a reachable state. *)
Lemma page_refines_pipeline_witness :
  Page.apiKey (DemoPage.page_after DemoPage.heard) <> [] /\
  reachable (Page.apiKey (DemoPage.page_after DemoPage.heard))
    Demo.JSON_parse Demo.toLowerCase Demo.Number_toString
    (Page.world (DemoPage.page_after DemoPage.heard)).
Proof.
  destruct (page_refines_pipeline DemoPage.scrollHeight Demo.JSON_parse
              Demo.toLowerCase Demo.Number_toString DemoPage.document
              (Some Demo.apiKey) _ heard_page_reachable) as (_ & Hne & Hr).
  split; [exact Hne|exact Hr].
Defined.

(** The document's status element came with the error class; once the
    page runs, one kind is shown. *)
Lemma status_shows_one_kind_witness :
  exists kind, forall k,
    Ui.class_of k ∈ Ui.status_classList (Page.view (DemoPage.page_after DemoPage.heard))
    <-> k = kind.
Proof.
  exact (status_shows_one_kind DemoPage.scrollHeight Demo.JSON_parse
           Demo.toLowerCase Demo.Number_toString DemoPage.document
           (Some Demo.apiKey) _ heard_page_reachable).
Defined.

(** A second result arrives: the page reads the two texts, one space
    between them besides the spaces they came with. *)
Lemma results_message_reaches_page_witness :
  Ui.transcript_textContent
    (Page.view
       (fst (Page.react DemoPage.scrollHeight Demo.JSON_parse Demo.toLowerCase
               Demo.Number_toString
               (Page.browser (WsMessage 0 (TextData Demo.results_text)))
               (DemoPage.page_after DemoPage.heard)))) =
  JS.lit " hello world   hello world ".
Proof.
  destruct (results_message_reaches_page DemoPage.scrollHeight Demo.JSON_parse
              Demo.toLowerCase Demo.Number_toString
              (DemoPage.page_after DemoPage.heard) 0%nat Demo.results_text
              Demo.results_value (JS.lit "Results") (JS.lit " hello world ")
              ltac:(vm_compute; reflexivity) ltac:(vm_compute; reflexivity)
              ltac:(vm_compute; reflexivity) ltac:(vm_compute; reflexivity)
              ltac:(vm_compute; discriminate))
    as [Htext _].
  rewrite Htext. vm_compute. reflexivity.
Defined.

(** * A capture no handle names *)

Lemma orphaned_ext (g : nat) (w w' : World) :
  graphs w' = graphs w -> mediaStream w' = mediaStream w ->
  audioContext w' = audioContext w -> sourceNode w' = sourceNode w ->
  processorNode w' = processorNode w ->
  Capture.orphaned g w -> Capture.orphaned g w'.
Proof.
  intros G M A S P (Hinv & Hlt & Hrun & Hne).
  split; [now apply (capture_inv_ext w)|].
  unfold the_graph. now rewrite G, A.
Qed.

Lemma orphaned_stop (g : nat) : preserves (Capture.orphaned g) stop.
Proof.
  intros w (Hinv & Hlt & Hrun & Hne).
  destruct (audioContext w) as [h|] eqn:Ha.
  - rewrite (stop_shuts w h Hinv Ha). simpl.
    destruct (Capture.held_is_running w Hinv h Ha) as [Hh _].
    split; [|split; [|split]].
    + pose proof (capture_inv_stop w Hinv) as H.
      now rewrite (stop_shuts w h Hinv Ha) in H.
    + simpl. now rewrite length_insert.
    + unfold the_graph. simpl. rewrite graph_updated by exact Hh.
      rewrite decide_False by congruence. exact Hrun.
    + discriminate.
  - rewrite (stop_idle w Hinv Ha). simpl.
    split; [exact Hinv|]. split; [exact Hlt|]. split; [exact Hrun|].
    rewrite Ha. discriminate.
Qed.

Lemma orphaned_start_resumed (g : nat) rate :
  preserves (Capture.orphaned g) (start_resumed rate).
Proof.
  intros w (Hinv & Hlt & Hrun & Hne).
  split; [now apply capture_inv_start_resumed|].
  rewrite start_resumed_returns. simpl.
  split; [rewrite length_app; lia|]. split.
  - unfold the_graph. simpl. now rewrite lookup_total_app_l.
  - intros [= H]. lia.
Qed.

Lemma orphaned_update_socket (g : nat) id f :
  preserves (Capture.orphaned g) (update_socket id f).
Proof.
  apply preserves_modify. intros w H.
  eapply orphaned_ext; [| | | | |exact H]; reflexivity.
Qed.

Ltac orphaned_known :=
  lazymatch goal with
  | |- preserves _ stop => apply orphaned_stop
  | |- preserves _ (start_resumed _) => apply orphaned_start_resumed
  | |- preserves _ (update_socket _ _) => apply orphaned_update_socket
  end.

Section Orphans.

Variable apiKey : JS.str.
Variable JSON_parse : JS.str -> option JS.value.
Variable toLowerCase : JS.str -> JS.str.
Variable Number_toString : spec_float -> JS.str.

Lemma orphaned_react (g : nat) ev :
  preserves (Capture.orphaned g)
    (react apiKey JSON_parse toLowerCase Number_toString ev).
Proof.
  destruct ev;
    prove_preserves
      ltac:(idtac; orphaned_known)
      ltac:(eapply orphaned_ext; [| | | | |eassumption]; reflexivity).
Qed.

Lemma orphaned_run (g : nat) (evs : list Event) : forall w w',
  Capture.orphaned g w ->
  run apiKey JSON_parse toLowerCase Number_toString evs w = Some w' ->
  Capture.orphaned g w'.
Proof.
  induction evs as [|ev evs IH]; intros w w' H Hrun; simpl in Hrun.
  - now injection Hrun as <-.
  - destruct (step apiKey JSON_parse toLowerCase Number_toString ev w)
      as [w1|] eqn:Hstep; [|discriminate].
    apply (IH w1 w'); [|exact Hrun].
    unfold step in Hstep. destruct (enabled ev w); [|discriminate].
    injection Hstep as <-.
    apply preserves_run_task; [|apply orphaned_react|exact H].
    intros tr w0 H0. eapply orphaned_ext; [| | | | |exact H0]; reflexivity.
Qed.

(** X26.  A graph that is in operation while the handles do not name
    it is never stopped: whatever happens from then on, presses and
    releases included, it stays in full operation, no handle names it
    again, and it goes on delivering blocks.  ([stop] only reaches the
    graph the handles name, and the resumed [start] overwrites the
    handles without stopping what they named.) *)
Theorem orphaned_graph_keeps_running (w w' : World) (g : nat) (evs : list Event) :
  reachable apiKey JSON_parse toLowerCase Number_toString w ->
  (g < length (graphs w))%nat ->
  Capture.running (the_graph w g) = true ->
  audioContext w <> Some g ->
  run apiKey JSON_parse toLowerCase Number_toString evs w = Some w' ->
  Media.tracksLive (the_graph w' g) = true /\
  Media.contextClosed (the_graph w' g) = false /\
  audioContext w' <> Some g /\ processorNode w' <> Some g /\
  mediaStream w' <> Some g /\
  forall channelData, enabled (AudioProcess g channelData) w' = true.
Proof.
  intros Hreach Hlt Hrun Hne Hevs.
  assert (H : Capture.orphaned g w).
  { split; [now apply (capture_inv_reachable apiKey JSON_parse toLowerCase
                         Number_toString)|auto]. }
  destruct (orphaned_run g evs w w' H Hevs) as ([(M & S & P) _] & Hlt' & Hrun' & Hne').
  unfold Capture.running in Hrun'.
  destruct (Media.tracksLive _), (Media.contextClosed _) eqn:Hc,
    (Media.sourceConnected _), (Media.processorConnected _) eqn:Hp,
    (Media.onaudioprocess _) eqn:Ho; try discriminate Hrun'.
  split; [reflexivity|]. split; [reflexivity|]. split; [exact Hne'|].
  split; [now rewrite P|]. split; [now rewrite M|].
  intros channelData. simpl. unfold Media.emitting. rewrite Hc, Hp, Ho.
  apply Nat.ltb_lt in Hlt'. now rewrite Hlt'.
Qed.

(** ** Messages only log and append *)

Lemma logged_since_refl (w : World) : logged_since w w.
Proof. exists []. split; [now rewrite app_nil_r|constructor]. Qed.

Lemma logged_since_same (w0 w w' : World) :
  trace w' = trace w -> logged_since w0 w -> logged_since w0 w'.
Proof. unfold logged_since. now intros ->. Qed.

Lemma logged_since_emit (w0 w : World) (e : Effect) :
  log_or_text e -> logged_since w0 w ->
  logged_since w0 (set_trace (trace w ++ [e]) w).
Proof.
  intros He (new & E & F). exists (new ++ [e]). simpl. rewrite E, app_assoc.
  split; [reflexivity|]. apply Forall_app. split; [exact F|]. now constructor.
Qed.

Lemma logged_since_ws_onmessage (w0 : World) data :
  preserves (logged_since w0)
    (ws_onmessage JSON_parse toLowerCase Number_toString data).
Proof.
  prove_preserves
    ltac:(fail)
    ltac:(first [ eapply logged_since_same; [|eassumption]; reflexivity
                | apply logged_since_emit; [exact I|assumption] ]).
Qed.

(** What the message handler observes is console lines and at most
    texts for the transcript. *)
Lemma ws_onmessage_logs (data : MessageData) (w : World) :
  exists new,
    ws_onmessage JSON_parse toLowerCase Number_toString data w =
      (Normal tt, observed new w) /\
    Forall log_or_text new.
Proof.
  destruct (ws_onmessage_returns JSON_parse toLowerCase Number_toString data w)
    as (new & E & _).
  exists new. split; [exact E|].
  destruct (logged_since_ws_onmessage w data w (logged_since_refl w))
    as (new' & E' & F).
  rewrite E in E'. simpl in E'. apply app_inv_head in E'. now subst new'.
Qed.

End Orphans.

Section Page_messages.

Variable scrollHeight : JS.str -> N.
Variable JSON_parse : JS.str -> option JS.value.
Variable toLowerCase : JS.str -> JS.str.
Variable Number_toString : spec_float -> JS.str.

Lemma render_logs (new : list Effect) : forall v : Ui.View,
  Forall log_or_text new ->
  Ui.status_textContent (Ui.render scrollHeight new v) = Ui.status_textContent v /\
  Ui.status_classList (Ui.render scrollHeight new v) = Ui.status_classList v /\
  Ui.error_textContent (Ui.render scrollHeight new v) = Ui.error_textContent v.
Proof.
  induction new as [|e new IH]; intros v F; simpl; [auto|].
  apply Forall_cons in F as [He F].
  destruct (IH (Ui.perform scrollHeight e v) F) as (-> & -> & ->).
  destruct e; try contradiction; simpl; auto.
  unfold Ui.appendText. destruct (bool_decide _); auto.
Qed.

(** X27.  Nothing the service sends can change the state of the
    session or what the page says about it: whatever the message, text
    or binary, well-formed or not, the listener leaves the sockets, the
    client's handle, the holding flag and the capture as they were, and
    on the page the status and the error text; the transcript can only
    gain text at its end. *)
Theorem messages_only_append_text (p : Page.t) (ws : nat) (data : MessageData) :
  let p' :=
    fst (Page.react scrollHeight JSON_parse toLowerCase Number_toString
           (Page.browser (WsMessage ws data)) p) in
  Ui.status_textContent (Page.view p') = Ui.status_textContent (Page.view p) /\
  Ui.status_classList (Page.view p') = Ui.status_classList (Page.view p) /\
  Ui.error_textContent (Page.view p') = Ui.error_textContent (Page.view p) /\
  Ui.transcript_textContent (Page.view p) `prefix_of`
    Ui.transcript_textContent (Page.view p') /\
  sockets (Page.world p') = sockets (Page.world p) /\
  socket (Page.world p') = socket (Page.world p) /\
  isHolding (Page.world p') = isHolding (Page.world p) /\
  graphs (Page.world p') = graphs (Page.world p) /\
  audioContext (Page.world p') = audioContext (Page.world p) /\
  micRequests (Page.world p') = micRequests (Page.world p).
Proof.
  destruct (ws_onmessage_logs JSON_parse toLowerCase Number_toString data
              (Page.world p)) as (new & E & F).
  cbn [Page.react fst App.react]. unfold Page.task, run_task. rewrite E.
  unfold observed. cbn [trace set_trace Page.view Page.set_view Page.set_world
                        Page.world].
  rewrite drop_app_length.
  destruct (render_logs new (Page.view p) F) as (-> & -> & ->).
  do 3 (split; [reflexivity|]). split; [apply render_prefix|].
  repeat split.
Qed.

End Page_messages.

(** Two microphone grants in a row: graph 0 lost its handles to graph
    1, and a release does not stop it. *)
Lemma orphaned_graph_keeps_running_witness :
  exists w',
    run Demo.apiKey Demo.JSON_parse Demo.toLowerCase Demo.Number_toString
      [Deactivate]
      (Demo.world_after
         [Activate; WsOpened 0; Deactivate; Activate; WsOpened 1;
          MicGranted 48000; MicGranted 44100]) = Some w' /\
    isHolding w' = false /\ audioContext w' = None /\
    Media.tracksLive (the_graph w' 0) = true /\
    enabled (AudioProcess 0 [Demo.half]) w' = true.
Proof.
  eexists. split; [vm_compute; reflexivity|].
  split; [reflexivity|]. split; [reflexivity|].
  destruct (orphaned_graph_keeps_running Demo.apiKey Demo.JSON_parse
              Demo.toLowerCase Demo.Number_toString
              (Demo.world_after
                 [Activate; WsOpened 0; Deactivate; Activate; WsOpened 1;
                  MicGranted 48000; MicGranted 44100])
              _ 0%nat [Deactivate]
              ltac:(apply (demo_reachable
                             [Activate; WsOpened 0; Deactivate; Activate;
                              WsOpened 1; MicGranted 48000; MicGranted 44100]);
                    vm_compute; reflexivity)
              ltac:(vm_compute; lia) ltac:(vm_compute; reflexivity)
              ltac:(vm_compute; discriminate) ltac:(vm_compute; reflexivity))
    as (Hlive & _ & _ & _ & _ & Hen).
  split; [exact Hlive|apply Hen].
Defined.
